(** * Figma-to-HTML exporter: style registry, helpers and tree walker

    A shallow embedding of the plugin's main source (the variant with the
    HTML and React output formats) and the properties of it that the
    specification states.

    Conventions of the embedding.
    - A JavaScript string is a [string]: a sequence of code units.  Only the
      ASCII range is interpreted; the operations that look at characters
      beyond it (Unicode case mapping, collation) are parameters.
    - A JavaScript number is an exact rational ([Q]); integers that the code
      keeps as counters or indices are [Z].  Template literals print an
      integer in decimal ([pretty]); printing an arbitrary number is the
      parameter [numberToString].
    - A [Map] is a [gmap], a [Set] used only for membership is a [gset], a
      [Set] that is later iterated is a duplicate-free list in insertion
      order.
    - The mutable export context is threaded explicitly.  The walker,
      which is asynchronous and can throw, is a computation in the monad
      [Conv] of state and exceptions; the calls of the plugin API it awaits
      ([exportAsync], [getStyledTextSegments]) are parameters that return or
      throw.
    - A node is its properties and its children; a property that a node
      type does not have is [None], the marker [figma.mixed] is [IsMixed]. *)

From Stdlib Require Import ZArith QArith Qround Qabs Ascii String List Lia.
From Stdlib Require HexadecimalString.
From stdpp Require Import base gmap strings list pretty sorting.

Local Open Scope Z_scope.
Set Warnings "-clear-no-such-hyp,-register-all,-notation-for-abbreviation".
Set Default Proof Using "Type".
Set Proof Using Clear Unused.

(** ** Strings *)

Definition LF : string := String "010"%char "".
Definition CR : string := String "013"%char "".

(** [Array.prototype.join]. *)
Fixpoint join (sep : string) (l : list string) : string :=
  match l with
  | [] => ""
  | [x] => x
  | x :: rest => x +:+ sep +:+ join sep rest
  end.

Definition chars (s : string) : list ascii := list_ascii_of_string s.
Definition unchars (l : list ascii) : string := string_of_list_ascii l.

Definition isDigit (c : ascii) : bool :=
  let n := N_of_ascii c in ((48 <=? n) && (n <=? 57))%N.

Definition digitValue (c : ascii) : Z := Z.of_N (N_of_ascii c) - 48.

(** [Number(digits)] on a string of decimal digits. *)
Definition digitsToNumber (ds : list ascii) : Z :=
  fold_left (fun acc c => 10 * acc + digitValue c) ds 0.

Fixpoint spanWhile {A} (p : A -> bool) (l : list A) : list A * list A :=
  match l with
  | [] => ([], [])
  | x :: rest =>
      if p x then let '(a, b) := spanWhile p rest in (x :: a, b)
      else ([], l)
  end.

(** The regular expression [/-(\d+)$/]: the text before the hyphen and the
    digits after it, when the string ends in a hyphen and one or more
    digits. *)
Definition matchDashDigitsEnd (s : string) : option (string * list ascii) :=
  let '(ds, rest) := spanWhile isDigit (rev (chars s)) in
  match ds, rest with
  | _ :: _, "-"%char :: pre => Some (unchars (rev pre), rev ds)
  | _, _ => None
  end.

Definition isLineTerminator (c : ascii) : bool :=
  let n := N_of_ascii c in ((n =? 10) || (n =? 13))%N.

(** ** The export context *)

Record StyleEntry := mkStyleEntry {
  className : string;
  baseName : string;
  suffix : Z;
  cssText : string;
}.

Record ExportContext := mkExportContext {
  nameCounts : gmap string Z;
  styleMap : gmap string string;
  utilityClasses : gset string;
  styleEntries : list StyleEntry;
  fontFamiliesUsed : list string;
  usedBaseClasses : gset string;
  svgIdCounter : Z;
}.

(** The context [exportSelection] creates. *)
Definition newContext : ExportContext :=
  {| nameCounts := ∅; styleMap := ∅; utilityClasses := ∅;
     styleEntries := []; fontFamiliesUsed := []; usedBaseClasses := ∅;
     svgIdCounter := 0 |}.

(** Field updates of the mutable context. *)
Definition setNameCounts (v : gmap string Z) (c : ExportContext) : ExportContext :=
  {| nameCounts := v; styleMap := styleMap c;
     utilityClasses := utilityClasses c; styleEntries := styleEntries c;
     fontFamiliesUsed := fontFamiliesUsed c;
     usedBaseClasses := usedBaseClasses c; svgIdCounter := svgIdCounter c |}.
Definition setStyleMap (v : gmap string string) (c : ExportContext) : ExportContext :=
  {| nameCounts := nameCounts c; styleMap := v;
     utilityClasses := utilityClasses c; styleEntries := styleEntries c;
     fontFamiliesUsed := fontFamiliesUsed c;
     usedBaseClasses := usedBaseClasses c; svgIdCounter := svgIdCounter c |}.
Definition setUtilityClasses (v : gset string) (c : ExportContext) : ExportContext :=
  {| nameCounts := nameCounts c; styleMap := styleMap c;
     utilityClasses := v; styleEntries := styleEntries c;
     fontFamiliesUsed := fontFamiliesUsed c;
     usedBaseClasses := usedBaseClasses c; svgIdCounter := svgIdCounter c |}.
Definition setStyleEntries (v : list StyleEntry) (c : ExportContext) : ExportContext :=
  {| nameCounts := nameCounts c; styleMap := styleMap c;
     utilityClasses := utilityClasses c; styleEntries := v;
     fontFamiliesUsed := fontFamiliesUsed c;
     usedBaseClasses := usedBaseClasses c; svgIdCounter := svgIdCounter c |}.
Definition setFontFamiliesUsed (v : list string) (c : ExportContext) : ExportContext :=
  {| nameCounts := nameCounts c; styleMap := styleMap c;
     utilityClasses := utilityClasses c; styleEntries := styleEntries c;
     fontFamiliesUsed := v;
     usedBaseClasses := usedBaseClasses c; svgIdCounter := svgIdCounter c |}.
Definition setUsedBaseClasses (v : gset string) (c : ExportContext) : ExportContext :=
  {| nameCounts := nameCounts c; styleMap := styleMap c;
     utilityClasses := utilityClasses c; styleEntries := styleEntries c;
     fontFamiliesUsed := fontFamiliesUsed c;
     usedBaseClasses := v; svgIdCounter := svgIdCounter c |}.
Definition setSvgIdCounter (v : Z) (c : ExportContext) : ExportContext :=
  {| nameCounts := nameCounts c; styleMap := styleMap c;
     utilityClasses := utilityClasses c; styleEntries := styleEntries c;
     fontFamiliesUsed := fontFamiliesUsed c;
     usedBaseClasses := usedBaseClasses c; svgIdCounter := v |}.

(** ** The style registry *)

Definition getUniqueClassName (base : string) (context : ExportContext)
  : string * ExportContext :=
  let nextCount := default 0 (nameCounts context !! base) + 1 in
  let context1 := setNameCounts (<[base := nextCount]> (nameCounts context)) context in
  (if decide (nextCount = 1) then base else base +:+ "-" +:+ pretty nextCount,
   context1).

(** [className.match(/^(.*?)-(\d+)$/)]: as [matchDashDigitsEnd], and the text
    before the hyphen holds no line terminator. *)
Definition getBaseNameAndSuffix (cls : string) : string * Z :=
  match matchDashDigitsEnd cls with
  | Some (pre, ds) =>
      if existsb isLineTerminator (chars pre) then (cls, 0)
      else (pre, digitsToNumber ds)
  | None => (cls, 0)
  end.

Definition cssBlock (cls : string) (lines : list string) : string :=
  "." +:+ cls +:+ " {" +:+ LF +:+ join LF lines +:+ LF +:+ "}" +:+ LF +:+ LF.

Definition registerUtilityClass (cls : string) (lines : list string)
    (context : ExportContext) : ExportContext :=
  if decide (cls ∈ utilityClasses context) then context
  else
    let '(base, suf) := getBaseNameAndSuffix cls in
    let context1 := setUtilityClasses ({[cls]} ∪ utilityClasses context) context in
    setStyleEntries
      (styleEntries context1 ++
         [{| className := cls; baseName := base; suffix := suf;
             cssText := cssBlock cls lines |}])
      context1.

(** A string is truthy when it is not empty; [undefined] is falsy. *)
Definition truthy (v : option string) : bool :=
  match v with
  | Some s => negb (String.eqb s "")
  | None => false
  end.

Definition getClassForStyle (base : string) (lines : list string)
    (context : ExportContext) : string * ExportContext :=
  let signature := join LF lines in
  let existing := styleMap context !! signature in
  if truthy existing then (default "" existing, context)
  else
    let '(cls, context1) := getUniqueClassName base context in
    let context2 := setStyleMap (<[signature := cls]> (styleMap context1)) context1 in
    let suf := match matchDashDigitsEnd cls with
               | Some (_, ds) => digitsToNumber ds
               | None => 0
               end in
    (cls,
     setStyleEntries
       (styleEntries context2 ++
          [{| className := cls; baseName := base; suffix := suf;
              cssText := cssBlock cls lines |}])
       context2).

(** *** Runs of registry requests

    The walker reaches the registry through three entry points.  A run is
    the sequence of requests one conversion makes, in order. *)
Inductive RegistryCall :=
  | CallStyle (base : string) (lines : list string)
  | CallUnique (base : string)
  | CallUtility (cls : string) (lines : list string).

Definition runCall (c : RegistryCall) (context : ExportContext)
  : option string * ExportContext :=
  match c with
  | CallStyle base lines =>
      let '(cls, context1) := getClassForStyle base lines context in
      (Some cls, context1)
  | CallUnique base =>
      let '(cls, context1) := getUniqueClassName base context in
      (Some cls, context1)
  | CallUtility cls lines => (None, registerUtilityClass cls lines context)
  end.

Fixpoint runCalls (cs : list RegistryCall) (context : ExportContext)
  : list (option string) * ExportContext :=
  match cs with
  | [] => ([], context)
  | c :: rest =>
      let '(r, context1) := runCall c context in
      let '(rs, context2) := runCalls rest context1 in
      (r :: rs, context2)
  end.

(** [n] successive calls of the unique-name generator with one base. *)
Definition uniqueNames (n : nat) (base : string) (context : ExportContext)
  : list string :=
  omap id (fst (runCalls (replicate n (CallUnique base)) context)).

(** Base names and signatures requested in a run. *)
Definition styleBases (cs : list RegistryCall) : list string :=
  omap (fun c => match c with CallStyle b _ => Some b | _ => None end) cs.

Definition signatures (cs : list RegistryCall) : gset string :=
  list_to_set
    (omap (fun c => match c with CallStyle _ l => Some (join LF l) | _ => None end) cs).

Definition utilityNames (cs : list RegistryCall) : gset string :=
  list_to_set
    (omap (fun c => match c with CallUtility k _ => Some k | _ => None end) cs).

(** No base name of the list is another one followed by a hyphen and a
    number: the names [b], [b-2], [b-3], ... of different bases are then
    disjoint. *)
Definition NoSuffixClash (bases : list string) : Prop :=
  ∀ b b' (n : Z), b ∈ bases → b' ∈ bases → 2 ≤ n →
    b' ≠ b +:+ "-" +:+ pretty n.

(** Invariants of the registry during a run over the base names [bases]. *)
Definition MintedNames (bases : list string) (context : ExportContext) : Prop :=
  ∀ sig c, styleMap context !! sig = Some c →
    ∃ b (n : Z), b ∈ bases
      ∧ 1 ≤ n ≤ default 0 (nameCounts context !! b)
      ∧ c = (if decide (n = 1) then b else b +:+ "-" +:+ pretty n).

Definition CountsPositive (context : ExportContext) : Prop :=
  ∀ b (v : Z), nameCounts context !! b = Some v → 1 ≤ v.

Definition StyleMapInjective (context : ExportContext) : Prop :=
  ∀ s1 s2 c, styleMap context !! s1 = Some c →
    styleMap context !! s2 = Some c → s1 = s2.

Definition EntriesAccounted (context : ExportContext) : Prop :=
  length (styleEntries context)
  = (size (styleMap context) + size (utilityClasses context))%nat.

(** The naming clauses of the interning property as the specification words
    them: over the style requests of a run, equal declaration lists get
    equal class names and different lists get different class names. *)
Definition ClassNamesAsStated (cs : list RegistryCall) : Prop :=
  ∀ (i j : nat) b1 l1 b2 l2 c1 c2,
    cs !! i = Some (CallStyle b1 l1) → cs !! j = Some (CallStyle b2 l2) →
    fst (runCalls cs newContext) !! i = Some (Some c1) →
    fst (runCalls cs newContext) !! j = Some (Some c2) →
    (l1 = l2 → c1 = c2) ∧ (l1 ≠ l2 → c1 ≠ c2).

(** ** Sorting

    [Array.prototype.sort] with a comparison function is stable: elements
    that compare as equal keep their order.  For a consistent comparison
    function every stable sort returns the same array; it is modelled by
    insertion from the right. *)
Fixpoint insertBy {A} (cmp : A → A → Z) (x : A) (l : list A) : list A :=
  match l with
  | [] => [x]
  | y :: rest =>
      if decide (cmp x y ≤ 0) then x :: y :: rest
      else y :: insertBy cmp x rest
  end.

Definition sortBy {A} (cmp : A → A → Z) (l : list A) : list A :=
  foldr (insertBy cmp) [] l.

(** ** A concrete host for examples

    Stand-ins for the functions of the JavaScript runtime that the embedding
    takes as parameters, exact on the inputs of the examples. *)

(** Comparison of strings by code units. *)
Definition codeUnitCompare (a b : string) : Z :=
  match String.compare a b with
  | Lt => -1
  | Eq => 0
  | Gt => 1
  end.

(** ** Character classes and trimming *)

(** White space in the ASCII range, as [String.prototype.trim] and the
    class [\s] take it. *)
Definition isSpace (c : ascii) : bool :=
  let n := N_of_ascii c in (((9 <=? n) && (n <=? 13)) || (n =? 32))%N.

Definition isLower (c : ascii) : bool :=
  let n := N_of_ascii c in ((97 <=? n) && (n <=? 122))%N.
Definition isUpper (c : ascii) : bool :=
  let n := N_of_ascii c in ((65 <=? n) && (n <=? 90))%N.

Fixpoint dropWhile {A} (p : A → bool) (l : list A) : list A :=
  match l with
  | [] => []
  | x :: rest => if p x then dropWhile p rest else l
  end.

Definition dropWhileEnd {A} (p : A → bool) (l : list A) : list A :=
  rev (dropWhile p (rev l)).

(** [String.prototype.trim], on the ASCII range. *)
Definition trim (s : string) : string :=
  unchars (dropWhileEnd isSpace (dropWhile isSpace (chars s))).

(** [s.replace(/\s+/g, '-')]: every maximal run of white space becomes one
    hyphen.  [inRun] tells that the previous character was white space. *)
Fixpoint collapseSpaces (inRun : bool) (l : list ascii) : list ascii :=
  match l with
  | [] => []
  | c :: rest =>
      if isSpace c then
        if inRun then collapseSpaces true rest
        else "-"%char :: collapseSpaces true rest
      else c :: collapseSpaces false rest
  end.

(** The class [[a-z0-9-_ ]]. *)
Definition isNameChar (c : ascii) : bool :=
  isLower c || isDigit c || Ascii.eqb c "-" || Ascii.eqb c "_" || Ascii.eqb c " ".

Definition isHyphen (c : ascii) : bool := Ascii.eqb c "-".

(** ** Text escaping *)

Definition DQUOTE : ascii := "034"%char.

Definition escapeHtmlChar (c : ascii) : string :=
  if Ascii.eqb c "&" then "&amp;"
  else if Ascii.eqb c "<" then "&lt;"
  else if Ascii.eqb c ">" then "&gt;"
  else if Ascii.eqb c DQUOTE then "&quot;"
  else if Ascii.eqb c "'" then "&#39;"
  else String c "".

(** [text.replace(re, match => table[match])] with [re] the global class of
    the ampersand, the angle brackets, the double quote and the apostrophe. *)
Fixpoint escapeHtml (text : string) : string :=
  match text with
  | "" => ""
  | String c rest => escapeHtmlChar c +:+ escapeHtml rest
  end.

Definition escapeJsxChar (c : ascii) : string :=
  if Ascii.eqb c "&" then "&amp;"
  else if Ascii.eqb c "<" then "&lt;"
  else if Ascii.eqb c ">" then "&gt;"
  else if Ascii.eqb c "{" then "&#123;"
  else if Ascii.eqb c "}" then "&#125;"
  else String c "".

(** The same with the class of the ampersand, the angle brackets and the
    braces. *)
Fixpoint escapeJsxText (text : string) : string :=
  match text with
  | "" => ""
  | String c rest => escapeJsxChar c +:+ escapeJsxText rest
  end.

(** An escaper reserves a character when it rewrites it. *)
Definition reserves (escape : string → string) (c : ascii) : Prop :=
  escape (String c "") ≠ String c "".

(** The specification's reading of the two dialects. *)
Definition EscapersAsStated : Prop :=
  (∀ c, c ∈ ["&"; "<"; ">"; DQUOTE; "'"]%char → reserves escapeHtml c)
  ∧ (∀ c, c ∈ ["&"; "<"; ">"; DQUOTE; "'"; "{"; "}"]%char →
       reserves escapeJsxText c).

(** ASCII lower-casing. *)
Definition asciiLowerChar (c : ascii) : ascii :=
  if isUpper c then ascii_of_N (N_of_ascii c + 32) else c.
Definition asciiToLowerCase (s : string) : string :=
  unchars (map asciiLowerChar (chars s)).

(** ** More string operations of the runtime *)

Definition DQ : string := String DQUOTE "".
Definition BACKSLASH : string := String "092"%char "".

(** [s.indexOf(c)] for a one-character [c]; [-1] when absent. *)
Fixpoint indexOfCharFrom (i : Z) (c : ascii) (s : string) : Z :=
  match s with
  | "" => -1
  | String d rest => if Ascii.eqb d c then i else indexOfCharFrom (i + 1) c rest
  end.
Definition indexOfChar (c : ascii) (s : string) : Z := indexOfCharFrom 0 c s.

(** [s.substring(from, to)] and [s.substring(from)] for indices in range. *)
Definition substring (from to : Z) (s : string) : string :=
  String.substring (Z.to_nat from) (Z.to_nat (to - from)) s.
Definition substringFrom (from : Z) (s : string) : string :=
  String.substring (Z.to_nat from) (String.length s - Z.to_nat from) s.

Definition startsWith (pre s : string) : bool := String.prefix pre s.

(** [s.includes(pat)]. *)
Fixpoint includes (pat s : string) : bool :=
  String.prefix pat s
  || match s with
     | "" => false
     | String _ rest => includes pat rest
     end.

(** [s.repeat(n)]. *)
Fixpoint repeatString (s : string) (n : nat) : string :=
  match n with
  | O => ""
  | S k => s +:+ repeatString s k
  end.
Definition spaces2 (n : Z) : string := repeatString "  " (Z.to_nat n).

(** [s.replace(re, rep)] for a global pattern that is the non-empty text
    [pat]: every occurrence, left to right.  [skip] counts the characters of
    a match still to be passed. *)
Fixpoint replaceAllFrom (skip : nat) (pat rep s : string) : string :=
  match s with
  | "" => ""
  | String c rest =>
      match skip with
      | S k => replaceAllFrom k pat rep rest
      | O =>
          if String.prefix pat s
          then rep +:+ replaceAllFrom (String.length pat - 1) pat rep rest
          else String c (replaceAllFrom 0 pat rep rest)
      end
  end.
Definition replaceAll (pat rep s : string) : string := replaceAllFrom 0 pat rep s.

(** [s.replace(pat, rep)] for a text pattern: the first occurrence only. *)
Fixpoint replaceFirst (pat rep s : string) : string :=
  if String.prefix pat s
  then rep +:+ String.substring (String.length pat)
                 (String.length s - String.length pat) s
  else match s with
       | "" => ""
       | String c rest => String c (replaceFirst pat rep rest)
       end.

(** [s.split(sep)] for a one-character separator. *)
Fixpoint splitOnChar (sep : ascii) (cur : list ascii) (s : string) : list string :=
  match s with
  | "" => [unchars (rev cur)]
  | String c rest =>
      if Ascii.eqb c sep then unchars (rev cur) :: splitOnChar sep [] rest
      else splitOnChar sep (c :: cur) rest
  end.
Definition split (sep : ascii) (s : string) : list string := splitOnChar sep [] s.

(** [s.replace(/\s+$/, '')]. *)
Definition trimEnd (s : string) : string :=
  unchars (dropWhileEnd isSpace (chars s)).

Definition isAlnum (c : ascii) : bool := isLower c || isUpper c || isDigit c.

Definition asciiUpperChar (c : ascii) : ascii :=
  if isLower c then ascii_of_N (N_of_ascii c - 32) else c.

(** [name.trim().split(/[^a-zA-Z0-9]+/).filter(Boolean)]: the maximal runs
    of ASCII letters and digits. *)
Fixpoint alnumRuns (cur : list ascii) (l : list ascii) : list (list ascii) :=
  match l with
  | [] => match cur with [] => [] | _ => [rev cur] end
  | c :: rest =>
      if isAlnum c then alnumRuns (c :: cur) rest
      else match cur with
           | [] => alnumRuns [] rest
           | _ => rev cur :: alnumRuns [] rest
           end
  end.

(** PascalCase class name from a layer name; the parts hold ASCII letters
    and digits only, on which the case mappings are the ASCII ones. *)
Definition toPascalCase (name : string) : string :=
  let parts := alnumRuns [] (chars name) in
  unchars
    (concat
       (map (fun p => match p with
                      | [] => []
                      | c :: rest => asciiUpperChar c :: map asciiLowerChar rest
                      end) parts)).

(** [prop.replace(/-([a-z])/g, (_, c) => c.toUpperCase())]. *)
Fixpoint cssPropToCamelChars (l : list ascii) : list ascii :=
  match l with
  | [] => []
  | c :: rest =>
      match rest with
      | d :: rest' =>
          if Ascii.eqb c "-" && isLower d
          then asciiUpperChar d :: cssPropToCamelChars rest'
          else c :: cssPropToCamelChars rest
      | [] => [c]
      end
  end.
Definition cssPropToCamel (prop : string) : string :=
  unchars (cssPropToCamelChars (chars prop)).

(** ** Attributes *)

Inductive OutputFormat := html | react.

Definition isReactFormat (f : OutputFormat) : bool :=
  match f with react => true | html => false end.

Definition getClassAttr (classes : list string) (format : OutputFormat) : string :=
  let joined :=
    trim (join " " (filter (fun c => c ≠ "") classes)) in
  if String.eqb joined "" then ""
  else
    let attr :=
      if isReactFormat format then "className=" +:+ DQ +:+ joined +:+ DQ
      else "class=" +:+ DQ +:+ joined +:+ DQ in
    attr +:+ " ".

(** A [Map] from strings, in insertion order: [set] on a present key keeps
    its place. *)
Fixpoint mapSet (k v : string) (m : list (string * string)) : list (string * string) :=
  match m with
  | [] => [(k, v)]
  | (k', v') :: rest =>
      if String.eqb k' k then (k', v) :: rest else (k', v') :: mapSet k v rest
  end.

Definition buildInlineStyle (styles : list string) : string :=
  match styles with
  | [] => ""
  | _ =>
      let seen :=
        fold_left
          (fun seen s =>
             let colon := indexOfChar ":" s in
             if decide (0 < colon) then
               let prop := trim (substring 0 colon s) in
               mapSet prop (trim s) seen
             else seen)
          styles [] in
      let deduped := map snd seen in
      "style=" +:+ DQ +:+ join "; " deduped +:+ DQ
  end.

Definition buildReactStyleAttr (styles : list string) : string :=
  match styles with
  | [] => ""
  | _ =>
      let seen :=
        fold_left
          (fun seen s =>
             let colon := indexOfChar ":" s in
             if decide (0 < colon) then
               let prop := trim (substring 0 colon s) in
               let value := trim (substringFrom (colon + 1) s) in
               mapSet prop value seen
             else seen)
          styles [] in
      let entries :=
        join ", "
          (map (fun '(k, v) =>
                  cssPropToCamel k +:+ ": '"
                    +:+ replaceAll "'" (BACKSLASH +:+ "'") v +:+ "'")
               seen) in
      if String.eqb entries "" then ""
      else " style={{ " +:+ entries +:+ " }}"
  end.

Definition getStyleAttr (styles : list string) (format : OutputFormat) : string :=
  if isReactFormat format then buildReactStyleAttr styles
  else buildInlineStyle styles.

Definition getDataLayerAttr (name : string) (format : OutputFormat) : string :=
  let escaped := replaceAll DQ "&quot;" name in
  "data-layer=" +:+ DQ +:+ escaped +:+ DQ +:+ " ".

(** ** Numbers *)

Definition Math_round (x : Q) : Q := inject_Z (Qfloor (x + (1 # 2))).
Definition Math_abs (x : Q) : Q := Qabs x.

Definition roundPx (n : Q) : Q := Math_round (n * 100) / 100.
(** Higher precision for rotated shapes. *)
Definition roundPx4 (n : Q) : Q := Math_round (n * 10000) / 10000.
Definition roundDim (n : Q) : Q := Math_round n.

Definition Qltb (a b : Q) : bool := negb (Qle_bool b a).
Definition Qeqb (a b : Q) : bool := Qeq_bool a b.

(** [r >= 0.01] in absolute value. *)
Definition isMeaningfulRotation (r : Q) : bool := Qle_bool (1 # 100) (Math_abs r).
Definition cssRotationDeg (rotation : Q) : Q := roundPx (- rotation).

(** ** The scene graph

    The fields of the plugin API's nodes that the exporter reads.  Fields
    whose values are string literals in the API are strings here; a field
    that may be absent is an [option]; a field that may hold [figma.mixed]
    is a [Mixed]. *)

Inductive Mixed (A : Type) :=
  | IsMixed
  | Val (a : A).
Arguments IsMixed {A}.
Arguments Val {A} a.

Record RGBA := mkRGBA {
  red : Q; green : Q; blue : Q;
  alpha : option Q;        (* absent on an RGB colour *)
}.

Record ColorStop := mkColorStop {
  position : Q;
  stopColor : RGBA;
}.

(** A 2x3 affine transform [[a, b, tx], [c, d, ty]], by rows. *)
Definition Transform : Type := (Q * Q * Q) * (Q * Q * Q).

Record Paint := mkPaint {
  paintType : string;
  paintVisible : option bool;
  paintOpacity : option Q;
  paintColor : RGBA;                 (* of a solid paint *)
  gradientTransform : Transform;     (* of a gradient paint *)
  gradientStops : list ColorStop;
}.

Record Effect := mkEffect {
  effectType : string;
  effectVisible : option bool;
  effectColor : RGBA;
  offsetX : Q; offsetY : Q;
  radius : Q;
  spread : option Q;
}.

Record Rect := mkRect { rectX : Q; rectY : Q; rectWidth : Q; rectHeight : Q }.

Record FontName := mkFontName { family : string; style : string }.
Record UnitValue := mkUnitValue { unit : string; value : Q }.
Record Constraints := mkConstraints { horizontal : string; vertical : string }.

Record NodeProps := mkNodeProps {
  id : string;
  name : string;
  type : string;
  visible : bool;
  isMask : bool;
  maskType : option string;
  x : Q; y : Q; width : Q; height : Q;
  rotation : Q;
  opacity : Q;
  absoluteBoundingBox : option Rect;
  (* auto layout *)
  layoutMode : string;
  layoutWrap : string;
  counterAxisAlignContent : string;
  counterAxisSpacing : option Q;
  itemSpacing : Q;
  paddingTop : Q; paddingRight : Q; paddingBottom : Q; paddingLeft : Q;
  primaryAxisAlignItems : string;
  counterAxisAlignItems : string;
  primaryAxisSizingMode : string;
  counterAxisSizingMode : string;
  itemReverseZIndex : bool;
  clipsContent : bool;
  gridRowCount : option Q;
  gridColumnCount : option Q;
  (* as a child *)
  layoutPositioning : option string;
  constraints : option Constraints;
  layoutSizingHorizontal : option string;
  layoutSizingVertical : option string;
  layoutGrow : option Q;
  layoutAlign : option string;
  (* geometry and paint *)
  cornerRadius : option (Mixed Q);
  topLeftRadius : option Q; topRightRadius : option Q;
  bottomRightRadius : option Q; bottomLeftRadius : option Q;
  fills : option (Mixed (list Paint));
  strokes : option (list Paint);
  strokeWeight : option (Mixed Q);
  strokeAlign : option string;
  effects : option (list Effect);
  blendMode : option string;
  (* text *)
  characters : string;
  fontSize : Mixed Q;
  fontName : Mixed FontName;
  lineHeight : Mixed UnitValue;
  letterSpacing : Mixed UnitValue;
  textAlignHorizontal : string;
  textCase : Mixed string;
  textDecoration : Mixed string;
  textAutoResize : string;
  paragraphSpacing : Q;
}.

Inductive SceneNode :=
  | Node (props : NodeProps) (children : list SceneNode).

Definition props (n : SceneNode) : NodeProps :=
  match n with Node p _ => p end.
Definition children (n : SceneNode) : list SceneNode :=
  match n with Node _ cs => cs end.

(** Nodes are objects; two references are the same node when the ids are
    equal.  [children.indexOf(node)], with [-1] when absent. *)
Fixpoint indexOfFrom (i : Z) (nodeId : string) (l : list SceneNode) : Z :=
  match l with
  | [] => -1
  | c :: rest =>
      if String.eqb (id (props c)) nodeId then i
      else indexOfFrom (i + 1) nodeId rest
  end.
Definition indexOf (l : list SceneNode) (n : SceneNode) : Z :=
  indexOfFrom 0 (id (props n)) l.

Definition isMaskNode (n : SceneNode) : bool := isMask (props n).
Definition getMaskType (n : SceneNode) : option string := maskType (props n).

Definition isVectorNode (n : SceneNode) : bool :=
  let t := type (props n) in
  String.eqb t "VECTOR" || String.eqb t "LINE" || String.eqb t "ELLIPSE"
  || String.eqb t "POLYGON" || String.eqb t "STAR"
  || String.eqb t "BOOLEAN_OPERATION".

Definition mapPrimaryAxis (val : string) : string :=
  if String.eqb val "MIN" then "flex-start"
  else if String.eqb val "MAX" then "flex-end"
  else if String.eqb val "CENTER" then "center"
  else if String.eqb val "SPACE_BETWEEN" then "space-between"
  else "flex-start".

Definition mapCounterAxis (val : string) : string :=
  if String.eqb val "MIN" then "flex-start"
  else if String.eqb val "MAX" then "flex-end"
  else if String.eqb val "CENTER" then "center"
  else if String.eqb val "BASELINE" then "baseline"
  else "stretch".

(** Decimal notation of a number with a finite decimal expansion (what
    JavaScript prints for it when it has at most 17 significant digits);
    other fractions are cut after 17 digits. *)
Fixpoint fractionDigits (fuel : nat) (r d : Z) : string :=
  match fuel with
  | O => ""
  | S fuel' =>
      if decide (r = 0) then ""
      else pretty (r * 10 / d) +:+ fractionDigits fuel' (r * 10 mod d) d
  end.

Definition showNumber (q : Q) : string :=
  let n := Z.abs (Qnum q) in
  let d := Zpos (Qden q) in
  (if decide (Qnum q < 0) then "-" else "")
  +:+ pretty (n / d)
  +:+ (if decide (n mod d = 0) then ""
       else "." +:+ fractionDigits 17 (n mod d) d).

Definition noColor : RGBA := {| red := 0; green := 0; blue := 0; alpha := None |}.
Definition identityTransform : Transform := ((1, 0, 0), (0, 1, 0))%Q.

(** A node for the examples: visible, opaque, unrotated, without paints,
    strokes or effects; the arguments are the fields the examples vary. *)
Definition exampleProps (id name type : string) (x y width height : Q)
    (isMask : bool) (layoutMode : string)
    (layoutPositioning : option string) (constraints : option Constraints)
  : NodeProps :=
  {| id := id; name := name; type := type;
     visible := true; isMask := isMask; maskType := None;
     x := x; y := y; width := width; height := height;
     rotation := 0; opacity := 1;
     absoluteBoundingBox := None;
     layoutMode := layoutMode; layoutWrap := "NO_WRAP";
     counterAxisAlignContent := "AUTO"; counterAxisSpacing := None;
     itemSpacing := 0;
     paddingTop := 0; paddingRight := 0; paddingBottom := 0; paddingLeft := 0;
     primaryAxisAlignItems := "MIN"; counterAxisAlignItems := "MIN";
     primaryAxisSizingMode := "AUTO"; counterAxisSizingMode := "AUTO";
     itemReverseZIndex := false; clipsContent := false;
     gridRowCount := None; gridColumnCount := None;
     layoutPositioning := layoutPositioning; constraints := constraints;
     layoutSizingHorizontal := None; layoutSizingVertical := None;
     layoutGrow := None; layoutAlign := None;
     cornerRadius := None;
     topLeftRadius := None; topRightRadius := None;
     bottomRightRadius := None; bottomLeftRadius := None;
     fills := None; strokes := None; strokeWeight := None; strokeAlign := None;
     effects := None; blendMode := None;
     characters := ""; fontSize := IsMixed; fontName := IsMixed;
     lineHeight := IsMixed; letterSpacing := IsMixed;
     textAlignHorizontal := "LEFT"; textCase := IsMixed;
     textDecoration := IsMixed; textAutoResize := "NONE";
     paragraphSpacing := 0 |}.

(** Field updates for the example nodes. *)
Definition withVisible (v : bool) (p : NodeProps) : NodeProps :=
  mkNodeProps
    (id p) (name p) (type p) v (isMask p) (maskType p) (x p) (y p) (width p)
    (height p) (rotation p) (opacity p) (absoluteBoundingBox p) (layoutMode
    p) (layoutWrap p) (counterAxisAlignContent p) (counterAxisSpacing p)
    (itemSpacing p) (paddingTop p) (paddingRight p) (paddingBottom p)
    (paddingLeft p) (primaryAxisAlignItems p) (counterAxisAlignItems p)
    (primaryAxisSizingMode p) (counterAxisSizingMode p) (itemReverseZIndex
    p) (clipsContent p) (gridRowCount p) (gridColumnCount p)
    (layoutPositioning p) (constraints p) (layoutSizingHorizontal p)
    (layoutSizingVertical p) (layoutGrow p) (layoutAlign p) (cornerRadius p)
    (topLeftRadius p) (topRightRadius p) (bottomRightRadius p)
    (bottomLeftRadius p) (fills p) (strokes p) (strokeWeight p) (strokeAlign
    p) (effects p) (blendMode p) (characters p) (fontSize p) (fontName p)
    (lineHeight p) (letterSpacing p) (textAlignHorizontal p) (textCase p)
    (textDecoration p) (textAutoResize p) (paragraphSpacing p).
Definition withItemSpacing (v : Q) (p : NodeProps) : NodeProps :=
  mkNodeProps
    (id p) (name p) (type p) (visible p) (isMask p) (maskType p) (x p) (y p)
    (width p) (height p) (rotation p) (opacity p) (absoluteBoundingBox p)
    (layoutMode p) (layoutWrap p) (counterAxisAlignContent p)
    (counterAxisSpacing p) v (paddingTop p) (paddingRight p) (paddingBottom
    p) (paddingLeft p) (primaryAxisAlignItems p) (counterAxisAlignItems p)
    (primaryAxisSizingMode p) (counterAxisSizingMode p) (itemReverseZIndex
    p) (clipsContent p) (gridRowCount p) (gridColumnCount p)
    (layoutPositioning p) (constraints p) (layoutSizingHorizontal p)
    (layoutSizingVertical p) (layoutGrow p) (layoutAlign p) (cornerRadius p)
    (topLeftRadius p) (topRightRadius p) (bottomRightRadius p)
    (bottomLeftRadius p) (fills p) (strokes p) (strokeWeight p) (strokeAlign
    p) (effects p) (blendMode p) (characters p) (fontSize p) (fontName p)
    (lineHeight p) (letterSpacing p) (textAlignHorizontal p) (textCase p)
    (textDecoration p) (textAutoResize p) (paragraphSpacing p).
Definition withPadding (v : Q) (p : NodeProps) : NodeProps :=
  mkNodeProps
    (id p) (name p) (type p) (visible p) (isMask p) (maskType p) (x p) (y p)
    (width p) (height p) (rotation p) (opacity p) (absoluteBoundingBox p)
    (layoutMode p) (layoutWrap p) (counterAxisAlignContent p)
    (counterAxisSpacing p) (itemSpacing p) v v v v (primaryAxisAlignItems p)
    (counterAxisAlignItems p) (primaryAxisSizingMode p)
    (counterAxisSizingMode p) (itemReverseZIndex p) (clipsContent p)
    (gridRowCount p) (gridColumnCount p) (layoutPositioning p) (constraints
    p) (layoutSizingHorizontal p) (layoutSizingVertical p) (layoutGrow p)
    (layoutAlign p) (cornerRadius p) (topLeftRadius p) (topRightRadius p)
    (bottomRightRadius p) (bottomLeftRadius p) (fills p) (strokes p)
    (strokeWeight p) (strokeAlign p) (effects p) (blendMode p) (characters
    p) (fontSize p) (fontName p) (lineHeight p) (letterSpacing p)
    (textAlignHorizontal p) (textCase p) (textDecoration p) (textAutoResize
    p) (paragraphSpacing p).
Definition withPrimaryAxisAlignItems (v : string) (p : NodeProps) : NodeProps :=
  mkNodeProps
    (id p) (name p) (type p) (visible p) (isMask p) (maskType p) (x p) (y p)
    (width p) (height p) (rotation p) (opacity p) (absoluteBoundingBox p)
    (layoutMode p) (layoutWrap p) (counterAxisAlignContent p)
    (counterAxisSpacing p) (itemSpacing p) (paddingTop p) (paddingRight p)
    (paddingBottom p) (paddingLeft p) v (counterAxisAlignItems p)
    (primaryAxisSizingMode p) (counterAxisSizingMode p) (itemReverseZIndex
    p) (clipsContent p) (gridRowCount p) (gridColumnCount p)
    (layoutPositioning p) (constraints p) (layoutSizingHorizontal p)
    (layoutSizingVertical p) (layoutGrow p) (layoutAlign p) (cornerRadius p)
    (topLeftRadius p) (topRightRadius p) (bottomRightRadius p)
    (bottomLeftRadius p) (fills p) (strokes p) (strokeWeight p) (strokeAlign
    p) (effects p) (blendMode p) (characters p) (fontSize p) (fontName p)
    (lineHeight p) (letterSpacing p) (textAlignHorizontal p) (textCase p)
    (textDecoration p) (textAutoResize p) (paragraphSpacing p).
Definition withCounterAxisAlignItems (v : string) (p : NodeProps) : NodeProps :=
  mkNodeProps
    (id p) (name p) (type p) (visible p) (isMask p) (maskType p) (x p) (y p)
    (width p) (height p) (rotation p) (opacity p) (absoluteBoundingBox p)
    (layoutMode p) (layoutWrap p) (counterAxisAlignContent p)
    (counterAxisSpacing p) (itemSpacing p) (paddingTop p) (paddingRight p)
    (paddingBottom p) (paddingLeft p) (primaryAxisAlignItems p) v
    (primaryAxisSizingMode p) (counterAxisSizingMode p) (itemReverseZIndex
    p) (clipsContent p) (gridRowCount p) (gridColumnCount p)
    (layoutPositioning p) (constraints p) (layoutSizingHorizontal p)
    (layoutSizingVertical p) (layoutGrow p) (layoutAlign p) (cornerRadius p)
    (topLeftRadius p) (topRightRadius p) (bottomRightRadius p)
    (bottomLeftRadius p) (fills p) (strokes p) (strokeWeight p) (strokeAlign
    p) (effects p) (blendMode p) (characters p) (fontSize p) (fontName p)
    (lineHeight p) (letterSpacing p) (textAlignHorizontal p) (textCase p)
    (textDecoration p) (textAutoResize p) (paragraphSpacing p).
Definition withCharacters (v : string) (p : NodeProps) : NodeProps :=
  mkNodeProps
    (id p) (name p) (type p) (visible p) (isMask p) (maskType p) (x p) (y p)
    (width p) (height p) (rotation p) (opacity p) (absoluteBoundingBox p)
    (layoutMode p) (layoutWrap p) (counterAxisAlignContent p)
    (counterAxisSpacing p) (itemSpacing p) (paddingTop p) (paddingRight p)
    (paddingBottom p) (paddingLeft p) (primaryAxisAlignItems p)
    (counterAxisAlignItems p) (primaryAxisSizingMode p)
    (counterAxisSizingMode p) (itemReverseZIndex p) (clipsContent p)
    (gridRowCount p) (gridColumnCount p) (layoutPositioning p) (constraints
    p) (layoutSizingHorizontal p) (layoutSizingVertical p) (layoutGrow p)
    (layoutAlign p) (cornerRadius p) (topLeftRadius p) (topRightRadius p)
    (bottomRightRadius p) (bottomLeftRadius p) (fills p) (strokes p)
    (strokeWeight p) (strokeAlign p) (effects p) (blendMode p) v (fontSize
    p) (fontName p) (lineHeight p) (letterSpacing p) (textAlignHorizontal p)
    (textCase p) (textDecoration p) (textAutoResize p) (paragraphSpacing p).
Definition withFontSize (v : Mixed Q) (p : NodeProps) : NodeProps :=
  mkNodeProps
    (id p) (name p) (type p) (visible p) (isMask p) (maskType p) (x p) (y p)
    (width p) (height p) (rotation p) (opacity p) (absoluteBoundingBox p)
    (layoutMode p) (layoutWrap p) (counterAxisAlignContent p)
    (counterAxisSpacing p) (itemSpacing p) (paddingTop p) (paddingRight p)
    (paddingBottom p) (paddingLeft p) (primaryAxisAlignItems p)
    (counterAxisAlignItems p) (primaryAxisSizingMode p)
    (counterAxisSizingMode p) (itemReverseZIndex p) (clipsContent p)
    (gridRowCount p) (gridColumnCount p) (layoutPositioning p) (constraints
    p) (layoutSizingHorizontal p) (layoutSizingVertical p) (layoutGrow p)
    (layoutAlign p) (cornerRadius p) (topLeftRadius p) (topRightRadius p)
    (bottomRightRadius p) (bottomLeftRadius p) (fills p) (strokes p)
    (strokeWeight p) (strokeAlign p) (effects p) (blendMode p) (characters
    p) v (fontName p) (lineHeight p) (letterSpacing p) (textAlignHorizontal
    p) (textCase p) (textDecoration p) (textAutoResize p) (paragraphSpacing
    p).
Definition withFills (v : option (Mixed (list Paint))) (p : NodeProps) : NodeProps :=
  mkNodeProps
    (id p) (name p) (type p) (visible p) (isMask p) (maskType p) (x p) (y p)
    (width p) (height p) (rotation p) (opacity p) (absoluteBoundingBox p)
    (layoutMode p) (layoutWrap p) (counterAxisAlignContent p)
    (counterAxisSpacing p) (itemSpacing p) (paddingTop p) (paddingRight p)
    (paddingBottom p) (paddingLeft p) (primaryAxisAlignItems p)
    (counterAxisAlignItems p) (primaryAxisSizingMode p)
    (counterAxisSizingMode p) (itemReverseZIndex p) (clipsContent p)
    (gridRowCount p) (gridColumnCount p) (layoutPositioning p) (constraints
    p) (layoutSizingHorizontal p) (layoutSizingVertical p) (layoutGrow p)
    (layoutAlign p) (cornerRadius p) (topLeftRadius p) (topRightRadius p)
    (bottomRightRadius p) (bottomLeftRadius p) v (strokes p) (strokeWeight
    p) (strokeAlign p) (effects p) (blendMode p) (characters p) (fontSize p)
    (fontName p) (lineHeight p) (letterSpacing p) (textAlignHorizontal p)
    (textCase p) (textDecoration p) (textAutoResize p) (paragraphSpacing p).
Definition withStrokes (v : option (list Paint)) (p : NodeProps) : NodeProps :=
  mkNodeProps
    (id p) (name p) (type p) (visible p) (isMask p) (maskType p) (x p) (y p)
    (width p) (height p) (rotation p) (opacity p) (absoluteBoundingBox p)
    (layoutMode p) (layoutWrap p) (counterAxisAlignContent p)
    (counterAxisSpacing p) (itemSpacing p) (paddingTop p) (paddingRight p)
    (paddingBottom p) (paddingLeft p) (primaryAxisAlignItems p)
    (counterAxisAlignItems p) (primaryAxisSizingMode p)
    (counterAxisSizingMode p) (itemReverseZIndex p) (clipsContent p)
    (gridRowCount p) (gridColumnCount p) (layoutPositioning p) (constraints
    p) (layoutSizingHorizontal p) (layoutSizingVertical p) (layoutGrow p)
    (layoutAlign p) (cornerRadius p) (topLeftRadius p) (topRightRadius p)
    (bottomRightRadius p) (bottomLeftRadius p) (fills p) v (strokeWeight p)
    (strokeAlign p) (effects p) (blendMode p) (characters p) (fontSize p)
    (fontName p) (lineHeight p) (letterSpacing p) (textAlignHorizontal p)
    (textCase p) (textDecoration p) (textAutoResize p) (paragraphSpacing p).
Definition withCornerRadius (v : option (Mixed Q)) (p : NodeProps) : NodeProps :=
  mkNodeProps
    (id p) (name p) (type p) (visible p) (isMask p) (maskType p) (x p) (y p)
    (width p) (height p) (rotation p) (opacity p) (absoluteBoundingBox p)
    (layoutMode p) (layoutWrap p) (counterAxisAlignContent p)
    (counterAxisSpacing p) (itemSpacing p) (paddingTop p) (paddingRight p)
    (paddingBottom p) (paddingLeft p) (primaryAxisAlignItems p)
    (counterAxisAlignItems p) (primaryAxisSizingMode p)
    (counterAxisSizingMode p) (itemReverseZIndex p) (clipsContent p)
    (gridRowCount p) (gridColumnCount p) (layoutPositioning p) (constraints
    p) (layoutSizingHorizontal p) (layoutSizingVertical p) (layoutGrow p)
    (layoutAlign p) v (topLeftRadius p) (topRightRadius p)
    (bottomRightRadius p) (bottomLeftRadius p) (fills p) (strokes p)
    (strokeWeight p) (strokeAlign p) (effects p) (blendMode p) (characters
    p) (fontSize p) (fontName p) (lineHeight p) (letterSpacing p)
    (textAlignHorizontal p) (textCase p) (textDecoration p) (textAutoResize
    p) (paragraphSpacing p).

(** The example of the specification for centre constraints: a 50x20 child
    at local (0,0) of a 200x100 auto-layout container, absolutely
    positioned, centred on both axes. *)
Definition centeredChild : SceneNode :=
  Node (exampleProps "1:2" "Badge" "RECTANGLE" 0 0 50 20 false "NONE"
          (Some "ABSOLUTE")
          (Some {| horizontal := "CENTER"; vertical := "CENTER" |}))
       [].
Definition centeringContainer : SceneNode :=
  Node (exampleProps "1:1" "Card" "FRAME" 0 0 200 100 false "HORIZONTAL"
          None None)
       [centeredChild].

(** ** Colours, paints, strokes and effects *)

(** [x.toString(16)] for an integer. *)
Definition toStringHex (z : Z) : string :=
  (if decide (z < 0) then "-" else "")
  +:+ HexadecimalString.NilZero.string_of_uint (N.to_hex_uint (Z.to_N (Z.abs z))).

(** [s.slice(-n)]: the last [n] characters. *)
Definition sliceLast (n : nat) (s : string) : string :=
  String.substring (String.length s - n) n s.

Definition asciiToUpperCase (s : string) : string :=
  unchars (map asciiUpperChar (chars s)).

Definition roundAlpha (a : Q) : Q := Math_round (a * 100) / 100.

(** The paint is not switched off: [visible !== false]. *)
Definition notHidden (v : option bool) : bool :=
  match v with Some false => false | _ => true end.

Definition isGradientType (t : string) : bool :=
  String.eqb t "GRADIENT_LINEAR" || String.eqb t "GRADIENT_RADIAL"
  || String.eqb t "GRADIENT_ANGULAR" || String.eqb t "GRADIENT_DIAMOND".

Definition hasImageFill (node : NodeProps) : bool :=
  match fills node with
  | Some (Val paints) =>
      existsb (fun p => String.eqb (paintType p) "IMAGE"
                        && notHidden (paintVisible p)) paints
  | _ => false
  end.

Definition hasInvisibleStrokesOnly (node : NodeProps) : bool :=
  match strokes node with
  | None | Some [] => false
  | Some ps =>
      let hasVisibleStroke :=
        existsb (fun p => notHidden (paintVisible p)
                          && Qltb 0 (default 1%Q (paintOpacity p))) ps in
      negb hasVisibleStroke
  end.

Definition getLayerBlurRadius (node : NodeProps) : Q :=
  match effects node with
  | None | Some [] => 0
  | Some es =>
      match List.find (fun e => String.eqb (effectType e) "LAYER_BLUR"
                                && notHidden (effectVisible e)) es with
      | Some blur => radius blur
      | None => 0
      end
  end.

Definition formatFontFamily (fontName : Mixed FontName) : string :=
  match fontName with
  | IsMixed => "inherit"
  | Val f => DQ +:+ family f +:+ DQ
  end.

Definition getTextAlignClass (align : string) : option string :=
  if String.eqb align "LEFT" then Some "text-left"
  else if String.eqb align "CENTER" then Some "text-center"
  else if String.eqb align "RIGHT" then Some "text-right"
  else if String.eqb align "JUSTIFIED" then Some "text-justify"
  else None.

Definition getTextCaseClass (textCase : Mixed string) : option string :=
  match textCase with
  | IsMixed => None
  | Val t =>
      if String.eqb t "UPPER" then Some "uppercase"
      else if String.eqb t "LOWER" then Some "lowercase"
      else if String.eqb t "TITLE" then Some "capitalize"
      else if String.eqb t "SMALL_CAPS" || String.eqb t "SMALL_CAPS_FORCED"
      then Some "small-caps"
      else None
  end.

Definition getTextDecorationClass (decoration : Mixed string) : option string :=
  match decoration with
  | IsMixed => None
  | Val d =>
      if String.eqb d "UNDERLINE" then Some "underline"
      else if String.eqb d "STRIKETHROUGH" then Some "line-through"
      else None
  end.

(** The table of [mapBlendMode], indexed by the mode. *)
Definition blendModeTable : list (string * string) :=
  [("PASS_THROUGH", "normal"); ("NORMAL", "normal"); ("DARKEN", "darken");
   ("MULTIPLY", "multiply"); ("LINEAR_BURN", "color-burn");
   ("COLOR_BURN", "color-burn"); ("LIGHTEN", "lighten"); ("SCREEN", "screen");
   ("LINEAR_DODGE", "color-dodge"); ("COLOR_DODGE", "color-dodge");
   ("OVERLAY", "overlay"); ("SOFT_LIGHT", "soft-light");
   ("HARD_LIGHT", "hard-light"); ("DIFFERENCE", "difference");
   ("EXCLUSION", "exclusion"); ("HUE", "hue"); ("SATURATION", "saturation");
   ("COLOR", "color"); ("LUMINOSITY", "luminosity")].

Definition mapBlendMode (mode : string) : option string :=
  snd <$> List.find (fun kv => String.eqb (fst kv) mode) blendModeTable.

(** [blend && blend !== 'normal']. *)
Definition blendStyles (node : NodeProps) : list string :=
  match blendMode node with
  | Some mode =>
      match mapBlendMode mode with
      | Some blend =>
          if negb (String.eqb blend "normal")
          then ["mix-blend-mode: " +:+ blend] else []
      | None => []
      end
  | None => []
  end.

(** ** Conversions: state and exceptions

    A conversion step reads and updates the export context and either
    returns a value or throws.  The context is a shared mutable object, so
    the updates made before a throw remain. *)

Inductive Thrown :=
  | ThrownError (message : string)   (* an [Error] object *)
  | ThrownValue.                     (* any other thrown value *)

Inductive Outcome (A : Type) :=
  | Returned (a : A)
  | Threw (e : Thrown).
Arguments Returned {A} a.
Arguments Threw {A} e.

Definition Conv (A : Type) : Type := ExportContext → Outcome A * ExportContext.

Definition ret {A} (a : A) : Conv A := fun context => (Returned a, context).

Definition bind {A B} (m : Conv A) (k : A → Conv B) : Conv B :=
  fun context =>
    match m context with
    | (Returned a, context1) => k a context1
    | (Threw e, context1) => (Threw e, context1)
    end.

Definition throw {A} (e : Thrown) : Conv A := fun context => (Threw e, context).

(** [try { body } catch { handler }]. *)
Definition tryCatch {A} (body : Conv A) (handler : Thrown → Conv A) : Conv A :=
  fun context =>
    match body context with
    | (Returned a, context1) => (Returned a, context1)
    | (Threw e, context1) => handler e context1
    end.

(** A step that cannot throw. *)
Definition liftState {A} (f : ExportContext → A * ExportContext) : Conv A :=
  fun context => let '(a, context1) := f context in (Returned a, context1).

Definition modify (f : ExportContext → ExportContext) : Conv Datatypes.unit :=
  fun context => (Returned tt, f context).

(** The result of a host call, awaited. *)
Definition await {A} (r : Outcome A) : Conv A := fun context => (r, context).

(** The notations [x ← m; k] and [m;; k] of stdpp. *)
Global Instance conv_ret : MRet Conv := @ret.
Global Instance conv_bind : MBind Conv := fun A B k m => bind m k.

(** A child as the loops over sibling lists see it: the node, and the
    recursive conversion of it, still waiting for the container its position
    is relative to and for its z-index. *)
Notation Run := (option SceneNode → Z → Conv string).

(** A loop that appends to the markup:
    [for (const a of l) html = await body(a, html)]. *)
Fixpoint forEach {A} (body : A → string → Conv string) (l : list A)
    (html : string) : Conv string :=
  match l with
  | [] => mret html
  | a :: rest => html ← body a html; forEach body rest html
  end.

(** [Set.prototype.add] on a set kept in insertion order. *)
Definition setAdd (v : string) (l : list string) : list string :=
  if bool_decide (v ∈ l) then l else l ++ [v].

(** A styled text segment, as [getStyledTextSegments(['fills'])] returns it. *)
Record TextSegment := mkTextSegment {
  segmentCharacters : string;
  segmentFills : list Paint;
}.

(** [/^(linear|radial|conic)-gradient\(/.test(s)]. *)
Definition isGradientCss (s : string) : bool :=
  startsWith "linear-gradient(" s || startsWith "radial-gradient(" s
  || startsWith "conic-gradient(" s.

(** [classes.filter] with a [seen] set: the first occurrence of each. *)
Fixpoint dedupe (seen : list string) (l : list string) : list string :=
  match l with
  | [] => []
  | c :: rest =>
      if bool_decide (c ∈ seen) then dedupe seen rest
      else c :: dedupe (c :: seen) rest
  end.

(** [while (k < n && !isMaskNode(nodes[k])) k++], on the nodes from [k]. *)
Fixpoint scanToMask (rest : list SceneNode) (k : nat) : nat :=
  match rest with
  | [] => k
  | c :: rest' => if isMaskNode c then k else scanToMask rest' (S k)
  end.

(** A conversion that returns a value, whatever the context it starts in. *)
Definition Returns {A} (m : Conv A) : Prop :=
  ∀ context, ∃ a context', m context = (Returned a, context').

(** The message the plugin reports for a thrown value:
    [error instanceof Error ? error.message : 'Export failed.']. *)
Definition errorMessage (error : Thrown) : string :=
  match error with
  | ThrownError message => message
  | ThrownValue => "Export failed."
  end.

(** A property of every node of a tree. *)
Fixpoint everyNode (P : SceneNode → bool) (node : SceneNode) : bool :=
  match node with
  | Node _ cs => P node && forallb (everyNode P) cs
  end.

(** ** Mask runs, as the specification words them

    The siblings of a list split at its masks: the siblings before the
    first mask, then each mask with its run, the contiguous siblings that
    follow it up to, and without, the next mask or the end of the list. *)
Fixpoint maskRuns {A} (isMask : A → bool) (l : list A)
  : list A * list (A * list A) :=
  match l with
  | [] => ([], [])
  | c :: rest =>
      let '(run, runs) := maskRuns isMask rest in
      if isMask c then ([], (c, run) :: runs) else (c :: run, runs)
  end.

(** The elements of a list with their indices, counted from [i]. *)
Fixpoint indexFrom {A} (i : nat) (l : list A) : list (nat * A) :=
  match l with
  | [] => []
  | a :: rest => (i, a) :: indexFrom (S i) rest
  end.

(** ** Trees and host calls for the examples *)

Definition leaf (id name type : string) (isMask : bool) : SceneNode :=
  Node (withCornerRadius (Some (Val 0%Q))
          (exampleProps id name type 0 0 10 10 isMask "NONE" None None))
       [].

(** The siblings [A(mask), B, C, D(mask), E] of the specification. *)
Definition siblingA : SceneNode := leaf "5:1" "A" "RECTANGLE" true.
Definition siblingB : SceneNode := leaf "5:2" "B" "RECTANGLE" false.
Definition siblingC : SceneNode := leaf "5:3" "C" "RECTANGLE" false.
Definition siblingD : SceneNode := leaf "5:4" "D" "ELLIPSE" true.
Definition siblingE : SceneNode := leaf "5:5" "E" "RECTANGLE" false.
Definition maskedGroup : SceneNode :=
  Node (exampleProps "5:0" "Masked" "GROUP" 0 0 10 10 false "NONE" None None)
       [siblingA; siblingB; siblingC; siblingD; siblingE].

(** A mask drawn as a vector, and the sibling under it. *)
Definition vectorMask : SceneNode := leaf "6:1" "Shape" "VECTOR" true.
Definition photo : SceneNode := leaf "6:2" "Photo" "RECTANGLE" false.
Definition photoGroup : SceneNode :=
  Node (exampleProps "6:0" "Avatar" "GROUP" 0 0 10 10 false "NONE" None None)
       [vectorMask; photo].

(** A conversion that only marks where, and under which mask, a node is
    emitted. *)
Definition marker (tag : string) : Run :=
  fun container z =>
    mret ("<" +:+ tag
            +:+ match container with
                | Some c => " under " +:+ name (props c) +:+ " at " +:+ pretty z
                | None => ""
                end
            +:+ ">").
Definition markers (l : list SceneNode) : list (SceneNode * Run) :=
  map (fun node => (node, marker (name (props node)))) l.

(** The frame of the end-to-end example: horizontal, item spacing 8,
    padding 16. *)
Definition spacedRow : NodeProps :=
  withPadding 16
    (withItemSpacing 8
       (exampleProps "1:1" "Card" "FRAME" 0 0 200 100 false "HORIZONTAL"
          None None)).

(** Three style entries, as two rectangles named [Card] and a frame leave
    them. *)
Definition gapEntry : StyleEntry :=
  {| className := "gap-8"; baseName := "gap"; suffix := 8;
     cssText := cssBlock "gap-8" ["  gap: 8px;"] |}.
Definition secondCardEntry : StyleEntry :=
  {| className := "Card-2"; baseName := "Card"; suffix := 2;
     cssText := cssBlock "Card-2" ["  border-radius: 8px;"] |}.
Definition cardEntry : StyleEntry :=
  {| className := "Card"; baseName := "Card"; suffix := 0;
     cssText := cssBlock "Card" ["  border-radius: 4px;"] |}.

(** A hidden frame with a child. *)
Definition hiddenFrame : SceneNode :=
  Node (withVisible false
          (exampleProps "2:1" "Hidden" "FRAME" 0 0 100 100 false "HORIZONTAL"
             None None))
       [Node (exampleProps "2:2" "Label" "TEXT" 0 0 20 10 false "NONE" None None) []].

(** An icon in a toolbar. *)
Definition icon : SceneNode := leaf "3:2" "Icon" "VECTOR" false.
Definition toolbar : SceneNode :=
  Node (exampleProps "3:1" "Toolbar" "FRAME" 0 0 100 40 false "HORIZONTAL"
          None None)
       [icon].

(** A title with mixed fills, in a group, in a frame. *)
Definition title : SceneNode :=
  Node (withFills (Some IsMixed)
          (withCharacters "Hi"
             (exampleProps "4:3" "Title" "TEXT" 0 0 20 10 false "NONE" None None)))
       [].
Definition header : SceneNode :=
  Node (exampleProps "4:1" "Header" "FRAME" 0 0 100 40 false "VERTICAL" None None)
       [Node (exampleProps "4:2" "Row" "GROUP" 0 0 100 40 false "NONE" None None)
             [title]].

(** Host calls that fail. *)
Definition failingExport (node : SceneNode) : Outcome (list ascii) :=
  Threw (ThrownError "export failed").
Definition failingSegments (node : SceneNode) : Outcome (list TextSegment) :=
  Threw ThrownValue.
(** Gradients do not occur in the examples. *)
Definition noGradient (t : Transform) : string := "".
Definition sameSvg (svgText prefix : string) : string := svgText.
Definition sameSize (svgText : string) (w h : Q) : string := svgText.

(** ** What a conversion does to the export context *)

(** The rule of a class with the declarations of a signature: the text
    [getClassForStyle] and [registerUtilityClass] store for a class. *)
Definition ruleText (cls signature : string) : string :=
  "." +:+ cls +:+ " {" +:+ LF +:+ signature +:+ LF +:+ "}" +:+ LF +:+ LF.

(** The context [c'] holds what [c] holds, and more: the style entries and
    the font families of [c] come first in those of [c'], the sets and the
    keys of the style map are included, the counters are not smaller. *)
Definition Grows (c c' : ExportContext) : Prop :=
  styleEntries c `prefix_of` styleEntries c'
  ∧ utilityClasses c ⊆ utilityClasses c'
  ∧ usedBaseClasses c ⊆ usedBaseClasses c'
  ∧ fontFamiliesUsed c `prefix_of` fontFamiliesUsed c'
  ∧ svgIdCounter c ≤ svgIdCounter c'
  ∧ dom (styleMap c) ⊆ dom (styleMap c')
  ∧ ∀ b, default 0 (nameCounts c !! b) ≤ default 0 (nameCounts c' !! b).

(** Every registered utility class, and the class of every interned
    signature, has its rule among the style entries. *)
Definition RegistryOk (c : ExportContext) : Prop :=
  (∀ k, k ∈ utilityClasses c →
     ∃ e lines, e ∈ styleEntries c ∧ className e = k
                ∧ cssText e = cssBlock k lines)
  ∧ (∀ sig cls, styleMap c !! sig = Some cls →
       ∃ e, e ∈ styleEntries c ∧ className e = cls
            ∧ cssText e = ruleText cls sig).

Definition Extends (c c' : ExportContext) : Prop :=
  Grows c c' ∧ (RegistryOk c → RegistryOk c').

(** A conversion that only extends the context, whether it returns or
    throws. *)
Definition Within {A} (m : Conv A) : Prop :=
  ∀ context, Extends context (snd (m context)).

(** A conversion that throws an error object, whatever the context it
    starts in. *)
Definition ThrowsError {A} (m : Conv A) : Prop :=
  ∀ context, ∃ message context', m context = (Threw (ThrownError message), context').

(** ** The declarations of a style attribute

    The loop of [buildInlineStyle] and of [buildReactStyleAttr]: a style
    with a colon after its first character declares the property before the
    colon, and the map keeps one value for each property.  The value is the
    trimmed style in [buildInlineStyle] and what follows the colon in
    [buildReactStyleAttr]. *)
Definition styleProperty (s : string) : option string :=
  let colon := indexOfChar ":" s in
  if decide (0 < colon) then Some (trim (substring 0 colon s)) else None.

Definition inlineValue (s : string) : string := trim s.

Definition reactValue (s : string) : string :=
  trim (substringFrom (indexOfChar ":" s + 1) s).

Definition collectDeclarations (value : string → string) (styles : list string)
  : list (string * string) :=
  fold_left
    (fun seen s =>
       match styleProperty s with
       | Some prop => mapSet prop (value s) seen
       | None => seen
       end)
    styles [].

(** The values that the styles give to the property [prop], in order. *)
Definition valuesOf (value : string → string) (prop : string)
    (styles : list string) : list string :=
  omap (fun s => if bool_decide (styleProperty s = Some prop)
                 then Some (value s) else None) styles.

(** The classes collected for one element are registered utility classes,
    in a context that extends [c0]. *)
Definition Collected (c0 : ExportContext) (st : list string * ExportContext)
  : Prop :=
  Extends c0 (snd st) ∧ ∀ k, k ∈ fst st → k ∈ utilityClasses (snd st).

(** ** A node without its hidden paints and effects *)

Definition withEffects (v : option (list Effect)) (p : NodeProps) : NodeProps :=
  mkNodeProps
    (id p) (name p) (type p) (visible p) (isMask p) (maskType p) (x p) (y p)
    (width p) (height p) (rotation p) (opacity p) (absoluteBoundingBox p)
    (layoutMode p) (layoutWrap p) (counterAxisAlignContent p)
    (counterAxisSpacing p) (itemSpacing p) (paddingTop p) (paddingRight p)
    (paddingBottom p) (paddingLeft p) (primaryAxisAlignItems p)
    (counterAxisAlignItems p) (primaryAxisSizingMode p)
    (counterAxisSizingMode p) (itemReverseZIndex p) (clipsContent p)
    (gridRowCount p) (gridColumnCount p) (layoutPositioning p) (constraints
    p) (layoutSizingHorizontal p) (layoutSizingVertical p) (layoutGrow p)
    (layoutAlign p) (cornerRadius p) (topLeftRadius p) (topRightRadius p)
    (bottomRightRadius p) (bottomLeftRadius p) (fills p) (strokes p)
    (strokeWeight p) (strokeAlign p) v (blendMode p) (characters p)
    (fontSize p) (fontName p) (lineHeight p) (letterSpacing p)
    (textAlignHorizontal p) (textCase p) (textDecoration p) (textAutoResize p)
    (paragraphSpacing p).

(** The paints and the effects that are not switched off. *)
Definition visiblePaints (paints : list Paint) : list Paint :=
  List.filter (fun p => notHidden (paintVisible p)) paints.
Definition visibleEffects (es : list Effect) : list Effect :=
  List.filter (fun e => notHidden (effectVisible e)) es.

(** The node with the hidden fills, strokes and effects taken away. *)
Definition withoutHidden (p : NodeProps) : NodeProps :=
  withEffects (visibleEffects <$> effects p)
    (withStrokes (visiblePaints <$> strokes p)
       (withFills (match fills p with
                   | Some (Val paints) => Some (Val (visiblePaints paints))
                   | other => other
                   end) p)).

(** ** Hexadecimal colours *)

Definition isUpperHexDigit (c : ascii) : bool :=
  bool_decide (c ∈ chars "0123456789ABCDEF").

(** The two digits that [toCssColor] writes for a channel:
    [('0' + x.toString(16)).slice(-2)], in upper case. *)
Definition hexByte (z : Z) : string :=
  asciiToUpperCase (sliceLast 2 ("0" +:+ toStringHex z)).

(** ** Examples for the further properties *)

(** A font style that names two weights. *)
Definition extraBold : Mixed FontName :=
  Val {| family := "Inter"; style := "Extra Bold" |}.

(** A rectangle whose only stroke is switched off. *)
Definition hiddenStroke : Paint :=
  {| paintType := "SOLID"; paintVisible := Some false; paintOpacity := None;
     paintColor := {| red := 0; green := 0; blue := 0; alpha := None |};
     gradientTransform := ((1, 0, 0), (0, 1, 0))%Q;
     gradientStops := [] |}.
Definition ghost : NodeProps := withStrokes (Some [hiddenStroke]) (props photo).

(** A run of registry requests: a style, a utility class twice, and the
    style again under another base name. *)
Definition cardRun : list RegistryCall :=
  [CallStyle "Card" ["  border-radius: 4px;"];
   CallUtility "flex" ["  display: flex;"];
   CallUtility "flex" ["  display: inline-flex;"];
   CallStyle "Badge" ["  border-radius: 4px;"]].

(** The styles declare a property each, and no property twice. *)
Definition DeclaredOnce (styles : list string) : Prop :=
  NoDup (omap styleProperty styles)
  ∧ forallb (fun s => bool_decide (is_Some (styleProperty s))) styles = true.

(** * The exporter over an abstract host *)

Section Exporter.

(** [String.prototype.localeCompare] with the default locale. *)
Variable localeCompare : string → string → Z.

(** [String.prototype.toLowerCase]. *)
Variable toLowerCase : string → string.

(** ** Names *)

Definition sanitizeName (name : string) : string :=
  let lowered := toLowerCase name in
  let kept := unchars (filter (fun c => isNameChar c = true) (chars lowered)) in
  let trimmed := trim kept in
  let hyphenated := unchars (collapseSpaces false (chars trimmed)) in
  unchars (dropWhileEnd isHyphen (dropWhile isHyphen (chars hyphenated))).

(** ** Serialization of the stylesheet *)

(** The comparison function [exportSelection] sorts the entries with. *)
Definition compareEntries (a b : StyleEntry) : Z :=
  let baseCompare := localeCompare (baseName a) (baseName b) in
  if decide (baseCompare ≠ 0) then baseCompare
  else suffix a - suffix b.

Definition sortEntries (entries : list StyleEntry) : list StyleEntry :=
  sortBy compareEntries entries.

(** The rules of the stylesheet, after the optional font import and the
    margin reset. *)
Definition styleRules (entries : list StyleEntry) : string :=
  join "" (map cssText (sortEntries entries)).

(** The specification's reading of order independence: the rules do not
    depend on the order in which the traversal made its requests. *)
Definition RulesIndependentOfVisitOrder : Prop :=
  ∀ cs cs' : list RegistryCall, cs ≡ₚ cs' →
    styleRules (styleEntries (snd (runCalls cs newContext)))
    = styleRules (styleEntries (snd (runCalls cs' newContext))).

(** No two entries of the list tie on (baseName, suffix). *)
Definition NoTies (entries : list StyleEntry) : Prop :=
  ∀ a b, a ∈ entries → b ∈ entries → compareEntries a b = 0 → a = b.

(** The conversion of a number to a string, as template literals do it. *)
Variable numberToString : Q → string.

(** ** Layout utilities *)

Definition formatNegativeClassValue (value : Q) : string :=
  let absValue := Math_round (Math_abs value) in
  if Qltb value 0 then "neg-" +:+ numberToString absValue
  else numberToString absValue.

(** The classes collected for one element, with the context.  The source
    follows every [registerUtilityClass(cls, lines, context)] by
    [classes.push(cls)]; [addUtility] is the pair. *)
Definition addUtility (cls : string) (lines : list string)
    (st : list string * ExportContext) : list string * ExportContext :=
  (fst st ++ [cls], registerUtilityClass cls lines (snd st)).

Definition registerGridUtilities (frame : NodeProps) (context : ExportContext)
  : list string * ExportContext :=
  if negb (String.eqb (layoutMode frame) "GRID") then ([], context) else
  let st := ([], context) in
  let st := addUtility "grid" ["  display: grid;"] st in
  let rows := default 1%Q (gridRowCount frame) in
  let cols := default 1%Q (gridColumnCount frame) in
  let rowsClass := "grid-rows-" +:+ numberToString rows in
  let colsClass := "grid-cols-" +:+ numberToString cols in
  let context :=
    registerUtilityClass colsClass
      ["  grid-template-columns: repeat(" +:+ numberToString cols
         +:+ ", minmax(0, 1fr));"]
      (registerUtilityClass rowsClass
         ["  grid-template-rows: repeat(" +:+ numberToString rows
            +:+ ", minmax(0, 1fr));"] (snd st)) in
  let st := (fst st ++ [rowsClass; colsClass], context) in
  let gapValue := formatNegativeClassValue (itemSpacing frame) in
  let gapClass := "gap-" +:+ gapValue in
  addUtility gapClass
    ["  gap: " +:+ numberToString (itemSpacing frame) +:+ "px;"] st.

Definition registerFlexUtilities (frame : NodeProps) (context : ExportContext)
  : list string * ExportContext :=
  let st := ([], context) in
  let st := addUtility "flex" ["  display: flex;"] st in

  let directionClass :=
    if String.eqb (layoutMode frame) "HORIZONTAL" then "flex-row" else "flex-col" in
  let st :=
    addUtility directionClass
      ["  flex-direction: "
         +:+ (if String.eqb (layoutMode frame) "HORIZONTAL" then "row" else "column")
         +:+ ";"] st in

  let st :=
    if String.eqb (layoutWrap frame) "WRAP" then
      let st := addUtility "flex-wrap" ["  flex-wrap: wrap;"] st in
      let st :=
        if String.eqb (counterAxisAlignContent frame) "SPACE_BETWEEN" then
          addUtility "content-between" ["  align-content: space-between;"] st
        else st in
      let counterSpacing := default (itemSpacing frame) (counterAxisSpacing frame) in
      if Qltb 0 counterSpacing then
        if String.eqb (layoutMode frame) "HORIZONTAL" then
          let rowGapClass := "row-gap-" +:+ formatNegativeClassValue counterSpacing in
          addUtility rowGapClass
            ["  row-gap: " +:+ numberToString counterSpacing +:+ "px;"] st
        else
          let colGapClass := "column-gap-" +:+ formatNegativeClassValue counterSpacing in
          addUtility colGapClass
            ["  column-gap: " +:+ numberToString counterSpacing +:+ "px;"] st
      else st
    else st in

  (* When SPACE_BETWEEN, Figma distributes space: no fixed gap *)
  let isAutoGap := String.eqb (primaryAxisAlignItems frame) "SPACE_BETWEEN" in
  let st :=
    if negb isAutoGap then
      let gapValue := formatNegativeClassValue (itemSpacing frame) in
      let gapClass := "gap-" +:+ gapValue in
      addUtility gapClass
        ["  gap: " +:+ numberToString (itemSpacing frame) +:+ "px;"] st
    else st in

  let allSame :=
    Qeqb (paddingTop frame) (paddingRight frame)
    && Qeqb (paddingTop frame) (paddingBottom frame)
    && Qeqb (paddingTop frame) (paddingLeft frame) in

  let st :=
    if allSame then
      let padValue := formatNegativeClassValue (paddingTop frame) in
      let padClass := "p-" +:+ padValue in
      addUtility padClass
        ["  padding: " +:+ numberToString (paddingTop frame) +:+ "px;"] st
    else
      let st :=
        if negb (Qeqb (paddingTop frame) 0) then
          addUtility ("pt-" +:+ formatNegativeClassValue (paddingTop frame))
            ["  padding-top: " +:+ numberToString (paddingTop frame) +:+ "px;"] st
        else st in
      let st :=
        if negb (Qeqb (paddingRight frame) 0) then
          addUtility ("pr-" +:+ formatNegativeClassValue (paddingRight frame))
            ["  padding-right: " +:+ numberToString (paddingRight frame) +:+ "px;"] st
        else st in
      let st :=
        if negb (Qeqb (paddingBottom frame) 0) then
          addUtility ("pb-" +:+ formatNegativeClassValue (paddingBottom frame))
            ["  padding-bottom: " +:+ numberToString (paddingBottom frame) +:+ "px;"] st
        else st in
      if negb (Qeqb (paddingLeft frame) 0) then
        addUtility ("pl-" +:+ formatNegativeClassValue (paddingLeft frame))
          ["  padding-left: " +:+ numberToString (paddingLeft frame) +:+ "px;"] st
      else st in

  let justifyClass :=
    let v := primaryAxisAlignItems frame in
    if String.eqb v "MIN" then "justify-start"
    else if String.eqb v "MAX" then "justify-end"
    else if String.eqb v "CENTER" then "justify-center"
    else if String.eqb v "SPACE_BETWEEN" then "justify-between"
    else "justify-start" in
  let st :=
    addUtility justifyClass
      ["  justify-content: " +:+ mapPrimaryAxis (primaryAxisAlignItems frame) +:+ ";"]
      st in

  let itemsClass :=
    let v := counterAxisAlignItems frame in
    if String.eqb v "MIN" then "items-start"
    else if String.eqb v "MAX" then "items-end"
    else if String.eqb v "CENTER" then "items-center"
    else if String.eqb v "BASELINE" then "items-baseline"
    else "items-stretch" in
  addUtility itemsClass
    ["  align-items: " +:+ mapCounterAxis (counterAxisAlignItems frame) +:+ ";"]
    st.

(** The classes of the form [gap-...] among the collected classes. *)
Definition gapClasses (st : list string * ExportContext) : list string :=
  filter (fun c => String.prefix "gap-" c = true) (fst st).

(** What the specification says of the gap class of a frame. *)
Definition FlexGapSpec (frame : NodeProps)
    (result : list string * ExportContext) : Prop :=
  let gapClass := "gap-" +:+ formatNegativeClassValue (itemSpacing frame) in
  gapClasses result
  = (if String.eqb (primaryAxisAlignItems frame) "SPACE_BETWEEN" then []
     else [gapClass])
  ∧ (String.eqb (primaryAxisAlignItems frame) "SPACE_BETWEEN" = false →
     gapClass ∈ utilityClasses (snd result)).

(** ** Absolute children of layout frames *)

Definition isAbsoluteChild (node : SceneNode) (parentFrame : option SceneNode) : bool :=
  match parentFrame with
  | None => false
  | Some _ =>
      match layoutPositioning (props node) with
      | Some p => String.eqb p "ABSOLUTE"
      | None => false
      end
  end.

Definition defaultConstraints : Constraints :=
  {| horizontal := "MIN"; vertical := "MIN" |}.

Definition getAbsolutePositionStyles (node : SceneNode)
    (parentFrame : option SceneNode) : list string :=
  let styles : list string := [] in
  match parentFrame with
  | None => styles
  | Some parentFrame =>
  if negb (match layoutPositioning (props node) with
           | Some p => String.eqb p "ABSOLUTE"
           | None => false
           end)
  then styles else
  let n := props node in
  let parent := props parentFrame in
  let styles := styles ++ ["position: absolute"] in
  let zIndex := indexOf (children parentFrame) node in
  let styles :=
    if decide (0 ≤ zIndex) then styles ++ ["z-index: " +:+ pretty zIndex]
    else styles in
  let constraints := default defaultConstraints (constraints n) in

  let left := roundPx (x n) in
  let top := roundPx (y n) in
  let right := roundPx (width parent - (x n + width n)) in
  let bottom := roundPx (height parent - (y n + height n)) in

  let transformParts : list string := [] in

  let '(styles, transformParts) :=
    if String.eqb (horizontal constraints) "MAX" then
      (styles ++ ["right: " +:+ numberToString right +:+ "px"], transformParts)
    else if String.eqb (horizontal constraints) "CENTER" then
      let centerX := (x n + width n / 2)%Q in
      let offsetX := roundPx (centerX - width parent / 2) in
      let styles := styles ++ ["left: 50%"] in
      let transformParts := transformParts ++ ["translateX(-50%)"] in
      if negb (Qeqb (Math_round offsetX) 0) then
        (styles,
         transformParts ++ ["translateX(" +:+ numberToString offsetX +:+ "px)"])
      else (styles, transformParts)
    else if String.eqb (horizontal constraints) "STRETCH" then
      (styles ++ ["left: " +:+ numberToString left +:+ "px";
                  "right: " +:+ numberToString right +:+ "px"],
       transformParts)
    else
      (styles ++ ["left: " +:+ numberToString left +:+ "px"], transformParts) in

  let '(styles, transformParts) :=
    if String.eqb (vertical constraints) "MAX" then
      (styles ++ ["bottom: " +:+ numberToString bottom +:+ "px"], transformParts)
    else if String.eqb (vertical constraints) "CENTER" then
      let centerY := (y n + height n / 2)%Q in
      let offsetY := roundPx (centerY - height parent / 2) in
      let styles := styles ++ ["top: 50%"] in
      let transformParts := transformParts ++ ["translateY(-50%)"] in
      if negb (Qeqb (Math_round offsetY) 0) then
        (styles,
         transformParts ++ ["translateY(" +:+ numberToString offsetY +:+ "px)"])
      else (styles, transformParts)
    else if String.eqb (vertical constraints) "STRETCH" then
      (styles ++ ["top: " +:+ numberToString top +:+ "px";
                  "bottom: " +:+ numberToString bottom +:+ "px"],
       transformParts)
    else
      (styles ++ ["top: " +:+ numberToString top +:+ "px"], transformParts) in

  let '(styles, transformParts) :=
    if isMeaningfulRotation (rotation n) then
      (styles ++ ["transform-origin: 0 0"],
       transformParts
         ++ ["rotate(" +:+ numberToString (cssRotationDeg (rotation n)) +:+ "deg)"])
    else (styles, transformParts) in

  if decide (0 < length transformParts)%nat then
    styles ++ ["transform: " +:+ join " " transformParts]
  else styles
  end.

(** The translate components of one axis under a [CENTER] constraint, as
    the specification describes them: the [-50%] shift, then the residual
    offset of the child's centre from the container's centre when its
    rounded value is not zero. *)
Definition centerParts (axis : string) (constraint : string)
    (offset : Q) : list string :=
  if String.eqb constraint "CENTER" then
    ("translate" +:+ axis +:+ "(-50%)")
      :: (if Qeq_bool (Math_round offset) 0 then []
          else ["translate" +:+ axis +:+ "(" +:+ numberToString offset +:+ "px)"])
  else [].

(** ** Colours and fills *)

(** The angle or shape of a gradient from its transform: floating-point
    trigonometry, not interpreted here. *)
Variable gradientTransformToLinearCss : Transform → string.
Variable gradientTransformToRadialCss : Transform → string.
Variable gradientTransformToConicCss : Transform → string.

(** Solid colour as CSS: hex when opaque, rgba when not. *)
Definition toCssColor (r g b a : Q) : string :=
  let R := Math_round (r * 255) in
  let G := Math_round (g * 255) in
  let B := Math_round (b * 255) in
  let alpha := roundAlpha a in
  if Qle_bool 1 alpha || Qltb (Math_abs (alpha - 1)) (5 # 1000) then
    let hex := fun x : Q => sliceLast 2 ("0" +:+ toStringHex (Qfloor x)) in
    "#" +:+ asciiToUpperCase (hex R +:+ hex G +:+ hex B)
  else
    "rgba(" +:+ numberToString R +:+ ", " +:+ numberToString G +:+ ", "
      +:+ numberToString B +:+ ", " +:+ numberToString alpha +:+ ")".

Definition solidPaintColor (fill : Paint) : string :=
  let c := paintColor fill in
  toCssColor (red c) (green c) (blue c) (default 1%Q (paintOpacity fill)).

Definition getSolidFillFromPaints (paints : list Paint) : option string :=
  solidPaintColor
    <$> List.find (fun paint => String.eqb (paintType paint) "SOLID"
                                && notHidden (paintVisible paint)) paints.

Definition getSolidFill (node : NodeProps) : option string :=
  match fills node with
  | Some (Val paints) => getSolidFillFromPaints paints
  | _ => None
  end.

Definition gradientStopsToCss (stops : list ColorStop) : string :=
  join ", "
    (map (fun s =>
            let c := stopColor s in
            let a := default 1%Q (alpha c) in
            let color := toCssColor (red c) (green c) (blue c) a in
            let pct := Math_round (position s * 100) in
            color +:+ " " +:+ numberToString pct +:+ "%")
         stops).

Definition gradientCss (gradientType : string) (t : Transform) (stops : string)
  : option string :=
  if String.eqb gradientType "GRADIENT_LINEAR" then
    Some ("linear-gradient(" +:+ gradientTransformToLinearCss t +:+ ", " +:+ stops +:+ ")")
  else if String.eqb gradientType "GRADIENT_RADIAL" then
    Some ("radial-gradient(" +:+ gradientTransformToRadialCss t +:+ ", " +:+ stops +:+ ")")
  else if String.eqb gradientType "GRADIENT_ANGULAR" then
    Some ("conic-gradient(" +:+ gradientTransformToConicCss t +:+ ", " +:+ stops +:+ ")")
  else if String.eqb gradientType "GRADIENT_DIAMOND" then
    Some ("radial-gradient(" +:+ gradientTransformToRadialCss t +:+ ", " +:+ stops +:+ ")")
  else None.

Definition paintToCssBackground (paint : Paint) : string :=
  if String.eqb (paintType paint) "SOLID" then solidPaintColor paint
  else if negb (notHidden (paintVisible paint)) then ""
  else
    let stops := gradientStopsToCss (gradientStops paint) in
    if String.eqb stops "" then ""
    else default "" (gradientCss (paintType paint) (gradientTransform paint) stops).

(** First visible fill from a paints array (e.g. of a text segment). *)
Definition getFillStyleFromPaints (paints : list Paint) : option string :=
  match List.find (fun p => notHidden (paintVisible p)) paints with
  | None => None
  | Some fill =>
      if String.eqb (paintType fill) "SOLID" then Some (paintToCssBackground fill)
      else if isGradientType (paintType fill) then Some (paintToCssBackground fill)
      else None
  end.

(** First visible fill as CSS background: solid or gradient. *)
Definition getFillStyle (node : NodeProps) : option string :=
  match fills node with
  | Some (Val paints) => getFillStyleFromPaints paints
  | _ => None
  end.

Definition getCornerRadiusStyle (node : NodeProps) : option string :=
  match cornerRadius node with
  | Some (Val r) =>
      if Qltb 0 r then Some ("border-radius: " +:+ numberToString (roundDim r) +:+ "px")
      else None
  | _ => None
  end.

(** ** Masks *)

(** Gradient stops for use in [mask-image]. *)
Definition gradientStopsToCssForMask (stops : list ColorStop)
    (maskType : option string) : string :=
  let luminance := fun r g b : Q => ((299 # 1000) * r + (587 # 1000) * g + (114 # 1000) * b)%Q in
  join ", "
    (map (fun s =>
            let c := stopColor s in
            let a := default 1%Q (alpha c) in
            let pct := Math_round (position s * 100) in
            if bool_decide (maskType = Some "LUMINANCE") then
              let lum := (luminance (red c) (green c) (blue c) * a)%Q in
              let maskAlpha := roundPx lum in
              let color := toCssColor 0 0 0 maskAlpha in
              color +:+ " " +:+ numberToString pct +:+ "%"
            else
              let color := toCssColor (red c) (green c) (blue c) a in
              color +:+ " " +:+ numberToString pct +:+ "%")
         stops).

Definition getMaskImageFromMaskNode (node : SceneNode) : option string :=
  match fills (props node) with
  | Some (Val paints) =>
      match List.find (fun p => notHidden (paintVisible p)) paints with
      | None => None
      | Some fill =>
          if String.eqb (paintType fill) "SOLID" then None
          else
            let maskType := getMaskType node in
            let stops := gradientStopsToCssForMask (gradientStops fill) maskType in
            if String.eqb stops "" then None
            else gradientCss (paintType fill) (gradientTransform fill) stops
      end
  | _ => None
  end.

Definition getMaskImageStyles (maskNode : SceneNode) : list string :=
  match getMaskImageFromMaskNode maskNode with
  | None => []
  | Some maskImage =>
      if String.eqb maskImage "" then [] else
      ["mask-image: " +:+ maskImage;
       "-webkit-mask-image: " +:+ maskImage;
       "mask-size: 100% 100%";
       "mask-position: 0 0";
       "mask-repeat: no-repeat";
       "-webkit-mask-size: 100% 100%";
       "-webkit-mask-position: 0 0";
       "-webkit-mask-repeat: no-repeat"]
  end.

(** [x || 0] on a rounded radius: a zero stays zero. *)
Definition truthyNumber (q : Q) : bool := negb (Qeqb q 0).

(** CSS clip-path for a mask node; [None] for unsupported shapes. *)
Definition getClipPathFromMaskNode (node : SceneNode) : option string :=
  let n := props node in
  let t := type n in
  if String.eqb t "RECTANGLE" then
    match cornerRadius n with
    | Some (Val r) =>
        if Qltb 0 r
        then Some ("inset(0 round " +:+ numberToString (roundDim r) +:+ "px)")
        else Some "inset(0)"
    | Some IsMixed =>
        match topLeftRadius n with
        | Some _ =>
            let tl := roundDim (default 0%Q (topLeftRadius n)) in
            let tr := roundDim (default 0%Q (topRightRadius n)) in
            let br := roundDim (default 0%Q (bottomRightRadius n)) in
            let bl := roundDim (default 0%Q (bottomLeftRadius n)) in
            if truthyNumber tl || truthyNumber tr || truthyNumber br || truthyNumber bl
            then Some ("inset(0 round " +:+ numberToString tl +:+ "px "
                         +:+ numberToString tr +:+ "px "
                         +:+ numberToString br +:+ "px "
                         +:+ numberToString bl +:+ "px)")
            else Some "inset(0)"
        | None => Some "inset(0)"
        end
    | None => Some "inset(0)"
    end
  else if String.eqb t "ELLIPSE" then Some "ellipse(50% 50% at 50% 50%)"
  else if String.eqb t "FRAME" || String.eqb t "GROUP"
          || String.eqb t "COMPONENT" || String.eqb t "INSTANCE" then
    match cornerRadius n with
    | Some (Val r) =>
        if Qltb 0 r
        then Some ("inset(0 round " +:+ numberToString (roundDim r) +:+ "px)")
        else Some "inset(0)"
    | _ => Some "inset(0)"
    end
  else None.

(** ** Strokes and effects *)

Definition getStrokeStyles (node : NodeProps) : list string :=
  match strokes node with
  | None | Some [] => []
  | Some ps =>
      match List.find (fun p => String.eqb (paintType p) "SOLID"
                                && notHidden (paintVisible p)) ps with
      | None => []
      | Some stroke =>
          let w := roundDim (match strokeWeight node with
                             | Some (Val w) => w
                             | _ => 1
                             end) in
          let align := default "INSIDE" (strokeAlign node) in
          let color := solidPaintColor stroke in
          if String.eqb align "INSIDE" then
            ["box-shadow: inset 0 0 0 " +:+ numberToString w +:+ "px " +:+ color]
          else if String.eqb align "OUTSIDE" then
            ["outline: " +:+ numberToString w +:+ "px solid " +:+ color;
             "outline-offset: 0"]
          else
            ["border: " +:+ numberToString w +:+ "px solid " +:+ color]
      end
  end.

Definition shadowCss (e : Effect) : string :=
  let c := effectColor e in
  let color := toCssColor (red c) (green c) (blue c) (default 1%Q (alpha c)) in
  let spread := roundDim (default 0%Q (spread e)) in
  numberToString (roundDim (offsetX e)) +:+ "px "
    +:+ numberToString (roundDim (offsetY e)) +:+ "px "
    +:+ numberToString (roundDim (radius e)) +:+ "px "
    +:+ numberToString spread +:+ "px " +:+ color.

Definition getEffectsStyles (node : NodeProps) : list string :=
  match effects node with
  | None | Some [] => []
  | Some es =>
      let '(shadows, blur) :=
        fold_left
          (fun '(shadows, blur) e =>
             if negb (notHidden (effectVisible e)) then (shadows, blur)
             else if String.eqb (effectType e) "DROP_SHADOW" then
               (shadows ++ [shadowCss e], blur)
             else if String.eqb (effectType e) "INNER_SHADOW" then
               (shadows ++ ["inset " +:+ shadowCss e], blur)
             else if String.eqb (effectType e) "LAYER_BLUR" then
               (shadows, roundDim (radius e))
             else (shadows, blur))
          es ([], 0%Q) in
      (match shadows with
       | [] => []
       | _ => ["box-shadow: " +:+ join ", " shadows]
       end)
      ++ (if Qltb 0 blur
          then ["filter: blur(" +:+ numberToString (roundPx (blur / 2)) +:+ "px)"]
          else [])
  end.

Definition getFontWeightFromStyle (fontName : Mixed FontName) : option Z :=
  match fontName with
  | IsMixed => None
  | Val f =>
      let style := toLowerCase (style f) in
      if includes "thin" style then Some 100
      else if includes "extra light" style || includes "ultra light" style then Some 200
      else if includes "light" style then Some 300
      else if includes "regular" style || includes "normal" style then Some 400
      else if includes "medium" style then Some 500
      else if includes "semi bold" style || includes "demi bold" style then Some 600
      else if includes "bold" style then Some 700
      else if includes "extra bold" style || includes "ultra bold" style then Some 800
      else if includes "black" style || includes "heavy" style then Some 900
      else None
  end.

(** ** Sizing *)

(** [registerUtilityClass(cls, lines, context); addClass(cls)], where
    [addClass] pushes a class that is not yet in the list. *)
Definition addClassUtility (cls : string) (lines : list string)
    (st : list string * ExportContext) : list string * ExportContext :=
  (if bool_decide (cls ∈ fst st) then fst st else fst st ++ [cls],
   registerUtilityClass cls lines (snd st)).

Definition sizingStyles (node : NodeProps) (parentLayoutMode : option string)
  : list string :=
  let sizingHorizontal := layoutSizingHorizontal node in
  let sizingVertical := layoutSizingVertical node in
  let hasLayoutSizing :=
    bool_decide (sizingHorizontal ≠ None) || bool_decide (sizingVertical ≠ None) in
  let layoutGrow := default 0%Q (layoutGrow node) in
  let layoutAlign := layoutAlign node in
  let fixedStyles :=
    (if bool_decide (sizingHorizontal = Some "FIXED")
     then ["width: " +:+ numberToString (roundDim (width node)) +:+ "px"] else [])
    ++ (if bool_decide (sizingVertical = Some "FIXED")
        then ["height: " +:+ numberToString (roundDim (height node)) +:+ "px"] else []) in
  let widthStyle := "width: " +:+ numberToString (roundDim (width node)) +:+ "px" in
  let heightStyle := "height: " +:+ numberToString (roundDim (height node)) +:+ "px" in
  (if String.eqb (type node) "TEXT" then
     if hasLayoutSizing then fixedStyles
     else if String.eqb (textAutoResize node) "NONE" then [widthStyle; heightStyle]
     else if String.eqb (textAutoResize node) "HEIGHT" then [widthStyle]
     else []
   else [])
  ++ (if String.eqb (type node) "RECTANGLE" then
        if hasLayoutSizing then fixedStyles
        else
          let primaryFill :=
            if bool_decide (parentLayoutMode = Some "HORIZONTAL") then Qltb 0 layoutGrow
            else if bool_decide (parentLayoutMode = Some "VERTICAL") then Qltb 0 layoutGrow
            else false in
          let counterFill := bool_decide (layoutAlign = Some "STRETCH") in
          (if negb primaryFill then [widthStyle] else [])
          ++ (if negb counterFill then [heightStyle] else [])
      else [])
  ++ (if String.eqb (type node) "FRAME" then
        if hasLayoutSizing then fixedStyles
        else if String.eqb (layoutMode node) "NONE" then [widthStyle; heightStyle]
        else
          let primaryIsWidth := String.eqb (layoutMode node) "HORIZONTAL" in
          let primaryFixed := String.eqb (primaryAxisSizingMode node) "FIXED" in
          let counterFixed := String.eqb (counterAxisSizingMode node) "FIXED" in
          let primaryFill := truthy parentLayoutMode && Qltb 0 layoutGrow in
          let counterFill := bool_decide (layoutAlign = Some "STRETCH") in
          (if primaryFixed && negb primaryFill
           then [if primaryIsWidth then widthStyle else heightStyle] else [])
          ++ (if counterFixed && negb counterFill
              then [if primaryIsWidth then heightStyle else widthStyle] else [])
      else []).

Definition registerSizingUtilities (node : NodeProps)
    (parentLayoutMode : option string) (context : ExportContext)
  : (list string * list string) * ExportContext :=
  let sizingHorizontal := layoutSizingHorizontal node in
  let sizingVertical := layoutSizingVertical node in
  let hasLayoutSizing :=
    bool_decide (sizingHorizontal ≠ None) || bool_decide (sizingVertical ≠ None) in
  let isAbsolute :=
    bool_decide (parentLayoutMode ≠ None)
    && bool_decide (layoutPositioning node = Some "ABSOLUTE") in
  let layoutGrow := default 0%Q (layoutGrow node) in
  let layoutAlign := layoutAlign node in
  let flex1 := addClassUtility "flex-1" ["  flex: 1;"] in
  let selfStretch := addClassUtility "self-stretch" ["  align-self: stretch;"] in
  let st : list string * ExportContext := ([], context) in

  let st :=
    if truthy parentLayoutMode && Qltb 0 layoutGrow && negb isAbsolute
    then flex1 st else st in
  let st :=
    if truthy parentLayoutMode && bool_decide (layoutAlign = Some "STRETCH")
       && negb isAbsolute
    then selfStretch st else st in
  let st :=
    if hasLayoutSizing && truthy parentLayoutMode && negb isAbsolute then
      let st :=
        if bool_decide (sizingHorizontal = Some "FILL") then
          if bool_decide (parentLayoutMode = Some "HORIZONTAL") then flex1 st
          else if bool_decide (parentLayoutMode = Some "VERTICAL") then selfStretch st
          else st
        else st in
      if bool_decide (sizingVertical = Some "FILL") then
        if bool_decide (parentLayoutMode = Some "VERTICAL") then flex1 st
        else if bool_decide (parentLayoutMode = Some "HORIZONTAL") then selfStretch st
        else st
      else st
    else st in
  ((fst st, sizingStyles node parentLayoutMode), snd st).

(** ** Positions *)

Definition positionOffsets (round : Q → Q) (left top : Q) : list string :=
  ["left: " +:+ numberToString (round left) +:+ "px";
   "top: " +:+ numberToString (round top) +:+ "px"].

(** Position styles relative to a container.  When the container is a mask
    node, parent-relative coordinates are used.  [decimals] is 2 or 4. *)
Definition getPositionStylesRelativeToContainer (node container : SceneNode)
    (zIndex : Z) (decimals : Z) : list string :=
  let round := if decide (decimals = 4) then roundPx4 else roundPx in
  let styles := ["position: absolute"; "z-index: " +:+ pretty zIndex] in
  let n := props node in
  let c := props container in
  if isMask c then
    styles ++ positionOffsets round (x n - x c) (y n - y c)
  else
    match absoluteBoundingBox c, absoluteBoundingBox n with
    | Some containerBounds, Some nodeBounds =>
        styles ++ positionOffsets round
                    (rectX nodeBounds - rectX containerBounds)
                    (rectY nodeBounds - rectY containerBounds)
    | _, _ => styles ++ positionOffsets round (x n) (y n)
    end.

(** Position styles for children of a group. *)
Definition getGroupChildPositionStyles (node parentGroup : SceneNode)
  : list string :=
  let n := props node in
  let parent := props parentGroup in
  let styles := ["position: absolute"] in
  let zIndex := indexOf (children parentGroup) node in
  let styles :=
    if decide (0 ≤ zIndex) then styles ++ ["z-index: " +:+ pretty zIndex]
    else styles in
  let rot := rotation n in
  let leftTop :=
    match absoluteBoundingBox parent, absoluteBoundingBox n with
    | Some parentBounds, Some nodeBounds =>
        if negb (isMeaningfulRotation rot)
        then ((rectX nodeBounds - rectX parentBounds)%Q,
              (rectY nodeBounds - rectY parentBounds)%Q)
        else (x n, y n)
    | _, _ => (x n, y n)
    end in
  let rawLeft := fst leftTop in
  let rawTop := snd leftTop in
  let leftPx := roundPx rawLeft in
  let topPx := roundPx rawTop in
  let right := roundPx (width parent - (rawLeft + width n)) in
  let bottom := roundPx (height parent - (rawTop + height n)) in
  let constraints := default defaultConstraints (constraints n) in
  let transformParts : list string := [] in

  let '(styles, transformParts) :=
    if String.eqb (horizontal constraints) "MAX" then
      (styles ++ ["right: " +:+ numberToString right +:+ "px"], transformParts)
    else if String.eqb (horizontal constraints) "CENTER" then
      let centerX := (rawLeft + width n / 2)%Q in
      let offsetX := roundPx (centerX - width parent / 2) in
      let styles := styles ++ ["left: 50%"] in
      let transformParts := transformParts ++ ["translateX(-50%)"] in
      if negb (Qeqb (Math_round offsetX) 0) then
        (styles,
         transformParts ++ ["translateX(" +:+ numberToString offsetX +:+ "px)"])
      else (styles, transformParts)
    else if String.eqb (horizontal constraints) "STRETCH" then
      (styles ++ ["left: " +:+ numberToString leftPx +:+ "px";
                  "right: " +:+ numberToString right +:+ "px"],
       transformParts)
    else
      (styles ++ ["left: " +:+ numberToString leftPx +:+ "px"], transformParts) in

  let '(styles, transformParts) :=
    if String.eqb (vertical constraints) "MAX" then
      (styles ++ ["bottom: " +:+ numberToString bottom +:+ "px"], transformParts)
    else if String.eqb (vertical constraints) "CENTER" then
      let centerY := (rawTop + height n / 2)%Q in
      let offsetY := roundPx (centerY - height parent / 2) in
      let styles := styles ++ ["top: 50%"] in
      let transformParts := transformParts ++ ["translateY(-50%)"] in
      if negb (Qeqb (Math_round offsetY) 0) then
        (styles,
         transformParts ++ ["translateY(" +:+ numberToString offsetY +:+ "px)"])
      else (styles, transformParts)
    else if String.eqb (vertical constraints) "STRETCH" then
      (styles ++ ["top: " +:+ numberToString topPx +:+ "px";
                  "bottom: " +:+ numberToString bottom +:+ "px"],
       transformParts)
    else
      (styles ++ ["top: " +:+ numberToString topPx +:+ "px"], transformParts) in

  let '(styles, transformParts) :=
    if isMeaningfulRotation rot then
      (styles ++ ["transform-origin: 0 0"],
       transformParts
         ++ ["rotate(" +:+ numberToString (cssRotationDeg rot) +:+ "deg)"])
    else (styles, transformParts) in

  if decide (0 < length transformParts)%nat then
    styles ++ ["transform: " +:+ join " " transformParts]
  else styles.

(** ** Sibling lists and mask runs *)

(** The index-based loop over a sibling list, shared by frames (over their
    children, and over the children of a group they flatten) and groups:

    [while (i < nodes.length)]: a child the container flattens is replaced
    by its own children; a mask node is emitted, then, when it has a clip
    path and siblings before the next mask, those siblings are emitted
    inside a wrapper, and the loop resumes at the next mask; any other child
    is emitted on its own.  The loops differ in the arguments of a plain
    child ([plainArgs]), in the wrapper ([wrapperOpen], [wrapperClose]) and
    in flattening ([flatten]). *)
Section SiblingLoop.

Variable nodes : list (SceneNode * Run).
Variable flatten : nat → option (Conv string).
Variable plainArgs : nat → option SceneNode * Z.
Variable wrapperOpen : nat → SceneNode → string.
Variable wrapperClose : string.

(** [for (let m = i + 1; m < k; m++) html += await run(nodes[m], mask, m - i - 1)] *)
Definition maskedSiblings (i k : nat) (mask : SceneNode) (html : string)
  : Conv string :=
  forEach
    (fun m html =>
       match nodes !! m with
       | Some (_, run) =>
           h ← run (Some mask) (Z.of_nat m - Z.of_nat i - 1);
           mret (html +:+ h)
       | None => mret html
       end)
    (seq (i + 1) (k - i - 1)) html.

Fixpoint siblingLoop (gas : nat) (i : nat) (html : string) : Conv string :=
  match gas with
  | O => mret html
  | S gas' =>
      match nodes !! i with
      | None => mret html
      | Some (child, run) =>
          match flatten i with
          | Some inner =>
              h ← inner;
              siblingLoop gas' (i + 1) (html +:+ h)
          | None =>
              if isMaskNode child then
                let clipPath := getClipPathFromMaskNode child in
                let k := scanToMask (drop (i + 1) (map fst nodes)) (i + 1) in
                let maskedCount := (k - i - 1)%nat in
                h ← run (fst (plainArgs i)) (snd (plainArgs i));
                let html := html +:+ h in
                html ←
                  (if truthy clipPath && bool_decide (0 < maskedCount)%nat then
                     let html := html +:+ wrapperOpen i child in
                     html ← maskedSiblings i k child html;
                     mret (html +:+ wrapperClose)
                   else mret html);
                siblingLoop gas' k html
              else
                h ← run (fst (plainArgs i)) (snd (plainArgs i));
                siblingLoop gas' (i + 1) (html +:+ h)
          end
      end
  end.

End SiblingLoop.

(** The wrapper of a mask run: a box of the size of the mask node, clipped
    to its shape. *)
Definition maskWrapperOpen (outputFormat : OutputFormat) (innerIndent : string)
    (container : SceneNode) (z : Z) (mask : SceneNode) : string :=
  let wrapperStyles :=
    ["width: " +:+ numberToString (roundDim (width (props mask))) +:+ "px";
     "height: " +:+ numberToString (roundDim (height (props mask))) +:+ "px";
     "position: absolute";
     "overflow: hidden";
     "clip-path: " +:+ default "" (getClipPathFromMaskNode mask)]
    ++ getMaskImageStyles mask
    ++ getPositionStylesRelativeToContainer mask container z 2 in
  LF +:+ innerIndent +:+ "<div " +:+ getClassAttr [] outputFormat
    +:+ getStyleAttr wrapperStyles outputFormat +:+ ">".

(** ** The tree walker *)

(** Host calls of the plugin API. *)
Variable exportAsync : SceneNode → Outcome (list ascii).
Variable getStyledTextSegments : SceneNode → Outcome (list TextSegment).

(** Pure rewritings of the exported SVG text (unique ids, root size), not
    interpreted here. *)
Variable makeSvgIdsUnique : string → string → string.
Variable normalizeSvgToNodeSize : string → Q → Q → string.

(** [String.fromCharCode] over the bytes. *)
Definition decodeSvgBytes (svgBytes : list ascii) : string := unchars svgBytes.

(** The arguments of [nodeToHtmlCss] after the node and the context. *)
Definition Emitter : Type :=
  option string → option SceneNode → option SceneNode → OutputFormat →
  Z → Z → option SceneNode → Z → Conv string.

(** A child with its conversion, and its own children with theirs (a frame
    without layout converts the children of a child group itself). *)
Record ChildEntry := mkChildEntry {
  entryNode : SceneNode;
  entryEmit : Emitter;
  entryChildren : list (SceneNode * Emitter);
}.

(** The position styles of a node that is not a group: relative to the
    position container if there is one, else as the child of a group, else
    as the child of a layout frame.  The flag tells whether positioning may
    have set a transform. *)
Definition flowPositionStyles (node : SceneNode)
    (parentFrame parentGroup positionContainer : option SceneNode)
    (flattenedZIndex : Z) : list string * bool :=
  match positionContainer with
  | Some container =>
      (getPositionStylesRelativeToContainer node container flattenedZIndex 2, true)
  | None =>
      match parentGroup with
      | Some group => (getGroupChildPositionStyles node group, true)
      | None =>
          let absoluteStyles := getAbsolutePositionStyles node parentFrame in
          (absoluteStyles
             ++ match parentFrame with
                | Some frame =>
                    if negb (isAbsoluteChild node parentFrame) then
                      let idx := indexOf (children frame) node in
                      let z :=
                        if itemReverseZIndex (props frame)
                        then Z.of_nat (length (children frame)) - 1 - idx
                        else 1 in
                      ["position: relative"; "z-index: " +:+ pretty z]
                    else []
                | None => []
                end,
           bool_decide (0 < length absoluteStyles)%nat)
      end
  end.

Definition opacityStyles (node : NodeProps) : list string :=
  if Qltb (opacity node) 1
  then ["opacity: " +:+ numberToString (roundPx (opacity node))] else [].

Definition rotationStyles (node : NodeProps) : list string :=
  ["transform-origin: 0 0";
   "transform: rotate(" +:+ numberToString (cssRotationDeg (rotation node)) +:+ "deg)"].

(** [background: fill], or the placeholder colour for an image fill. *)
Definition backgroundStyles (node : NodeProps) (fill : option string) : list string :=
  (if truthy fill then ["background: " +:+ default "" fill] else [])
  ++ (if negb (truthy fill) && hasImageFill node then ["background: #e5e7eb"] else []).

Definition isFrameLike (t : string) : bool :=
  String.eqb t "FRAME" || String.eqb t "COMPONENT" || String.eqb t "INSTANCE".
Definition isGroupLike (t : string) : bool :=
  String.eqb t "GROUP" || String.eqb t "TRANSFORM_GROUP".

Definition hasAbsoluteChild (cs : list SceneNode) : bool :=
  existsb (fun child => bool_decide (layoutPositioning (props child) = Some "ABSOLUTE")) cs.

Section Blocks.

(** The node, its children with their conversions, and the arguments. *)
Variable node : SceneNode.
Variable kids : list ChildEntry.
Variable parentLayoutMode : option string.
Variable parentFrame parentGroup : option SceneNode.
Variable outputFormat : OutputFormat.
Variable indent baseIndent : Z.
Variable positionContainer : option SceneNode.
Variable flattenedZIndex : Z.

Let n : NodeProps := props node.

Definition openPrefix : string :=
  (if bool_decide (indent = 0) && bool_decide (baseIndent = 0) then "" else LF)
  +:+ spaces2 (baseIndent + indent).
Definition closePrefix : string := LF +:+ spaces2 (baseIndent + indent).
Definition innerIndent : string := spaces2 (baseIndent + indent + 1).

Definition pascalName : string :=
  let p := toPascalCase (name n) in
  if negb (String.eqb p "") then p
  else
    let s := sanitizeName (name n) in
    if negb (String.eqb s "") then s
    else "node-" +:+ replaceFirst ":" "-" (id n).

Definition dataLayer : string :=
  getDataLayerAttr (name n) outputFormat
  +:+ (if isMaskNode node then
         " data-figma-mask=" +:+ DQ +:+ "true" +:+ DQ
         +:+ (if truthy (getMaskType node)
              then " data-figma-mask-type=" +:+ DQ
                     +:+ default "" (getMaskType node) +:+ DQ
              else "")
       else "").

Definition divOpen (classes styles : list string) : string :=
  "<div " +:+ dataLayer +:+ getClassAttr classes outputFormat
    +:+ getStyleAttr styles outputFormat +:+ ">".

(** *** Frames, components and instances *)

Definition frameBlock : Conv string :=
  let baseName := pascalName in
  let isInvisibleSpacer :=
    Qltb (height n) 1 && Qltb (roundPx (opacity n)) (1 # 100)
    && bool_decide (length (children node) = 0%nat) in
  if isInvisibleSpacer then mret "" else
  classes ←
    liftState
      (if String.eqb (layoutMode n) "GRID" then registerGridUtilities n
       else if negb (String.eqb (layoutMode n) "NONE") then registerFlexUtilities n
       else fun context => ([], context));
  sizing ← liftState (registerSizingUtilities n parentLayoutMode);
  let classes := classes ++ fst sizing in

  let fill := getFillStyle n in
  let inlineStyles := snd sizing in
  let position :=
    flowPositionStyles node parentFrame parentGroup positionContainer
      flattenedZIndex in
  let inlineStyles := inlineStyles ++ fst position in
  let hasPositioningTransform := snd position in
  let inlineStyles :=
    if negb (isMaskNode node) then inlineStyles ++ backgroundStyles n fill
    else inlineStyles in
  let inlineStyles :=
    inlineStyles ++ option_list (getCornerRadiusStyle n)
      ++ getStrokeStyles n ++ getEffectsStyles n ++ opacityStyles n
      ++ blendStyles n
      ++ (if clipsContent n then ["overflow: hidden"] else [])
      (* Figma frame dimensions include padding *)
      ++ (if negb (String.eqb (layoutMode n) "NONE")
          then ["box-sizing: border-box"] else [])
      ++ (if isMeaningfulRotation (rotation n) && negb hasPositioningTransform
          then rotationStyles n else []) in
  (* styleLines is empty: no class is interned for a frame *)
  classes ←
    (match classes with
     | [] =>
         modify (fun context =>
                   setUsedBaseClasses ({[baseName]} ∪ usedBaseClasses context) context);;
         (if String.eqb baseName "frame"
          then modify (registerUtilityClass baseName ["  display: block;"])
          else mret tt);;
         mret (classes ++ [baseName])
     | _ => mret classes
     end);
  let inlineStyles :=
    if (if String.eqb (layoutMode n) "NONE"
        then bool_decide (0 < length (children node))%nat
        else hasAbsoluteChild (children node))
    then inlineStyles ++ ["position: relative"] else inlineStyles in
  let finalClasses := dedupe [] classes in
  let hasFlexDir :=
    bool_decide ("flex-col" ∈ finalClasses) || bool_decide ("flex-row" ∈ finalClasses) in
  let finalClasses :=
    if hasFlexDir && negb (bool_decide ("flex" ∈ finalClasses))
    then "flex" :: finalClasses else finalClasses in
  let html := openPrefix +:+ divOpen finalClasses inlineStyles in

  let childParentLayoutMode :=
    if String.eqb (layoutMode n) "NONE" then None else Some (layoutMode n) in
  let childParentFrame :=
    if String.eqb (layoutMode n) "NONE" then None else Some node in
  let childParentGroup :=
    if String.eqb (layoutMode n) "NONE" then Some node else None in
  let runFrameChild (emit : Emitter) : Run :=
    fun posContainer z =>
      emit childParentLayoutMode childParentFrame childParentGroup
        outputFormat (indent + 1) baseIndent posContainer z in
  let wrapperClose := LF +:+ innerIndent +:+ "</div>" in
  let frameChildren :=
    map (fun e => (entryNode e, runFrameChild (entryEmit e))) kids in
  (* the children of a group child of a frame without layout *)
  let flattenGroup (i : nat) : option (Conv string) :=
    match kids !! i with
    | Some e =>
        if String.eqb (layoutMode n) "NONE" && isGroupLike (type (props (entryNode e)))
        then
          let groupChildren :=
            map (fun ge => (fst ge, runFrameChild (snd ge))) (entryChildren e) in
          Some (siblingLoop groupChildren (fun _ => None)
                  (fun j => (Some node, Z.of_nat j))
                  (fun j gc =>
                     maskWrapperOpen outputFormat innerIndent node (Z.of_nat j + 1) gc)
                  wrapperClose
                  (length groupChildren) 0 "")
        else None
    | None => None
    end in
  html ←
    siblingLoop frameChildren flattenGroup
      (fun _ => (None, 0))
      (fun i child =>
         let idx := Z.of_nat i + 1 in
         let z :=
           if itemReverseZIndex n
           then Z.of_nat (length frameChildren) - 1 - idx else idx + 1 in
         maskWrapperOpen outputFormat innerIndent node z child)
      wrapperClose
      (length frameChildren) 0 html;
  mret (html +:+ closePrefix +:+ "</div>").

(** *** Groups *)

Definition groupBlock : Conv string :=
  let baseName := pascalName in
  let isInvisibleSpacer :=
    Qltb (height n) 1 && Qltb (roundPx (opacity n)) (1 # 100)
    && bool_decide (length (children node) = 0%nat) in
  if isInvisibleSpacer then mret "" else
  let inlineStyles :=
    ["width: " +:+ numberToString (roundDim (width n)) +:+ "px";
     "height: " +:+ numberToString (roundDim (height n)) +:+ "px"] in
  let inlineStyles :=
    inlineStyles
    ++ match positionContainer with
       | Some container =>
           getPositionStylesRelativeToContainer node container flattenedZIndex 2
       | None =>
           match parentGroup with
           | Some group => getGroupChildPositionStyles node group
           | None =>
               match parentFrame with
               | Some frame =>
                   if bool_decide (layoutPositioning n = Some "ABSOLUTE")
                   then getAbsolutePositionStyles node parentFrame
                   else
                     let idx := indexOf (children frame) node in
                     let z :=
                       if itemReverseZIndex (props frame)
                       then Z.of_nat (length (children frame)) - 1 - idx
                       else idx + 1 in
                     ["position: relative"; "z-index: " +:+ pretty z]
               | None => ["position: relative"]
               end
           end
       end in
  let inlineStyles :=
    inlineStyles
    ++ match fills n with
       | Some (Val _) =>
           if negb (isMaskNode node) then
             let fill := getFillStyle n in
             if truthy fill then ["background: " +:+ default "" fill]
             else if hasImageFill n then ["background: #e5e7eb"] else []
           else []
       | _ => []
       end
    ++ match strokes n with Some _ => getStrokeStyles n | None => [] end
    ++ match cornerRadius n with
       | Some (Val _) => option_list (getCornerRadiusStyle n)
       | _ => []
       end
    ++ match effects n with
       | Some (_ :: _) => getEffectsStyles n
       | _ => []
       end
    ++ opacityStyles n
    ++ blendStyles n
    ++ (if isMeaningfulRotation (rotation n) then rotationStyles n else []) in
  (* classes is empty here *)
  modify (fun context =>
            setUsedBaseClasses ({[baseName]} ∪ usedBaseClasses context) context);;
  modify (registerUtilityClass "group" ["  display: block;"]);;
  let classes := ["group"; baseName] in
  let finalClasses := dedupe [] classes in
  let inlineStyles := inlineStyles ++ ["overflow: visible"] in
  let html := openPrefix +:+ divOpen finalClasses inlineStyles in

  let runGroupChild (emit : Emitter) : Run :=
    fun posContainer z =>
      emit None None (Some node) outputFormat (indent + 1) baseIndent
        posContainer z in
  let groupChildren :=
    map (fun e => (entryNode e, runGroupChild (entryEmit e))) kids in
  html ←
    siblingLoop groupChildren (fun _ => None)
      (fun _ => (None, 0))
      (fun gi child =>
         maskWrapperOpen outputFormat innerIndent node (Z.of_nat gi + 1) child)
      (LF +:+ innerIndent +:+ "</div>")
      (length groupChildren) 0 html;
  mret (html +:+ closePrefix +:+ "</div>").

End Blocks.

Section LeafBlocks.

Variable node : SceneNode.
Variable parentLayoutMode : option string.
Variable parentFrame parentGroup : option SceneNode.
Variable outputFormat : OutputFormat.
Variable indent baseIndent : Z.
Variable positionContainer : option SceneNode.
Variable flattenedZIndex : Z.

Let n : NodeProps := props node.
Let openPrefix : string := openPrefix indent baseIndent.
Let closePrefix : string := closePrefix indent baseIndent.
Let innerIndent : string := innerIndent indent baseIndent.
Let dataLayer : string := dataLayer node outputFormat.
Let divOpen : list string → list string → string := divOpen node outputFormat.

(** *** Text *)

(** [push(cls)] after [registerUtilityClass(cls, lines, context)], without
    looking for duplicates. *)
Definition addTextUtility (cls : string) (lines : list string)
    (classes : list string) : Conv (list string) :=
  modify (registerUtilityClass cls lines);;
  mret (classes ++ [cls]).

(** The declarations that colour a text with a fill. *)
Definition textFillStyles (textFill : option string) : list string :=
  if truthy textFill then
    let fill := default "" textFill in
    if isGradientCss fill then
      ["background: " +:+ fill; "color: transparent";
       "background-clip: text"; "-webkit-background-clip: text"]
    else ["color: " +:+ fill]
  else [].

(** [getSolidTextFill(text) || getFillStyleFromPaints(text.fills)].  Both
    operands call [find] on the value of [fills]: when the fills are mixed
    the first operand returns [null] and the second calls [find] on the
    marker [figma.mixed], which is not an array, and when the node has no
    fills the first already reads [find] of [undefined]; either call throws
    a [TypeError] (the messages are those of V8). *)
Definition textFill : Conv (option string) :=
  match fills n with
  | Some (Val paints) =>
      let solid := getSolidFillFromPaints paints in
      if truthy solid then mret solid
      else mret (getFillStyleFromPaints paints)
  | Some IsMixed => throw (ThrownError "paints.find is not a function")
  | None =>
      throw (ThrownError "Cannot read properties of undefined (reading 'find')")
  end.

Definition segmentHtml (escapeText : string → string) (segment : TextSegment)
  : string :=
  let segmentFill := getFillStyleFromPaints (segmentFills segment) in
  let segmentText := escapeText (segmentCharacters segment) in
  if negb (truthy segmentFill) then segmentText
  else
    let fill := default "" segmentFill in
    let isGradient := isGradientCss fill in
    let spanStyle :=
      if isGradient
      then "background: " +:+ fill
             +:+ "; color: transparent; background-clip: text; -webkit-background-clip: text"
      else "color: " +:+ fill in
    if isReactFormat outputFormat then
      let quoted := replaceAll "'" (BACKSLASH +:+ "'") fill in
      let reactStyle :=
        if isGradient
        then "background: '" +:+ quoted
               +:+ "', color: 'transparent', backgroundClip: 'text', WebkitBackgroundClip: 'text'"
        else "color: '" +:+ quoted +:+ "'" in
      "<span style={{ " +:+ reactStyle +:+ " }}>" +:+ segmentText +:+ "</span>"
    else
      "<span style=" +:+ DQ +:+ spanStyle +:+ DQ +:+ ">" +:+ segmentText +:+ "</span>".

Definition textBlock : Conv string :=
  let classes : list string := [] in
  classes ←
    (match fontSize n with
     | Val size =>
         let fontSize := Math_round size in
         if truthyNumber fontSize then
           addTextUtility ("text-" +:+ numberToString fontSize)
             ["  font-size: " +:+ numberToString fontSize +:+ "px;"] classes
         else mret classes
     | IsMixed => mret classes
     end);
  classes ←
    (match getFontWeightFromStyle (fontName n) with
     | Some fontWeight =>
         addTextUtility ("font-" +:+ pretty fontWeight)
           ["  font-weight: " +:+ pretty fontWeight +:+ ";"] classes
     | None => mret classes
     end);
  classes ←
    (match lineHeight n with
     | Val lh =>
         if negb (String.eqb (unit lh) "AUTO") then
           let value := Math_round (value lh) in
           let lineClass := "leading-" +:+ formatNegativeClassValue value in
           let unit := if String.eqb (unit lh) "PERCENT" then "%" else "px" in
           addTextUtility lineClass
             ["  line-height: " +:+ numberToString value +:+ unit +:+ ";"] classes
         else mret classes
     | IsMixed => mret classes
     end);
  classes ←
    (match letterSpacing n with
     | Val ls =>
         let value := value ls in
         let trackingClass :=
           "tracking-" +:+ formatNegativeClassValue (Math_round value) in
         let cssValue :=
           if String.eqb (unit ls) "PERCENT"
           then numberToString (value / 100) +:+ "em"
           else numberToString (Math_round value) +:+ "px" in
         addTextUtility trackingClass
           ["  letter-spacing: " +:+ cssValue +:+ ";"] classes
     | IsMixed => mret classes
     end);
  classes ←
    (match fontName n with
     | Val font =>
         let familyName := sanitizeName (family font) in
         if negb (String.eqb familyName "") then
           modify (fun context =>
                     setFontFamiliesUsed
                       (setAdd (family font) (fontFamiliesUsed context)) context);;
           addTextUtility ("fontfam-" +:+ familyName)
             ["  font-family: " +:+ formatFontFamily (fontName n) +:+ ";"] classes
         else mret classes
     | IsMixed => mret classes
     end);
  classes ←
    (match getTextAlignClass (textAlignHorizontal n) with
     | Some alignClass =>
         addTextUtility alignClass
           ["  text-align: " +:+ toLowerCase (textAlignHorizontal n) +:+ ";"] classes
     | None => mret classes
     end);
  classes ←
    (match getTextCaseClass (textCase n) with
     | Some textCaseVal =>
         addTextUtility ("tt-" +:+ textCaseVal)
           ["  text-transform: " +:+ textCaseVal +:+ ";"] classes
     | None => mret classes
     end);
  classes ←
    (match getTextDecorationClass (textDecoration n) with
     | Some textDeco =>
         addTextUtility ("decoration-" +:+ textDeco)
           ["  text-decoration: " +:+ textDeco +:+ ";"] classes
     | None => mret classes
     end);

  sizing ← liftState (registerSizingUtilities n parentLayoutMode);
  let classes := classes ++ fst sizing in
  let inlineStyles :=
    snd sizing
    ++ fst (flowPositionStyles node parentFrame parentGroup positionContainer
              flattenedZIndex) in
  let escapeText := if isReactFormat outputFormat then escapeJsxText else escapeHtml in
  let textContent := escapeText (characters n) in
  content ←
    (match fills n with
     | Some IsMixed =>
         tryCatch
           (segments ← await (getStyledTextSegments node);
            mret (join "" (map (segmentHtml escapeText) segments), inlineStyles))
           (fun _ =>
              fill ← textFill;
              mret (textContent, inlineStyles ++ textFillStyles fill))
     | _ =>
         fill ← textFill;
         mret (textContent, inlineStyles ++ textFillStyles fill)
     end);
  let textContent := fst content in
  let inlineStyles := snd content in
  let inlineStyles :=
    inlineStyles
    ++ (if Qltb 0 (paragraphSpacing n)
        then ["margin-bottom: " +:+ numberToString (paragraphSpacing n) +:+ "px"]
        else [])
    ++ opacityStyles n in
  let inlineStyles :=
    if isMeaningfulRotation (rotation n)
       && forallb (fun style => negb (startsWith "transform:" style)) inlineStyles
    then inlineStyles ++ rotationStyles n else inlineStyles in
  classes ←
    (match classes with
     | [] => addTextUtility "text" [] classes
     | _ => mret classes
     end);
  mret (openPrefix +:+ "<p " +:+ dataLayer +:+ getClassAttr classes outputFormat
          +:+ getStyleAttr inlineStyles outputFormat +:+ ">"
          +:+ textContent +:+ "</p>").

(** *** Blurred shapes *)

(** [positionContainer || parentGroup || parentFrame], and the z-index that
    goes with it. *)
Definition anyContainer : option SceneNode :=
  match positionContainer with
  | Some c => Some c
  | None => match parentGroup with
            | Some g => Some g
            | None => parentFrame
            end
  end.
Definition anyContainerZ : Z :=
  match positionContainer with
  | Some _ => flattenedZIndex
  | None =>
      match parentGroup with
      | Some g => indexOf (children g) node
      | None =>
          match parentFrame with
          | Some f => indexOf (children f) node
          | None => 0
          end
      end
  end.

(** A rectangle or an ellipse with a solid fill and a layer blur; an ellipse
    is rounded by [border-radius: 9999px], a rectangle by its own radius. *)
Definition blurredShapeBlock (blurRadius : Q)
    (roundInner roundPlain : list string → list string) : Conv string :=
  cls ← liftState (getUniqueClassName (pascalName node));
  let classes := [cls] in
  let container := anyContainer in
  let z := anyContainerZ in
  let rotated := isMeaningfulRotation (rotation n) in
  let blurPx := roundPx (blurRadius / 2) in
  let positioned (styles : list string) :=
    match container with
    | Some c => styles ++ getPositionStylesRelativeToContainer node c z 2
    | None => styles
    end in
  match (if rotated then absoluteBoundingBox n else None) with
  | Some aabb =>
      let outerStyles :=
        positioned
          ["width: " +:+ numberToString (roundPx (rectWidth aabb)) +:+ "px";
           "height: " +:+ numberToString (roundPx (rectHeight aabb)) +:+ "px"] in
      let innerStyles :=
        roundInner
          ["width: " +:+ numberToString (roundPx (width n)) +:+ "px";
           "height: " +:+ numberToString (roundPx (height n)) +:+ "px";
           "position: absolute";
           "left: 50%";
           "top: 50%";
           "transform: translate(-50%, -50%) rotate("
             +:+ numberToString (cssRotationDeg (rotation n)) +:+ "deg)"] in
      mret (openPrefix +:+ divOpen classes outerStyles
              +:+ LF +:+ innerIndent +:+ "<div "
              +:+ getStyleAttr innerStyles outputFormat +:+ "></div>"
              +:+ closePrefix +:+ "</div>")
  | None =>
      let inlineStyles :=
        roundPlain
          (positioned
             ["width: " +:+ numberToString (roundPx (width n)) +:+ "px";
              "height: " +:+ numberToString (roundPx (height n)) +:+ "px"]) in
      mret (openPrefix +:+ divOpen classes inlineStyles +:+ "</div>")
  end.

Definition blurFilter (blurRadius : Q) : string :=
  "filter: blur(" +:+ numberToString (roundPx (blurRadius / 2)) +:+ "px)".
Definition unmaskedBackground (fill : string) : list string :=
  if negb (isMaskNode node) then ["background: " +:+ fill] else [].

(** *** Rectangles *)

Definition rectangleBlock : Conv string :=
  let baseName := pascalName node in
  let isInvisibleSpacer :=
    Qltb (height n) 1 && Qltb (roundPx (opacity n)) (1 # 100) in
  if isInvisibleSpacer then mret "" else
  let fill := getSolidFill n in
  let rectBlurRadius := getLayerBlurRadius n in
  if truthy fill && Qltb 0 rectBlurRadius then
    let borderRadius :=
      match getCornerRadiusStyle n with
      | Some radiusStyle => Some (trim (replaceFirst "border-radius: " "" radiusStyle))
      | None => None
      end in
    let radiusStyles :=
      if truthy borderRadius
      then ["border-radius: " +:+ default "" borderRadius] else [] in
    blurredShapeBlock rectBlurRadius
      (fun styles =>
         styles ++ [blurFilter rectBlurRadius]
           ++ unmaskedBackground (default "" fill) ++ radiusStyles)
      (fun styles =>
         styles ++ unmaskedBackground (default "" fill) ++ radiusStyles
           ++ [blurFilter rectBlurRadius])
  else
  let styleLines :=
    match cornerRadius n with
    | Some (Val r) => ["  border-radius: " +:+ numberToString (roundDim r) +:+ "px;"]
    | Some IsMixed => []
    | None => ["  border-radius: NaNpx;"]
    end in
  className ← liftState (getClassForStyle baseName styleLines);
  let classes := [className] in
  sizing ← liftState (registerSizingUtilities n parentLayoutMode);
  let classes := classes ++ fst sizing in
  let inlineStyles :=
    snd sizing
    ++ fst (flowPositionStyles node parentFrame parentGroup positionContainer
              flattenedZIndex) in
  let rectFill := if isMaskNode node then None else getFillStyle n in
  let inlineStyles :=
    inlineStyles
    ++ (if truthy rectFill then ["background: " +:+ default "" rectFill] else [])
    ++ (if negb (truthy rectFill) && negb (isMaskNode node) && hasImageFill n
        then ["background: #e5e7eb"] else [])
    ++ option_list (getCornerRadiusStyle n)
    ++ getStrokeStyles n ++ getEffectsStyles n ++ opacityStyles n
    ++ blendStyles n in
  let inlineStyles :=
    if isMeaningfulRotation (rotation n)
       && forallb (fun style => negb (startsWith "transform:" style)) inlineStyles
    then inlineStyles ++ rotationStyles n else inlineStyles in
  mret (openPrefix +:+ divOpen classes inlineStyles +:+ "</div>").

(** *** Ellipses with a blur *)

Definition ellipseBlurBlock (fill : string) (blurRadius : Q) : Conv string :=
  blurredShapeBlock blurRadius
    (fun styles =>
       styles ++ ["border-radius: 9999px"; blurFilter blurRadius]
         ++ unmaskedBackground fill)
    (fun styles =>
       styles ++ unmaskedBackground fill
         ++ ["border-radius: 9999px"; blurFilter blurRadius]).

(** *** Vectors *)

(** The box drawn instead of a vector that is not exported. *)
Definition placeholderStyles (baseInlineStyles : list string)
    (useAabbWrapper : bool) : list string :=
  let inlineStyles := baseInlineStyles in
  let inlineStyles :=
    if negb (existsb (fun s => startsWith "width:" s || startsWith "height:" s)
               inlineStyles)
    then inlineStyles
           ++ ["width: " +:+ numberToString (Math_round (width n)) +:+ "px";
               "height: " +:+ numberToString (Math_round (height n)) +:+ "px"]
    else inlineStyles in
  let inlineStyles :=
    if negb (isMaskNode node) then
      let vecFill := getFillStyle n in
      if truthy vecFill then inlineStyles ++ ["background: " +:+ default "" vecFill]
      else inlineStyles ++ ["background: #e5e7eb"]
    else inlineStyles in
  let inlineStyles := inlineStyles ++ getStrokeStyles n ++ opacityStyles n in
  if negb useAabbWrapper && isMeaningfulRotation (rotation n)
  then inlineStyles ++ rotationStyles n else inlineStyles.

(** The styles of a vector before those of its content. *)
Definition vectorBaseStyles (sizing : list string * list string) : list string :=
  snd sizing
  ++ fst (flowPositionStyles node parentFrame parentGroup positionContainer
            flattenedZIndex)
  ++ getEffectsStyles n
  ++ blendStyles n.

(** A rotated vector with a bounding box is centred in a box of that size. *)
Definition useAabbWrapper : bool :=
  isMeaningfulRotation (rotation n) && bool_decide (absoluteBoundingBox n ≠ None).

Definition buildVectorContent (classes : list string)
    (innerStyles : list string) (contentHtml : string) : string :=
  match (if useAabbWrapper then absoluteBoundingBox n else None), anyContainer with
  | Some box, Some c =>
      let r := roundPx4 in
      let outerStyles :=
        ["width: " +:+ numberToString (r (rectWidth box)) +:+ "px";
         "height: " +:+ numberToString (r (rectHeight box)) +:+ "px"]
        ++ getPositionStylesRelativeToContainer node c anyContainerZ 4 in
      let innerWrapperStyles :=
        ["width: " +:+ numberToString (r (rectWidth box)) +:+ "px";
         "height: " +:+ numberToString (r (rectHeight box)) +:+ "px";
         "position: absolute";
         "left: 50%";
         "top: 50%";
         "transform: translate(-50%, -50%)"] in
      openPrefix +:+ divOpen classes outerStyles
        +:+ LF +:+ innerIndent +:+ "<div "
        +:+ getStyleAttr innerWrapperStyles outputFormat +:+ ">"
        +:+ (if negb (String.eqb contentHtml "")
             then LF +:+ contentHtml +:+ LF +:+ innerIndent else "")
        +:+ "</div>"
        +:+ closePrefix +:+ "</div>"
  | _, _ =>
      openPrefix +:+ divOpen classes innerStyles
        +:+ (if negb (String.eqb contentHtml "")
             then LF +:+ contentHtml +:+ LF +:+ spaces2 (baseIndent + indent)
             else "")
        +:+ "</div>"
  end.

(** The markup of the placeholder box. *)
Definition placeholderBox (sizing : list string * list string) : string :=
  buildVectorContent (fst sizing)
    (placeholderStyles (vectorBaseStyles sizing) useAabbWrapper) "".

(** The export of the vector as SVG text, inlined. *)
Definition exportedVector (sizing : list string * list string) : Conv string :=
  svgBytes ← await (exportAsync node);
  let svgText := decodeSvgBytes svgBytes in
  modify (fun context => setSvgIdCounter (svgIdCounter context + 1) context);;
  counter ← liftState (fun context => (svgIdCounter context, context));
  let svgText := makeSvgIdsUnique svgText ("s" +:+ pretty counter) in
  let svgText :=
    if negb useAabbWrapper
    then normalizeSvgToNodeSize svgText (width n) (height n) else svgText in
  let svgIndent :=
    spaces2 (if useAabbWrapper then baseIndent + indent + 2
             else baseIndent + indent + 1) in
  let indentedSvg :=
    trimEnd (join LF (map (fun line => svgIndent +:+ line)
                        (split "010"%char svgText))) in
  let inlineStyles :=
    if negb useAabbWrapper && isMeaningfulRotation (rotation n)
    then vectorBaseStyles sizing ++ rotationStyles n else vectorBaseStyles sizing in
  mret (buildVectorContent (fst sizing) inlineStyles indentedSvg).

Definition vectorBlock : Conv string :=
  sizing ← liftState (registerSizingUtilities n parentLayoutMode);
  let usePlaceholder := hasInvisibleStrokesOnly n in
  if usePlaceholder then mret (placeholderBox sizing)
  else
    (* try { export } catch (vectorErr) { placeholder } *)
    tryCatch (exportedVector sizing) (fun vectorErr => mret (placeholderBox sizing)).

End LeafBlocks.

(** *** The walker *)

(** The body of [nodeToHtmlCss] for a node whose children have the
    conversions [kids]. *)
Definition nodeBody (node : SceneNode) (kids : list ChildEntry) : Emitter :=
  fun parentLayoutMode parentFrame parentGroup outputFormat indent baseIndent
      positionContainer flattenedZIndex =>
    if negb (visible (props node)) then mret ""
    else
      let t := type (props node) in
      if isFrameLike t then
        frameBlock node kids parentLayoutMode parentFrame parentGroup
          outputFormat indent baseIndent positionContainer flattenedZIndex
      else if isGroupLike t then
        groupBlock node kids parentFrame parentGroup
          outputFormat indent baseIndent positionContainer flattenedZIndex
      else if String.eqb t "TEXT" then
        textBlock node parentLayoutMode parentFrame parentGroup
          outputFormat indent baseIndent positionContainer flattenedZIndex
      else if String.eqb t "RECTANGLE" then
        rectangleBlock node parentLayoutMode parentFrame parentGroup
          outputFormat indent baseIndent positionContainer flattenedZIndex
      else
        let fill := getSolidFill (props node) in
        let blurRadius := getLayerBlurRadius (props node) in
        if String.eqb t "ELLIPSE" && truthy fill && Qltb 0 blurRadius then
          ellipseBlurBlock node parentFrame parentGroup
            outputFormat indent baseIndent positionContainer flattenedZIndex
            (default "" fill) blurRadius
        else if isVectorNode node then
          vectorBlock node parentLayoutMode parentFrame parentGroup
            outputFormat indent baseIndent positionContainer flattenedZIndex
        else mret "".

Fixpoint nodeToHtmlCss (node : SceneNode) : Emitter :=
  nodeBody node
    (map (fun child =>
            {| entryNode := child;
               entryEmit := nodeToHtmlCss child;
               entryChildren :=
                 map (fun grandchild => (grandchild, nodeToHtmlCss grandchild))
                     (children child) |})
         (children node)).

(** ** The entry points *)

(** [encodeURIComponent], on well-formed strings. *)
Variable encodeURIComponent : string → string.

Inductive ExportResult :=
  | HtmlResult (htmlText css : string) (frameWidth frameHeight : Q)
  | ReactResult (jsx css : string) (frameWidth frameHeight : Q).

(** [/font awesome|awesome/i.test(f)]. *)
Definition isIconFont (f : string) : bool := includes "awesome" (asciiToLowerCase f).

Definition allowedTypes : list string :=
  ["FRAME"; "GROUP"; "TRANSFORM_GROUP"; "COMPONENT"; "INSTANCE"].

(** [exportSelection]: [loaded] is the outcome of loading the page and
    [selection] the selection of the page. *)
Definition exportSelection (loaded : Outcome Datatypes.unit)
    (selection : list SceneNode) (format : OutputFormat) : Outcome ExportResult :=
  match loaded with
  | Threw e => Threw e
  | Returned _ =>
  match (match selection with
         | sel :: _ =>
             if bool_decide (type (props sel) ∈ allowedTypes) then Some sel else None
         | [] => None
         end) with
  | None => Threw (ThrownError "Select a frame, component, instance, or group.")
  | Some rootNode =>
      let context := newContext in
      let outputFormat := format in
      (* HTML body content is indented by 2 *)
      let baseIndent := if isReactFormat format then 0 else 2 in
      match nodeToHtmlCss rootNode None None None outputFormat 0 baseIndent None 0
              context with
      | (Threw e, _) => Threw e
      | (Returned bodyContent, context) =>
          let googleFonts :=
            join "&"
              (map (fun f => "family=" +:+ replaceAll "%20" "+" (encodeURIComponent f)
                               +:+ ":wght@400;500;600;700")
                   (filter (fun f => isIconFont f = false) (fontFamiliesUsed context))) in
          let fontImport :=
            if negb (String.eqb googleFonts "")
            then "@import url('https://fonts.googleapis.com/css2?" +:+ googleFonts
                   +:+ "&display=swap');" +:+ LF +:+ LF
            else "" in
          (* HTML uses a link in the document head for fonts *)
          let css :=
            (if isReactFormat format then fontImport else "")
            +:+ "body, p { margin: 0; }" +:+ LF +:+ LF
            +:+ styleRules (styleEntries context) in
          let frameWidth := width (props rootNode) in
          let frameHeight := height (props rootNode) in
          if isReactFormat format then
            let indented := "    " +:+ replaceAll LF (LF +:+ "    ") bodyContent in
            let jsx :=
              "import './styles.css';" +:+ LF +:+ LF
              +:+ "export default function ExportedComponent() {" +:+ LF
              +:+ "  return (" +:+ LF +:+ indented +:+ LF +:+ "  );" +:+ LF
              +:+ "}" +:+ LF in
            Returned (ReactResult jsx css frameWidth frameHeight)
          else
            let fontsLink :=
              if negb (String.eqb googleFonts "") then
                "    <link rel=" +:+ DQ +:+ "preconnect" +:+ DQ +:+ " href=" +:+ DQ
                  +:+ "https://fonts.googleapis.com" +:+ DQ +:+ ">" +:+ LF
                +:+ "    <link rel=" +:+ DQ +:+ "preconnect" +:+ DQ +:+ " href=" +:+ DQ
                  +:+ "https://fonts.gstatic.com" +:+ DQ +:+ " crossorigin>" +:+ LF
                +:+ "    <link href=" +:+ DQ
                  +:+ "https://fonts.googleapis.com/css2?" +:+ googleFonts
                  +:+ "&display=swap" +:+ DQ +:+ " rel=" +:+ DQ +:+ "stylesheet"
                  +:+ DQ +:+ ">" +:+ LF
              else "" in
            let htmlText :=
              "<!doctype html>" +:+ LF
              +:+ "<html lang=" +:+ DQ +:+ "en" +:+ DQ +:+ ">" +:+ LF
              +:+ "  <head>" +:+ LF
              +:+ "    <meta charset=" +:+ DQ +:+ "utf-8" +:+ DQ +:+ ">" +:+ LF
              +:+ "    <meta name=" +:+ DQ +:+ "viewport" +:+ DQ +:+ " content=" +:+ DQ
                +:+ "width=device-width, initial-scale=1" +:+ DQ +:+ ">" +:+ LF
              +:+ "    <title>Figma Export</title>" +:+ LF
              +:+ fontsLink
              +:+ "    <link rel=" +:+ DQ +:+ "stylesheet" +:+ DQ +:+ " href=" +:+ DQ
                +:+ "styles.css" +:+ DQ +:+ ">" +:+ LF
              +:+ "  </head>" +:+ LF
              +:+ "  <body>" +:+ LF
              +:+ bodyContent +:+ LF
              +:+ "  </body>" +:+ LF
              +:+ "</html>" in
            Returned (HtmlResult htmlText css frameWidth frameHeight)
      end
  end
  end.

Inductive ExportMessage :=
  | MsgExport (format : option OutputFormat)
  | MsgCancel.

(** What the handler does to the host. *)
Inductive HostAction :=
  | PostExportResult (result : ExportResult)
  | PostError (message : string)
  | ClosePlugin.

(** [figma.ui.onmessage]. *)
Definition onmessage (loaded : Outcome Datatypes.unit) (selection : list SceneNode)
    (msg : ExportMessage) : list HostAction :=
  match msg with
  | MsgExport fmt =>
      let format := default html fmt in
      match exportSelection loaded selection format with
      | Returned result => [PostExportResult result]
      | Threw error =>
          [PostError (match error with
                      | ThrownError message => message
                      | ThrownValue => "Export failed."
                      end)]
      end
  | MsgCancel => [ClosePlugin]
  end.

(** ** Text nodes whose fills can be read

    The fills of a text node are an array, or they are mixed and the host
    returns the styled segments of the text. *)
Definition textReadable (node : SceneNode) : bool :=
  negb (String.eqb (type (props node)) "TEXT")
  || match fills (props node) with
     | Some (Val _) => true
     | Some IsMixed =>
         match getStyledTextSegments node with
         | Returned _ => true
         | Threw _ => false
         end
     | None => false
     end.

(** The nodes the walker converts as vectors with an export. *)
Definition isExportedVector (node : SceneNode) : bool :=
  visible (props node)
  && negb (isFrameLike (type (props node)))
  && negb (isGroupLike (type (props node)))
  && negb (String.eqb (type (props node)) "TEXT")
  && negb (String.eqb (type (props node)) "RECTANGLE")
  && negb (String.eqb (type (props node)) "ELLIPSE"
           && truthy (getSolidFill (props node))
           && Qltb 0 (getLayerBlurRadius (props node)))
  && isVectorNode node
  && negb (hasInvisibleStrokesOnly (props node)).

(** Conversions of a node, of a child entry, that return for all arguments. *)
Definition EmitterReturns (emit : Emitter) : Prop :=
  ∀ parentLayoutMode parentFrame parentGroup outputFormat indent baseIndent
    positionContainer flattenedZIndex,
    Returns (emit parentLayoutMode parentFrame parentGroup outputFormat indent
               baseIndent positionContainer flattenedZIndex).

Definition EntryReturns (e : ChildEntry) : Prop :=
  EmitterReturns (entryEmit e)
  ∧ Forall (fun ge => EmitterReturns (snd ge)) (entryChildren e).

(** ** The emission of mask runs, as specified *)

(** A sibling with its index in the list. *)
Definition Sibling : Type := nat * (SceneNode * Run).
Definition isMaskSibling (s : Sibling) : bool := isMaskNode (fst (snd s)).

Section MaskRunsAsSpecified.

Variable flatten : nat → option (Conv string).
Variable plainArgs : nat → option SceneNode * Z.
Variable wrapperOpen : nat → SceneNode → string.
Variable wrapperClose : string.

(** A sibling under no mask is emitted the way its container emits a single
    child (a frame without layout emits the children of a group instead). *)
Definition emitAlone (s : Sibling) (html : string) : Conv string :=
  h ← match flatten (fst s) with
      | Some inner => inner
      | None => snd (snd s) (fst (plainArgs (fst s))) (snd (plainArgs (fst s)))
      end;
  mret (html +:+ h).

(** A sibling of the run of [mask] is emitted relative to the mask, with its
    rank in the run. *)
Definition emitMasked (mask : Sibling) (s : Sibling) (html : string) : Conv string :=
  h ← snd (snd s) (Some (fst (snd mask)))
        (Z.of_nat (fst s) - Z.of_nat (fst mask) - 1);
  mret (html +:+ h).

(** The mask itself is emitted; then, when the run is not empty, the run
    inside the wrapper. *)
Definition emitMaskRun (r : Sibling * list Sibling) (html : string) : Conv string :=
  let mask := fst r in
  h ← snd (snd mask) (fst (plainArgs (fst mask))) (snd (plainArgs (fst mask)));
  let html := html +:+ h in
  match snd r with
  | [] => mret html
  | members =>
      html ← forEach (emitMasked mask) members
               (html +:+ wrapperOpen (fst mask) (fst (snd mask)));
      mret (html +:+ wrapperClose)
  end.

Definition emitSplit (split : list Sibling * list (Sibling * list Sibling))
    (html : string) : Conv string :=
  html ← forEach emitAlone (fst split) html;
  forEach emitMaskRun (snd split) html.

Definition emitMaskRuns (nodes : list (SceneNode * Run)) (html : string)
  : Conv string :=
  emitSplit (maskRuns isMaskSibling (indexFrom 0 nodes)) html.

End MaskRunsAsSpecified.

(** The declarations the specification asks of the wrapper of a run. *)
Definition clipWrapperStyles (mask : SceneNode) (clipPath : string) : list string :=
  ["width: " +:+ numberToString (roundDim (width (props mask))) +:+ "px";
   "height: " +:+ numberToString (roundDim (height (props mask))) +:+ "px";
   "position: absolute";
   "overflow: hidden";
   "clip-path: " +:+ clipPath].

(** The specification's reading, which has no condition on the shape of
    the mask. *)
Definition MaskRunsAsStated : Prop :=
  ∀ nodes plainArgs wrapperOpen wrapperClose html context,
    siblingLoop nodes (fun _ => None) plainArgs wrapperOpen wrapperClose
      (length nodes) 0 html context
    = emitMaskRuns (fun _ => None) plainArgs wrapperOpen wrapperClose nodes html
        context.

(** The node types whose shape gives a clip path. *)
Definition clipShapes : list string :=
  ["RECTANGLE"; "ELLIPSE"; "FRAME"; "GROUP"; "COMPONENT"; "INSTANCE"].

(** Conversions of a node, of a child entry, that only extend the context. *)
Definition EmitterWithin (emit : Emitter) : Prop :=
  ∀ parentLayoutMode parentFrame parentGroup outputFormat indent baseIndent
    positionContainer flattenedZIndex,
    Within (emit parentLayoutMode parentFrame parentGroup outputFormat indent
              baseIndent positionContainer flattenedZIndex).

Definition EntryWithin (e : ChildEntry) : Prop :=
  EmitterWithin (entryEmit e)
  ∧ Forall (fun ge => EmitterWithin (snd ge)) (entryChildren e).

(** The stylesheet of an export result. *)
Definition resultCss (result : ExportResult) : string :=
  match result with
  | HtmlResult _ css _ _ => css
  | ReactResult _ css _ _ => css
  end.

(** * Properties *)

Example getBaseNameAndSuffix_gap : getBaseNameAndSuffix "gap-8" = ("gap", 8).
Proof. reflexivity. Qed.
Example getBaseNameAndSuffix_rows :
  getBaseNameAndSuffix "grid-rows-12" = ("grid-rows", 12).
Proof. reflexivity. Qed.
Example getBaseNameAndSuffix_flex : getBaseNameAndSuffix "flex" = ("flex", 0).
Proof. reflexivity. Qed.
Example uniqueNames_3 :
  uniqueNames 3 "Box" newContext = ["Box"; "Box-2"; "Box-3"].
Proof. reflexivity. Qed.

(** ** The unique-name generator *)

Lemma runCalls_unique_step (n : nat) (base : string) (context : ExportContext) :
  uniqueNames (S n) base context
  = fst (getUniqueClassName base context)
    :: uniqueNames n base (snd (getUniqueClassName base context)).
Proof.
  unfold uniqueNames. simpl.
  destruct (runCalls (replicate n (CallUnique base)) _) as [rs c2].
  reflexivity.
Qed.

Lemma uniqueNames_from (n : nat) (base : string) (context : ExportContext) :
  uniqueNames n base context
  = map (fun k : Z => if decide (k = 1) then base else base +:+ "-" +:+ pretty k)
        (seqZ (default 0 (nameCounts context !! base) + 1) (Z.of_nat n)).
Proof.
  revert context. induction n as [|n IH]; intros context.
  - reflexivity.
  - rewrite runCalls_unique_step, IH.
    rewrite (seqZ_cons _ (Z.of_nat (S n))) by lia.
    simpl. f_equal.
    rewrite lookup_insert_eq. simpl.
    do 2 f_equal; lia.
Qed.

Lemma string_app_length (a b : string) :
  String.length (a +:+ b) = (String.length a + String.length b)%nat.
Proof. induction a as [|c a IH]; simpl; [reflexivity | now rewrite IH]. Qed.

Lemma string_app_ne_self (a b : string) : b ≠ "" → a ≠ a +:+ b.
Proof.
  intros Hb E. apply (f_equal String.length) in E.
  rewrite string_app_length in E.
  destruct b; [congruence | simpl in E; lia].
Qed.

(** C2: [N >= 1] calls of [getUniqueClassName] with one base on a fresh
    context return [base], [base-2], [base-3], ..., [base-N] in that order,
    and no name (so no number) is returned twice. *)
Theorem uniqueName_sequence (base : string) (N : nat) :
  (1 ≤ N)%nat →
  uniqueNames N base newContext
  = base :: map (fun k : Z => base +:+ "-" +:+ pretty k)
                (seqZ 2 (Z.of_nat N - 1))
  ∧ NoDup (uniqueNames N base newContext).
Proof.
  intros HN.
  assert (Hseq : uniqueNames N base newContext
    = base :: map (fun k : Z => base +:+ "-" +:+ pretty k)
                  (seqZ 2 (Z.of_nat N - 1))).
  { rewrite uniqueNames_from. simpl.
    rewrite (seqZ_cons 1) by lia. simpl. f_equal.
    replace (Z.succ 1) with 2 by lia.
    replace (Z.pred (Z.of_nat N)) with (Z.of_nat N - 1) by lia.
    apply map_ext_in. intros k Hk.
    apply list_elem_of_In, elem_of_seqZ in Hk.
    destruct (decide (k = 1)); [lia | reflexivity]. }
  split; [exact Hseq |].
  rewrite Hseq. apply NoDup_cons. split.
  - intros Hin. apply list_elem_of_In, in_map_iff in Hin.
    destruct Hin as (k & Hk & _).
    symmetry in Hk. revert Hk. apply string_app_ne_self. discriminate.
  - assert (Hinj : Inj (=) (=) (fun k : Z => base +:+ "-" +:+ pretty k)).
    { intros x y E. apply (inj (String.app base)) in E.
      apply (inj (String.app "-")) in E.
      now apply (inj pretty) in E. }
    apply (NoDup_fmap_2 _), NoDup_seqZ.
Qed.


(** ** Decimal numerals *)

Lemma chars_app (a b : string) : chars (a +:+ b) = chars a ++ chars b.
Proof. induction a as [|c a IH]; simpl; [reflexivity | now rewrite IH]. Qed.

Lemma unchars_chars (s : string) : unchars (chars s) = s.
Proof. apply string_of_list_ascii_of_string. Qed.

Lemma chars_inj (a b : string) : chars a = chars b → a = b.
Proof. intros E. rewrite <- (unchars_chars a), <- (unchars_chars b). now rewrite E. Qed.

Lemma pretty_N_char_digit (x : N) : isDigit (pretty_N_char x) = true.
Proof. unfold pretty_N_char. repeat case_match; reflexivity. Qed.

Lemma pretty_N_go_digits (x : N) (s : string) :
  forallb isDigit (chars s) = true →
  forallb isDigit (chars (pretty_N_go x s)) = true.
Proof.
  revert s. induction (N.lt_wf_0 x) as [x _ IH]; intros s Hs.
  assert (x = 0 ∨ 0 < x)%N as [->|?] by lia.
  - now rewrite pretty_N_go_0.
  - rewrite pretty_N_go_step by done. apply IH.
    + now apply N.div_lt.
    + simpl. now rewrite pretty_N_char_digit.
Qed.

Lemma pretty_N_go_nonempty (x : N) (s : string) :
  (0 < x)%N → pretty_N_go x s ≠ "".
Proof.
  revert s. induction (N.lt_wf_0 x) as [x _ IH]; intros s Hx.
  rewrite pretty_N_go_step by done.
  destruct (N.eq_0_gt_0_cases (x `div` 10)%N) as [->|?].
  - rewrite pretty_N_go_0. discriminate.
  - apply IH; [now apply N.div_lt | done].
Qed.

Lemma pretty_pos_digits (n : Z) :
  0 < n → forallb isDigit (chars (pretty n)) = true ∧ pretty n ≠ "".
Proof.
  intros Hn. destruct n as [|p|p]; try lia.
  unfold pretty, pretty_Z, pretty, pretty_positive, pretty, pretty_N.
  destruct (decide (N.pos p = 0%N)); [discriminate |].
  split; [now apply pretty_N_go_digits | apply pretty_N_go_nonempty; lia].
Qed.

Lemma spanWhile_app_stop {A} (p : A → bool) (l1 l2 : list A) (x : A) :
  forallb p l1 = true → p x = false →
  spanWhile p (l1 ++ x :: l2) = (l1, x :: l2).
Proof.
  intros H1 Hx. induction l1 as [|y l1 IH]; simpl in *.
  - now rewrite Hx.
  - apply andb_prop in H1 as [Hy H1]. rewrite Hy, (IH H1). reflexivity.
Qed.

Lemma forallb_rev {A} (p : A → bool) (l : list A) :
  forallb p (rev l) = forallb p l.
Proof.
  induction l as [|x l IH]; simpl; [reflexivity |].
  rewrite forallb_app, IH. simpl. rewrite andb_true_r. apply andb_comm.
Qed.

(** The suffix pattern reads back what the name generator wrote. *)
Lemma matchDashDigitsEnd_name (b : string) (n : Z) :
  0 < n →
  matchDashDigitsEnd (b +:+ "-" +:+ pretty n) = Some (b, chars (pretty n)).
Proof.
  intros Hn. destruct (pretty_pos_digits n Hn) as [Hd Hne].
  unfold matchDashDigitsEnd.
  rewrite !chars_app, !rev_app_distr. simpl.
  rewrite <- app_assoc. simpl.
  rewrite spanWhile_app_stop; [| now rewrite forallb_rev | reflexivity].
  destruct (rev (chars (pretty n))) as [|d ds] eqn:E.
  - apply (f_equal (@rev _)) in E. rewrite rev_involutive in E. simpl in E.
    exfalso. apply Hne. apply chars_inj. exact E.
  - rewrite <- E, !rev_involutive, unchars_chars. reflexivity.
Qed.

Lemma name_suffix_inj (b b' : string) (n n' : Z) :
  0 < n → 0 < n' →
  b +:+ "-" +:+ pretty n = b' +:+ "-" +:+ pretty n' → b = b' ∧ n = n'.
Proof.
  intros Hn Hn' E.
  pose proof (matchDashDigitsEnd_name b n Hn) as M.
  rewrite E, (matchDashDigitsEnd_name b' n' Hn') in M.
  injection M as -> Hc. split; [reflexivity |].
  apply chars_inj in Hc. now apply (inj pretty) in Hc.
Qed.

(** ** Interning of style signatures *)

Lemma minted_name_nonempty (b : string) (n : Z) :
  b ≠ "" → (if decide (n = 1) then b else b +:+ "-" +:+ pretty n) ≠ "".
Proof.
  intros Hb. destruct (decide (n = 1)); [exact Hb |].
  destruct b; [congruence | discriminate].
Qed.

Lemma minted_name_inj (bases : list string) (b b' : string) (n n' : Z) :
  NoSuffixClash bases → b ∈ bases → b' ∈ bases → 1 ≤ n → 1 ≤ n' →
  (if decide (n = 1) then b else b +:+ "-" +:+ pretty n)
  = (if decide (n' = 1) then b' else b' +:+ "-" +:+ pretty n') →
  b = b' ∧ n = n'.
Proof.
  intros Hclash Hb Hb' Hn Hn' E.
  destruct (decide (n = 1)) as [->|N1], (decide (n' = 1)) as [->|N1'].
  - now split.
  - exfalso. apply (Hclash b' b n'); [done | done | lia | exact E].
  - exfalso. apply (Hclash b b' n); [done | done | lia | now symmetry].
  - apply name_suffix_inj; [lia | lia | exact E].
Qed.

Lemma truthy_Some (s : string) : s ≠ "" → truthy (Some s) = true.
Proof.
  intros H. simpl. destruct (String.eqb_spec s ""); [congruence | reflexivity].
Qed.

Lemma getUniqueClassName_counts (base : string) (context : ExportContext) :
  CountsPositive context →
  CountsPositive (snd (getUniqueClassName base context)).
Proof.
  intros HC b v Hv. simpl in Hv.
  destruct (decide (base = b)) as [->|Hne].
  - rewrite lookup_insert_eq in Hv. injection Hv as <-.
    destruct (nameCounts context !! b) as [w|] eqn:Ew; simpl; [| lia].
    specialize (HC _ _ Ew). lia.
  - rewrite lookup_insert_ne in Hv by done. eauto.
Qed.

Lemma getUniqueClassName_minted (bases : list string) (base : string)
    (context : ExportContext) :
  CountsPositive context →
  MintedNames bases context →
  MintedNames bases (snd (getUniqueClassName base context)).
Proof.
  intros HC HM sig c Hc. simpl in Hc.
  destruct (HM sig c Hc) as (b & n & Hb & Hn & ->).
  exists b, n. split; [done |]. split; [| done]. simpl.
  destruct (decide (base = b)) as [->|Hne].
  - rewrite lookup_insert_eq. simpl. lia.
  - rewrite lookup_insert_ne by done. lia.
Qed.

Lemma getClassForStyle_step (bases : list string) (base : string)
    (lines : list string) (context : ExportContext) :
  (∀ b, b ∈ bases → b ≠ "") → base ∈ bases →
  CountsPositive context → MintedNames bases context →
  let c := fst (getClassForStyle base lines context) in
  let context' := snd (getClassForStyle base lines context) in
  styleMap context' !! join LF lines = Some c
  ∧ styleMap context ⊆ styleMap context'
  ∧ CountsPositive context'
  ∧ MintedNames bases context'
  ∧ dom (styleMap context') = {[join LF lines]} ∪ dom (styleMap context)
  ∧ utilityClasses context' = utilityClasses context
  ∧ (EntriesAccounted context → EntriesAccounted context')
  ∧ (NoSuffixClash bases → StyleMapInjective context →
     StyleMapInjective context').
Proof.
  intros Hne Hbase HC HM. unfold getClassForStyle.
  destruct (styleMap context !! join LF lines) as [e|] eqn:E.
  - destruct (HM _ _ E) as (b & n & Hb & Hn & He).
    rewrite truthy_Some
      by (rewrite He; apply minted_name_nonempty, Hne, Hb).
    simpl. repeat split; try done.
    apply set_eq. intros k. rewrite elem_of_union, elem_of_singleton.
    split; [tauto |]. intros [->|H]; [| done].
    apply elem_of_dom. eauto.
  - simpl.
    pose proof (getUniqueClassName_counts base context HC) as HC'.
    simpl in HC'.
    set (k := default 0 (nameCounts context !! base) + 1) in *.
    assert (Hk : 1 ≤ k).
    { apply (HC' base). apply lookup_insert_eq. }
    repeat split.
    + apply lookup_insert_eq.
    + apply insert_subseteq. exact E.
    + exact HC'.
    + intros sig c' Hc'. simpl in Hc'.
      destruct (decide (join LF lines = sig)) as [<-|Hs].
      * rewrite lookup_insert_eq in Hc'. injection Hc' as <-.
        exists base, k. split; [done |]. split; [| done].
        simpl. rewrite lookup_insert_eq. simpl. lia.
      * rewrite lookup_insert_ne in Hc' by done.
        destruct (HM _ _ Hc') as (b & n & Hb & Hn & ->).
        exists b, n. split; [done |]. split; [| done]. simpl.
        destruct (decide (base = b)) as [<-|Hb'].
        -- rewrite lookup_insert_eq. simpl. unfold k. lia.
        -- rewrite lookup_insert_ne by done. lia.
    + simpl. apply dom_insert_L.
    + unfold EntriesAccounted. simpl. intros HA.
      rewrite length_app, HA, map_size_insert_None by done. simpl. lia.
    + intros Hclash HI s1 s2 c' H1 H2. simpl in H1, H2.
      destruct (decide (join LF lines = s1)) as [<-|N1],
               (decide (join LF lines = s2)) as [<-|N2]; [done | | |].
      * rewrite lookup_insert_eq in H1. injection H1 as <-.
        rewrite lookup_insert_ne in H2 by done.
        destruct (HM _ _ H2) as (b & n & Hb & Hn & Hc).
        apply (minted_name_inj bases) in Hc as [Eb En];
          [| done | done | done | lia | lia].
        subst b. unfold k in *. lia.
      * rewrite lookup_insert_eq in H2. injection H2 as <-.
        rewrite lookup_insert_ne in H1 by done.
        destruct (HM _ _ H1) as (b & n & Hb & Hn & Hc).
        apply (minted_name_inj bases) in Hc as [Eb En];
          [| done | done | done | lia | lia].
        subst b. unfold k in *. lia.
      * rewrite lookup_insert_ne in H1, H2 by done. eauto.
Qed.

Lemma registerUtilityClass_step (cls : string) (lines : list string)
    (context : ExportContext) :
  let context' := registerUtilityClass cls lines context in
  nameCounts context' = nameCounts context
  ∧ styleMap context' = styleMap context
  ∧ utilityClasses context' = {[cls]} ∪ utilityClasses context
  ∧ (EntriesAccounted context → EntriesAccounted context').
Proof.
  unfold registerUtilityClass.
  destruct (decide (cls ∈ utilityClasses context)) as [Hin|Hnin]; simpl.
  - split; [done |]. split; [done |]. split; [set_solver | done].
  - destruct (getBaseNameAndSuffix cls) as [b sfx]. simpl.
    repeat split. unfold EntriesAccounted. simpl. intros HA.
    rewrite length_app, HA, size_union, size_singleton by set_solver.
    simpl. lia.
Qed.

Lemma runCalls_cons (c : RegistryCall) (cs : list RegistryCall)
    (context : ExportContext) :
  runCalls (c :: cs) context
  = (fst (runCall c context) :: fst (runCalls cs (snd (runCall c context))),
     snd (runCalls cs (snd (runCall c context)))).
Proof.
  simpl. destruct (runCall c context) as [r c1]. simpl.
  destruct (runCalls cs c1) as [rs c2]. reflexivity.
Qed.

Lemma runCalls_inv (bases : list string) (cs : list RegistryCall) :
  (∀ b, b ∈ bases → b ≠ "") →
  ∀ context,
  (∀ b, b ∈ styleBases cs → b ∈ bases) →
  CountsPositive context → MintedNames bases context →
  let results := fst (runCalls cs context) in
  let context' := snd (runCalls cs context) in
  CountsPositive context' ∧ MintedNames bases context'
  ∧ styleMap context ⊆ styleMap context'
  ∧ (∀ (i : nat) b l, cs !! i = Some (CallStyle b l) →
       ∃ c, results !! i = Some (Some c)
            ∧ styleMap context' !! join LF l = Some c)
  ∧ dom (styleMap context') = signatures cs ∪ dom (styleMap context)
  ∧ utilityClasses context' = utilityNames cs ∪ utilityClasses context
  ∧ (EntriesAccounted context → EntriesAccounted context')
  ∧ (NoSuffixClash bases → StyleMapInjective context →
     StyleMapInjective context').
Proof.
  intros Hne. induction cs as [|c cs IH]; intros context Hsub HC HM.
  - simpl. repeat split; try done.
    + unfold signatures. simpl. set_solver.
    + unfold utilityNames. simpl. set_solver.
  - rewrite runCalls_cons. cbv zeta. simpl fst. simpl snd.
    destruct c as [base lines | base | cls lines].
    + (* a style request *)
      assert (Hb : base ∈ bases) by (apply Hsub; simpl; left).
      destruct (getClassForStyle_step bases base lines context Hne Hb HC HM)
        as (Hl & Hsubm & HC1 & HM1 & Hdom & Hut & HA & HI).
      simpl runCall.
      destruct (getClassForStyle base lines context) as [c context1].
      simpl in *.
      destruct (IH context1) as (HC2 & HM2 & Hsub2 & Hres & Hdom2 & Hut2 & HA2 & HI2);
        [intros b H; apply Hsub; now right | done | done |].
      repeat split; try done.
      * etrans; done.
      * intros [|i] b l H; simpl in H.
        -- injection H as -> ->. exists c. split; [done |].
           eapply lookup_weaken; done.
        -- destruct (Hres i b l H) as (c0 & ? & ?). exists c0. done.
      * rewrite Hdom2, Hdom. unfold signatures. simpl. set_solver.
      * rewrite Hut2, Hut. unfold utilityNames. simpl. done.
      * auto.
      * auto.
    + (* a direct unique name *)
      pose proof (getUniqueClassName_counts base context HC) as HC1.
      pose proof (getUniqueClassName_minted bases base context HC HM) as HM1.
      simpl runCall. simpl in HC1, HM1. simpl.
      set (context1 := setNameCounts _ context) in *.
      destruct (IH context1) as (HC2 & HM2 & Hsub2 & Hres & Hdom2 & Hut2 & HA2 & HI2);
        [intros b H; apply Hsub; exact H | done | done |].
      repeat split; try done.
      intros [|i] b l H; simpl in H; [discriminate |].
      destruct (Hres i b l H) as (c0 & ? & ?). exists c0. done.
    + (* a utility class *)
      destruct (registerUtilityClass_step cls lines context)
        as (Hcnt & Hmap & Hut & HA).
      simpl runCall. simpl.
      set (context1 := registerUtilityClass cls lines context) in *.
      destruct (IH context1) as (HC2 & HM2 & Hsub2 & Hres & Hdom2 & Hut2 & HA2 & HI2).
      * intros b H; apply Hsub; exact H.
      * intros b v Hv. rewrite Hcnt in Hv. eauto.
      * intros sig c Hc. rewrite Hmap in Hc.
        destruct (HM _ _ Hc) as (b & n & Hb & Hn & ->).
        exists b, n. rewrite Hcnt. done.
      * repeat split; try done.
        -- rewrite <- Hmap. done.
        -- intros [|i] b l H; simpl in H; [discriminate |].
           destruct (Hres i b l H) as (c0 & ? & ?). exists c0. done.
        -- rewrite Hdom2, Hmap. done.
        -- rewrite Hut2, Hut. unfold utilityNames. simpl. set_solver.
        -- auto.
        -- intros Hcl HI. apply HI2; [done |].
           intros s1 s2 c. rewrite Hmap. apply HI.
Qed.


(** Base names without a hyphen, such as the PascalCase names the walker
    derives from layer names, never clash. *)
Lemma NoSuffixClash_hyphen_free (bases : list string) :
  forallb (fun b => negb (existsb (Ascii.eqb "-") (chars b))) bases = true →
  NoSuffixClash bases.
Proof.
  intros H b b' n Hb Hb' Hn E.
  rewrite forallb_forall in H.
  apply list_elem_of_In, H, negb_true_iff in Hb'.
  assert (Hex : existsb (Ascii.eqb "-") (chars b') = true); [| congruence].
  rewrite E, !chars_app, !existsb_app. simpl.
  now rewrite orb_true_r.
Qed.


(** ** Order of the serialized stylesheet *)

Lemma insertBy_Permutation {A} (cmp : A → A → Z) (x : A) (l : list A) :
  insertBy cmp x l ≡ₚ x :: l.
Proof.
  induction l as [|y l IH]; simpl; [done |].
  destruct (decide (cmp x y ≤ 0)); [done |].
  rewrite IH. apply Permutation_swap.
Qed.

Lemma sortBy_Permutation {A} (cmp : A → A → Z) (l : list A) :
  sortBy cmp l ≡ₚ l.
Proof.
  induction l as [|x l IH]; simpl; [done |].
  rewrite insertBy_Permutation. now rewrite IH.
Qed.

Lemma insertBy_Sorted {A} (cmp : A → A → Z) (x : A) (l : list A) :
  (∀ a b, 0 < cmp a b → cmp b a ≤ 0) →
  Sorted (fun a b => cmp a b ≤ 0) l →
  Sorted (fun a b => cmp a b ≤ 0) (insertBy cmp x l).
Proof.
  intros Hanti HS. induction HS as [|y l HS IH Hd]; simpl.
  - repeat constructor.
  - destruct (decide (cmp x y ≤ 0)) as [Hle|Hgt].
    + repeat constructor; done.
    + constructor; [exact IH |].
      destruct Hd as [|z l Hyz]; simpl.
      * constructor. apply Hanti. lia.
      * destruct (decide (cmp x z ≤ 0)); constructor; [apply Hanti; lia | done].
Qed.

Lemma sortBy_Sorted {A} (cmp : A → A → Z) (l : list A) :
  (∀ a b, 0 < cmp a b → cmp b a ≤ 0) →
  Sorted (fun a b => cmp a b ≤ 0) (sortBy cmp l).
Proof.
  intros Hanti. induction l as [|x l IH]; simpl; [constructor |].
  now apply insertBy_Sorted.
Qed.

Section Collation.

(** The collation is a consistent comparison: exchanging the arguments
    flips the sign, and "not after" is transitive. *)
Hypothesis localeCompare_antisym :
  ∀ a b, Z.sgn (localeCompare b a) = - Z.sgn (localeCompare a b).
Hypothesis localeCompare_trans :
  ∀ a b c, localeCompare a b ≤ 0 → localeCompare b c ≤ 0 →
    localeCompare a c ≤ 0.

Lemma localeCompare_refl (a : string) : localeCompare a a = 0.
Proof using localeCompare_antisym. pose proof (localeCompare_antisym a a). lia. Qed.

Lemma compareEntries_antisym (a b : StyleEntry) :
  Z.sgn (compareEntries b a) = - Z.sgn (compareEntries a b).
Proof using localeCompare_antisym.
  unfold compareEntries. cbv zeta.
  pose proof (localeCompare_antisym (baseName a) (baseName b)).
  repeat case_decide; lia.
Qed.

Lemma compareEntries_trans (a b c : StyleEntry) :
  compareEntries a b ≤ 0 → compareEntries b c ≤ 0 → compareEntries a c ≤ 0.
Proof using localeCompare_antisym localeCompare_trans.
  unfold compareEntries. cbv zeta.
  pose proof (localeCompare_antisym (baseName a) (baseName b)).
  pose proof (localeCompare_antisym (baseName b) (baseName c)).
  pose proof (localeCompare_antisym (baseName a) (baseName c)).
  pose proof (localeCompare_trans (baseName a) (baseName b) (baseName c)).
  pose proof (localeCompare_trans (baseName b) (baseName c) (baseName a)).
  pose proof (localeCompare_trans (baseName c) (baseName a) (baseName b)).
  repeat case_decide; lia.
Qed.

(** C3 (as amended): the stylesheet lists the registered entries, each
    once, in ascending order of (baseName, suffix), so for one base name
    the unsuffixed entry comes before the entry with suffix 2; and the
    rules are the same for any two orders of registration of the same
    entries, as long as no two of them tie on (baseName, suffix).  (The
    entries themselves, their class names and suffixes, are assigned in
    visit order.) *)
Theorem stylesheet_sorted (entries : list StyleEntry) :
  Sorted (fun a b => compareEntries a b ≤ 0) (sortEntries entries)
  ∧ sortEntries entries ≡ₚ entries
  ∧ (∀ e0 e2, baseName e0 = baseName e2 → suffix e0 = 0 → suffix e2 = 2 →
       sortEntries [e2; e0] = [e0; e2])
  ∧ (∀ entries', NoTies entries → entries ≡ₚ entries' →
       styleRules entries = styleRules entries').
Proof using localeCompare_antisym localeCompare_trans.
  assert (Hflip : ∀ a b, 0 < compareEntries a b → compareEntries b a ≤ 0).
  { intros a b. pose proof (compareEntries_antisym a b). lia. }
  split; [| split; [| split]].
  - apply sortBy_Sorted, Hflip.
  - apply sortBy_Permutation.
  - intros e0 e2 Hb H0 H2. unfold sortEntries, sortBy. simpl.
    assert (Hc : compareEntries e2 e0 = 2).
    { unfold compareEntries. cbv zeta.
      rewrite <- Hb, localeCompare_refl.
      destruct (decide (0 ≠ 0)); [done | lia]. }
    destruct (decide (compareEntries e2 e0 ≤ 0)); [lia | reflexivity].
  - intros entries' Hties Hperm. unfold styleRules. do 2 f_equal.
    assert (Htrans : Transitive (fun a b => compareEntries a b ≤ 0)).
    { intros a b c. apply compareEntries_trans. }
    apply (Sorted_unique_strong (fun a b => compareEntries a b ≤ 0)).
    + intros x1 x2 H1 H2 H12 H21.
      apply Hties.
      * now rewrite <- (sortBy_Permutation compareEntries entries).
      * rewrite Hperm.
        now rewrite <- (sortBy_Permutation compareEntries entries').
      * pose proof (compareEntries_antisym x1 x2). lia.
    + apply sortBy_Sorted, Hflip.
    + apply sortBy_Sorted, Hflip.
    + unfold sortEntries. now rewrite !sortBy_Permutation.
Qed.

End Collation.

(** ** Name sanitization *)

Lemma chars_unchars (l : list ascii) : chars (unchars l) = l.
Proof. apply list_ascii_of_string_of_list_ascii. Qed.

Lemma dropWhile_forallb {A} (p q : A → bool) (l : list A) :
  forallb q l = true → forallb q (dropWhile p l) = true.
Proof.
  induction l as [|x l IH]; simpl; [done |].
  intros H. apply andb_prop in H as [Hx Hl].
  destruct (p x); [auto | simpl; now rewrite Hx, Hl].
Qed.

Lemma dropWhileEnd_forallb {A} (p q : A → bool) (l : list A) :
  forallb q l = true → forallb q (dropWhileEnd p l) = true.
Proof.
  intros H. unfold dropWhileEnd.
  rewrite forallb_rev. apply dropWhile_forallb. now rewrite forallb_rev.
Qed.

Lemma dropWhile_none {A} (p : A → bool) (l : list A) :
  forallb (fun x => negb (p x)) l = true → dropWhile p l = l.
Proof.
  destruct l as [|x l]; simpl; [done |].
  intros H. apply andb_prop in H as [Hx _].
  now destruct (p x).
Qed.

Lemma dropWhileEnd_none {A} (p : A → bool) (l : list A) :
  forallb (fun x => negb (p x)) l = true → dropWhileEnd p l = l.
Proof.
  intros H. unfold dropWhileEnd.
  rewrite dropWhile_none by now rewrite forallb_rev.
  apply rev_involutive.
Qed.

Lemma dropWhile_idem {A} (p : A → bool) (l : list A) :
  dropWhile p (dropWhile p l) = dropWhile p l.
Proof.
  induction l as [|x l IH]; simpl; [done |].
  destruct (p x) eqn:E; [exact IH | simpl; now rewrite E].
Qed.

Lemma dropWhile_snoc_keep {A} (p : A → bool) (l : list A) (x : A) :
  p x = false → dropWhile p (l ++ [x]) = dropWhile p l ++ [x].
Proof.
  intros Hx. induction l as [|y l IH]; simpl.
  - now rewrite Hx.
  - destruct (p y); [exact IH | reflexivity].
Qed.

(** Stripping at the end keeps a list stripped at the front. *)
Lemma dropWhile_dropWhileEnd {A} (p : A → bool) (l : list A) :
  dropWhile p l = l → dropWhile p (dropWhileEnd p l) = dropWhileEnd p l.
Proof.
  destruct l as [|x l]; [done |]. simpl.
  destruct (p x) eqn:E.
  - intros H. apply (f_equal (@length A)) in H.
    assert (Hle : ∀ m : list A, (length (dropWhile p m) ≤ length m)%nat).
    { induction m as [|y m IH]; simpl; [lia |].
      destruct (p y); simpl; lia. }
    specialize (Hle l). simpl in H. lia.
  - intros _. unfold dropWhileEnd. simpl.
    rewrite dropWhile_snoc_keep by done.
    rewrite rev_app_distr. simpl. now rewrite E.
Qed.

Lemma collapseSpaces_clean (b : bool) (l : list ascii) :
  forallb isNameChar l = true →
  forallb (fun c => isNameChar c && negb (isSpace c)) (collapseSpaces b l) = true.
Proof.
  revert b. induction l as [|c l IH]; intros b; simpl; [done |].
  intros H. apply andb_prop in H as [Hc Hl].
  destruct (isSpace c) eqn:E.
  - destruct b; simpl; auto.
  - simpl. rewrite Hc, E. simpl. auto.
Qed.

Lemma collapseSpaces_none (l : list ascii) :
  forallb (fun c => negb (isSpace c)) l = true → collapseSpaces false l = l.
Proof.
  induction l as [|c l IH]; simpl; [done |].
  intros H. apply andb_prop in H as [Hc Hl].
  destruct (isSpace c); [discriminate |]. now rewrite IH.
Qed.

Lemma filter_all {A} (p : A → bool) (l : list A) :
  forallb p l = true → filter (fun x => p x = true) l = l.
Proof.
  induction l as [|x l IH]; simpl; [done |].
  intros H. apply andb_prop in H as [Hx Hl].
  rewrite filter_cons. destruct (decide (p x = true)); [| done].
  now rewrite IH.
Qed.

Lemma filter_forallb {A} (p : A → bool) (l : list A) :
  forallb p (filter (fun x => p x = true) l) = true.
Proof.
  induction l as [|x l IH]; simpl; [done |].
  rewrite filter_cons. destruct (decide (p x = true)) as [E|]; [| done].
  simpl. now rewrite E.
Qed.

Lemma forallb_weaken {A} (p q : A → bool) (l : list A) :
  (∀ x, p x = true → q x = true) → forallb p l = true → forallb q l = true.
Proof.
  intros Hpq. induction l as [|x l IH]; simpl; [done |].
  intros H. apply andb_prop in H as [Hx Hl]. now rewrite (Hpq x Hx), IH.
Qed.

(** The characters of a sanitized name lie in [[a-z0-9-_]], and the name
    neither starts nor ends with a hyphen. *)
Lemma sanitizeName_shape (name : string) :
  forallb (fun c => isNameChar c && negb (isSpace c))
          (chars (sanitizeName name)) = true
  ∧ dropWhile isHyphen (chars (sanitizeName name)) = chars (sanitizeName name)
  ∧ dropWhileEnd isHyphen (chars (sanitizeName name))
    = chars (sanitizeName name).
Proof.
  unfold sanitizeName, trim. cbv zeta. rewrite !chars_unchars.
  set (l := collapseSpaces false _).
  assert (Hl : forallb (fun c => isNameChar c && negb (isSpace c)) l = true).
  { apply collapseSpaces_clean, dropWhileEnd_forallb, dropWhile_forallb,
      filter_forallb. }
  split; [| split].
  - now apply dropWhileEnd_forallb, dropWhile_forallb.
  - apply dropWhile_dropWhileEnd, dropWhile_idem.
  - unfold dropWhileEnd at 1 2. rewrite rev_involutive, dropWhile_idem.
    reflexivity.
Qed.

Section LowerCase.

(** Lower-casing leaves a string of lower-case letters, digits, hyphens,
    underscores and spaces as it is. *)
Hypothesis toLowerCase_fixes_names :
  ∀ s, forallb isNameChar (chars s) = true → toLowerCase s = s.

(** C9: [sanitizeName] is idempotent. *)
Theorem sanitizeName_idempotent (x : string) :
  sanitizeName (sanitizeName x) = sanitizeName x.
Proof using toLowerCase_fixes_names.
  destruct (sanitizeName_shape x) as (Hclean & Hfront & Hback).
  set (t := sanitizeName x) in *.
  assert (Hname : forallb isNameChar (chars t) = true).
  { eapply forallb_weaken; [| exact Hclean].
    intros c H. now apply andb_prop in H as [H _]. }
  assert (Hnosp : forallb (fun c => negb (isSpace c)) (chars t) = true).
  { eapply forallb_weaken; [| exact Hclean].
    intros c H. now apply andb_prop in H as [_ H]. }
  unfold sanitizeName at 1. cbv zeta.
  rewrite (toLowerCase_fixes_names t Hname).
  rewrite (filter_all isNameChar) by done.
  unfold trim. rewrite unchars_chars.
  rewrite (dropWhile_none isSpace) by done.
  rewrite (dropWhileEnd_none isSpace) by done.
  rewrite unchars_chars, collapseSpaces_none by done.
  rewrite unchars_chars, Hfront, Hback.
  apply unchars_chars.
Qed.

End LowerCase.

(** ** Text escaping *)

Lemma string_app_cons (c : ascii) (a b : string) :
  String c a +:+ b = String c (a +:+ b).
Proof. reflexivity. Qed.

Lemma string_app_assoc (a b c : string) : (a +:+ b) +:+ c = a +:+ (b +:+ c).
Proof.
  induction a as [|x a IH]; [reflexivity |].
  now rewrite !string_app_cons, IH.
Qed.

Lemma escapeHtml_app (s1 s2 : string) :
  escapeHtml (s1 +:+ s2) = escapeHtml s1 +:+ escapeHtml s2.
Proof.
  induction s1 as [|c s1 IH]; [reflexivity |].
  rewrite string_app_cons. simpl. now rewrite IH, string_app_assoc.
Qed.

Lemma escapeJsxText_app (s1 s2 : string) :
  escapeJsxText (s1 +:+ s2) = escapeJsxText s1 +:+ escapeJsxText s2.
Proof.
  induction s1 as [|c s1 IH]; [reflexivity |].
  rewrite string_app_cons. simpl. now rewrite IH, string_app_assoc.
Qed.

Lemma escapeHtmlChar_safe (c : ascii) :
  forallb (fun d => negb (Ascii.eqb d "<" || Ascii.eqb d ">"
                          || Ascii.eqb d DQUOTE || Ascii.eqb d "'"))
          (chars (escapeHtmlChar c)) = true.
Proof.
  unfold escapeHtmlChar.
  destruct (Ascii.eqb c "&"); [reflexivity |].
  destruct (Ascii.eqb c "<") eqn:E1; [reflexivity |].
  destruct (Ascii.eqb c ">") eqn:E2; [reflexivity |].
  destruct (Ascii.eqb c DQUOTE) eqn:E3; [reflexivity |].
  destruct (Ascii.eqb c "'") eqn:E4; [reflexivity |].
  simpl. now rewrite E1, E2, E3, E4.
Qed.

Lemma escapeJsxChar_safe (c : ascii) :
  forallb (fun d => negb (Ascii.eqb d "<" || Ascii.eqb d ">"
                          || Ascii.eqb d "{" || Ascii.eqb d "}"))
          (chars (escapeJsxChar c)) = true.
Proof.
  unfold escapeJsxChar.
  destruct (Ascii.eqb c "&"); [reflexivity |].
  destruct (Ascii.eqb c "<") eqn:E1; [reflexivity |].
  destruct (Ascii.eqb c ">") eqn:E2; [reflexivity |].
  destruct (Ascii.eqb c "{") eqn:E3; [reflexivity |].
  destruct (Ascii.eqb c "}") eqn:E4; [reflexivity |].
  simpl. now rewrite E1, E2, E3, E4.
Qed.

(** C8 (as amended): [escapeHtml] rewrites every occurrence of the
    ampersand, the angle brackets, the double quote and the apostrophe to
    its entity and nothing else, so its output holds no angle bracket,
    double quote or apostrophe; [escapeJsxText] rewrites every occurrence of
    the ampersand, the angle brackets and the braces and nothing else, so
    its output holds no angle bracket or brace, and it leaves the double
    quote and the apostrophe as they are. *)
Theorem escape_dialects :
  (∀ text,
     forallb (fun d => negb (Ascii.eqb d "<" || Ascii.eqb d ">"
                             || Ascii.eqb d DQUOTE || Ascii.eqb d "'"))
             (chars (escapeHtml text)) = true)
  ∧ (∀ s1 c s2,
       escapeHtml (s1 +:+ String c s2)
       = escapeHtml s1 +:+ escapeHtmlChar c +:+ escapeHtml s2)
  ∧ (escapeHtmlChar "&" = "&amp;" ∧ escapeHtmlChar "<" = "&lt;"
     ∧ escapeHtmlChar ">" = "&gt;" ∧ escapeHtmlChar DQUOTE = "&quot;"
     ∧ escapeHtmlChar "'" = "&#39;")
  ∧ (∀ c, c ∉ ["&"; "<"; ">"; DQUOTE; "'"]%char →
       escapeHtmlChar c = String c "")
  ∧ (∀ text,
       forallb (fun d => negb (Ascii.eqb d "<" || Ascii.eqb d ">"
                               || Ascii.eqb d "{" || Ascii.eqb d "}"))
               (chars (escapeJsxText text)) = true)
  ∧ (∀ s1 c s2,
       escapeJsxText (s1 +:+ String c s2)
       = escapeJsxText s1 +:+ escapeJsxChar c +:+ escapeJsxText s2)
  ∧ (escapeJsxChar "&" = "&amp;" ∧ escapeJsxChar "<" = "&lt;"
     ∧ escapeJsxChar ">" = "&gt;" ∧ escapeJsxChar "{" = "&#123;"
     ∧ escapeJsxChar "}" = "&#125;")
  ∧ (∀ c, c ∉ ["&"; "<"; ">"; "{"; "}"]%char →
       escapeJsxChar c = String c "").
Proof.
  repeat split; try reflexivity.
  - intros text. induction text as [|c text IH]; simpl; [done |].
    rewrite chars_app, forallb_app, IH, escapeHtmlChar_safe. reflexivity.
  - intros s1 c s2. now rewrite escapeHtml_app.
  - intros c Hc. unfold escapeHtmlChar.
    destruct (Ascii.eqb_spec c "&") as [->|_]; [set_solver |].
    destruct (Ascii.eqb_spec c "<") as [->|_]; [set_solver |].
    destruct (Ascii.eqb_spec c ">") as [->|_]; [set_solver |].
    destruct (Ascii.eqb_spec c DQUOTE) as [->|_]; [set_solver |].
    destruct (Ascii.eqb_spec c "'") as [->|_]; [set_solver |].
    reflexivity.
  - intros text. induction text as [|c text IH]; simpl; [done |].
    rewrite chars_app, forallb_app, IH, escapeJsxChar_safe. reflexivity.
  - intros s1 c s2. now rewrite escapeJsxText_app.
  - intros c Hc. unfold escapeJsxChar.
    destruct (Ascii.eqb_spec c "&") as [->|_]; [set_solver |].
    destruct (Ascii.eqb_spec c "<") as [->|_]; [set_solver |].
    destruct (Ascii.eqb_spec c ">") as [->|_]; [set_solver |].
    destruct (Ascii.eqb_spec c "{") as [->|_]; [set_solver |].
    destruct (Ascii.eqb_spec c "}") as [->|_]; [set_solver |].
    reflexivity.
Qed.

(** ** The gap class of auto-layout frames *)

Lemma gapClasses_add (cls : string) (lines : list string)
    (st : list string * ExportContext) :
  gapClasses (addUtility cls lines st)
  = gapClasses st ++ (if String.prefix "gap-" cls then [cls] else []).
Proof.
  unfold gapClasses, addUtility. simpl. rewrite filter_app. f_equal.
  rewrite filter_cons, filter_nil.
  destruct (String.prefix "gap-" cls); reflexivity.
Qed.

Lemma utilityClasses_add (cls : string) (lines : list string)
    (st : list string * ExportContext) :
  utilityClasses (snd (addUtility cls lines st))
  = {[cls]} ∪ utilityClasses (snd st).
Proof. apply registerUtilityClass_step. Qed.

(** Move a [let] of the program out of the property being proved. *)
Ltac step_let :=
  lazymatch goal with
  | |- ?P (let x := ?A in @?K x) =>
      change (let x := A in P (K x)); let y := fresh x in intros y; cbv beta
  end.

(** C7: among the classes [registerFlexUtilities] returns for a frame,
    those of the form [gap-...] are exactly one class, the one that carries
    the item spacing of the frame, and none at all when the primary-axis
    alignment is [SPACE_BETWEEN]; the gap class is then a registered utility
    class. *)
Theorem flex_gap_class (frame : NodeProps) (context : ExportContext) :
  let result := registerFlexUtilities frame context in
  let gapClass := "gap-" +:+ formatNegativeClassValue (itemSpacing frame) in
  filter (fun c => String.prefix "gap-" c = true) (fst result)
  = (if String.eqb (primaryAxisAlignItems frame) "SPACE_BETWEEN" then []
     else [gapClass])
  ∧ (String.eqb (primaryAxisAlignItems frame) "SPACE_BETWEEN" = false →
     gapClass ∈ utilityClasses (snd result)).
Proof.
  change (FlexGapSpec frame (registerFlexUtilities frame context)).
  cbv delta [registerFlexUtilities]. cbv beta.
  repeat step_let.
  assert (H0 : gapClasses st0 = []) by reflexivity.
  assert (H1 : gapClasses st1 = []).
  { unfold st1, directionClass. rewrite gapClasses_add, H0.
    destruct (String.eqb (layoutMode frame) "HORIZONTAL"); reflexivity. }
  assert (H2 : gapClasses st2 = []).
  { unfold st2. cbv zeta.
    destruct (String.eqb (layoutWrap frame) "WRAP"); [| exact H1].
    destruct (Qltb 0 _); [destruct (String.eqb (layoutMode frame) "HORIZONTAL") |];
      destruct (String.eqb (counterAxisAlignContent frame) "SPACE_BETWEEN");
      rewrite ?gapClasses_add, H1; reflexivity. }
  assert (M2 : ∀ k, k ∈ utilityClasses (snd st3) →
                    k ∈ utilityClasses (snd (addUtility itemsClass
                      ["  align-items: "
                         +:+ mapCounterAxis (counterAxisAlignItems frame) +:+ ";"]
                      st5))).
  { intros k Hk. rewrite utilityClasses_add. apply elem_of_union_r.
    unfold st5. rewrite utilityClasses_add. apply elem_of_union_r.
    unfold st4. cbv zeta.
    destruct allSame; [rewrite utilityClasses_add; now apply elem_of_union_r |].
    repeat (match goal with
            | |- context [if negb ?b then _ else _] => destruct b; simpl negb; cbv iota
            end);
      rewrite ?utilityClasses_add; repeat apply elem_of_union_r; exact Hk. }
  assert (H4 : gapClasses st4 = gapClasses st3).
  { unfold st4. cbv zeta.
    destruct allSame; [rewrite gapClasses_add; apply app_nil_r |].
    repeat (match goal with
            | |- context [if negb ?b then _ else _] => destruct b; simpl negb; cbv iota
            end);
      rewrite ?gapClasses_add, ?app_nil_r; reflexivity. }
  assert (H5 : gapClasses st5 = gapClasses st4).
  { unfold st5, justifyClass. rewrite gapClasses_add.
    repeat (destruct (String.eqb (primaryAxisAlignItems frame) _));
      apply app_nil_r. }
  assert (H6 : gapClasses (addUtility itemsClass
                 ["  align-items: "
                    +:+ mapCounterAxis (counterAxisAlignItems frame) +:+ ";"] st5)
               = gapClasses st5).
  { unfold itemsClass. rewrite gapClasses_add.
    repeat (destruct (String.eqb (counterAxisAlignItems frame) _));
      apply app_nil_r. }
  unfold FlexGapSpec. cbv zeta. rewrite H6, H5, H4.
  unfold st3, isAutoGap in *. cbv zeta in *.
  destruct (String.eqb (primaryAxisAlignItems frame) "SPACE_BETWEEN"); simpl negb in *; cbv iota in *.
  - split; [exact H2 | discriminate].
  - rewrite gapClasses_add, H2.
    assert (Hp : String.prefix "gap-"
                   ("gap-" +:+ formatNegativeClassValue (itemSpacing frame))
                 = true)
      by (destruct (formatNegativeClassValue (itemSpacing frame)); reflexivity).
    rewrite Hp. split; [reflexivity |].
    intros _. apply M2. rewrite utilityClasses_add. set_solver.
Qed.

(** ** Centre constraints *)

(** C5 (general part): for an absolutely positioned child of a layout frame,
    an axis whose constraint is [CENTER] pins its edge to 50%, and the
    [transform] declaration lists, per centred axis, the [-50%] translate
    followed by the residual pixel translate exactly when the rounded
    residual is not zero, then the rotation if any. *)
Theorem center_constraint_styles (node parentFrame : SceneNode) :
  layoutPositioning (props node) = Some "ABSOLUTE" →
  let n := props node in
  let parent := props parentFrame in
  let styles := getAbsolutePositionStyles node (Some parentFrame) in
  let c := default defaultConstraints (constraints n) in
  let offsetX := roundPx (x n + width n / 2 - width parent / 2) in
  let offsetY := roundPx (y n + height n / 2 - height parent / 2) in
  let parts :=
    centerParts "X" (horizontal c) offsetX
      ++ centerParts "Y" (vertical c) offsetY
      ++ (if isMeaningfulRotation (rotation n)
          then ["rotate(" +:+ numberToString (cssRotationDeg (rotation n)) +:+ "deg)"]
          else []) in
  (horizontal c = "CENTER" → "left: 50%" ∈ styles)
  ∧ (vertical c = "CENTER" → "top: 50%" ∈ styles)
  ∧ (parts ≠ [] → "transform: " +:+ join " " parts ∈ styles)
  ∧ (parts = [] →
     Forall (fun s => String.prefix "transform:" s = false) styles).
Proof.
  intros Habs. cbv zeta.
  unfold getAbsolutePositionStyles, centerParts, Qeqb. rewrite Habs.
  cbv zeta. simpl negb. cbv iota.
  set (c := default defaultConstraints (constraints (props node))).
  set (zs := if decide (0 ≤ indexOf (children parentFrame) node) then _ else _).
  assert (Hzs : Forall (fun s => String.prefix "transform:" s = false) zs).
  { subst zs. case_decide; repeat constructor. }
  clearbody zs.
  destruct (String.eqb_spec (horizontal c) "MAX") as [Hh|Hh1];
    [rewrite Hh |
     destruct (String.eqb_spec (horizontal c) "CENTER") as [Hh|Hh2];
       [rewrite Hh; destruct (Qeq_bool (Math_round _) 0)
       | destruct (String.eqb_spec (horizontal c) "STRETCH") as [Hh|Hh3];
           [rewrite Hh |]]];
  (destruct (String.eqb_spec (vertical c) "MAX") as [Hv|Hv1];
    [rewrite Hv |
     destruct (String.eqb_spec (vertical c) "CENTER") as [Hv|Hv2];
       [rewrite Hv; destruct (Qeq_bool (Math_round _) 0)
       | destruct (String.eqb_spec (vertical c) "STRETCH") as [Hv|Hv3];
           [rewrite Hv |]]]);
  destruct (isMeaningfulRotation (rotation (props node)));
  simpl; (split; [| split; [| split]]);
  try (intros; congruence);
  try (intros _; rewrite ?elem_of_app, ?elem_of_cons; tauto);
  intros _; rewrite ?Forall_app; repeat split;
  try exact Hzs; repeat constructor.
Qed.

(** ** Invisible nodes *)

(** C10.  The walker returns the empty markup for a node whose [visible]
    flag is false, whatever its type, its children and the arguments, and
    the export context after the call is the context before it: no name is
    counted, no style entry or utility class is registered, no font family
    is recorded and the SVG id counter keeps its value. *)
Theorem invisible_node_skipped (node : SceneNode)
    (parentLayoutMode : option string)
    (parentFrame parentGroup : option SceneNode) (outputFormat : OutputFormat)
    (indent baseIndent : Z) (positionContainer : option SceneNode)
    (flattenedZIndex : Z) (context : ExportContext) :
  visible (props node) = false →
  nodeToHtmlCss node parentLayoutMode parentFrame parentGroup outputFormat
    indent baseIndent positionContainer flattenedZIndex context
  = (Returned "", context).
Proof.
  intros Hidden. destruct node as [p cs]. simpl in Hidden.
  cbn [nodeToHtmlCss]. unfold nodeBody. cbn [props]. rewrite Hidden.
  reflexivity.
Qed.

(** ** Conversions that return *)

Lemma Returns_ret {A} (a : A) : Returns (mret a).
Proof. intros context. eexists _, _. reflexivity. Qed.

Lemma Returns_bind {A B} (m : Conv A) (k : A → Conv B) :
  Returns m → (∀ a, Returns (k a)) → Returns (m ≫= k).
Proof.
  intros Hm Hk context. destruct (Hm context) as (a & context1 & E).
  destruct (Hk a context1) as (b & context2 & E2).
  exists b, context2. unfold mbind, conv_bind, bind. rewrite E. exact E2.
Qed.

Lemma Returns_liftState {A} (f : ExportContext → A * ExportContext) :
  Returns (liftState f).
Proof.
  intros context. unfold liftState. destruct (f context) as [a context1].
  eexists _, _. reflexivity.
Qed.

Lemma Returns_modify (f : ExportContext → ExportContext) : Returns (modify f).
Proof. intros context. eexists _, _. reflexivity. Qed.

Lemma Returns_await {A} (a : A) : Returns (await (Returned a)).
Proof. intros context. eexists _, _. reflexivity. Qed.

(** A [try] whose handler returns, returns. *)
Lemma Returns_tryCatch {A} (body : Conv A) (handler : Thrown → Conv A) :
  (∀ e, Returns (handler e)) → Returns (tryCatch body handler).
Proof.
  intros Hh context. unfold tryCatch.
  destruct (body context) as [[a | e] context1].
  - eexists _, _. reflexivity.
  - apply Hh.
Qed.

Lemma Returns_tryCatch_body {A} (body : Conv A) (handler : Thrown → Conv A) :
  Returns body → Returns (tryCatch body handler).
Proof.
  intros Hb context. unfold tryCatch.
  destruct (Hb context) as (a & context1 & ->). eexists _, _. reflexivity.
Qed.

(** A thrown value goes through the steps that follow. *)
Lemma bind_threw {A B} (m : Conv A) (k : A → Conv B) context e context1 :
  m context = (Threw e, context1) → (m ≫= k) context = (Threw e, context1).
Proof. intros E. unfold mbind, conv_bind, bind. rewrite E. reflexivity. Qed.

Lemma bind_returned {A B} (m : Conv A) (k : A → Conv B) context a context1 :
  m context = (Returned a, context1) → (m ≫= k) context = k a context1.
Proof. intros E. unfold mbind, conv_bind, bind. rewrite E. reflexivity. Qed.

(** Decompose a conversion into steps that return. *)
Ltac returns_step :=
  lazymatch goal with
  | |- Returns (mret _) => apply Returns_ret
  | |- Returns (_ ≫= _) => apply Returns_bind; [| intros ?]
  | |- Returns (liftState _) => apply Returns_liftState
  | |- Returns (modify _) => apply Returns_modify
  | |- Returns (let x := ?A in @?K x) =>
      change (let x := A in Returns (K x)); let y := fresh x in intros y; cbv beta
  | |- Returns (if ?b then _ else _) => destruct b
  | |- Returns (match ?x with _ => _ end) => destruct x
  end.

Lemma forEach_returns {A} (body : A → string → Conv string) (l : list A) :
  (∀ a html, a ∈ l → Returns (body a html)) →
  ∀ html, Returns (forEach body l html).
Proof.
  induction l as [| a l IH]; intros Hb html; simpl; [apply Returns_ret |].
  apply Returns_bind; [apply Hb; left |].
  intros html1. apply IH. intros b html2 Hin. apply Hb. right. exact Hin.
Qed.

Lemma maskedSiblings_returns (nodes : list (SceneNode * Run)) i k mask html :
  Forall (fun nr => ∀ c z, Returns (snd nr c z)) nodes →
  Returns (maskedSiblings nodes i k mask html).
Proof.
  intros Hn. unfold maskedSiblings. apply forEach_returns.
  intros m html1 _.
  destruct (nodes !! m) as [[c run] |] eqn:E; [| apply Returns_ret].
  apply Returns_bind; [| intros; apply Returns_ret].
  rewrite Forall_forall in Hn. apply (Hn (c, run)).
  eapply list_elem_of_lookup_2; eassumption.
Qed.

(** The loop over a sibling list returns when the conversions of the
    siblings do. *)
Lemma siblingLoop_returns (nodes : list (SceneNode * Run)) flatten plainArgs
    wrapperOpen wrapperClose :
  Forall (fun nr => ∀ c z, Returns (snd nr c z)) nodes →
  (∀ i inner, flatten i = Some inner → Returns inner) →
  ∀ gas i html,
    Returns (siblingLoop nodes flatten plainArgs wrapperOpen wrapperClose gas i html).
Proof.
  intros Hn Hf. induction gas as [| gas IH]; intros i html; simpl.
  - apply Returns_ret.
  - destruct (nodes !! i) as [[child run] |] eqn:E; [| apply Returns_ret].
    assert (Hrun : ∀ c z, Returns (run c z)).
    { rewrite Forall_forall in Hn. apply (Hn (child, run)).
      eapply list_elem_of_lookup_2; eassumption. }
    destruct (flatten i) as [inner |] eqn:F.
    + apply Returns_bind; [eapply Hf; eassumption | intros; apply IH].
    + destruct (isMaskNode child).
      * apply Returns_bind; [apply Hrun | intros h].
        apply Returns_bind; [| intros; apply IH].
        destruct (truthy _ && _); [| apply Returns_ret].
        apply Returns_bind; [| intros; apply Returns_ret].
        apply maskedSiblings_returns, Hn.
      * apply Returns_bind; [apply Hrun | intros; apply IH].
Qed.

Ltac returns_let :=
  lazymatch goal with
  | |- Returns (let x := ?A in @?K x) =>
      change (let x := A in Returns (K x)); let y := fresh x in
      intros y; clearbody y; cbv beta
  end.
Ltac returns_auto := repeat first [returns_let | returns_step].

Lemma frameBlock_returns node kids parentLayoutMode parentFrame parentGroup
    outputFormat indent baseIndent positionContainer flattenedZIndex :
  Forall EntryReturns kids →
  Returns (frameBlock node kids parentLayoutMode parentFrame parentGroup
             outputFormat indent baseIndent positionContainer flattenedZIndex).
Proof.
  intros Hk. unfold frameBlock.
  returns_auto.
  all: apply siblingLoop_returns.
  all: try (apply Forall_map, Forall_forall; intros e He c z;
            rewrite Forall_forall in Hk; apply (Hk e He)).
  all: intros i inner Hi.
  all: destruct (kids !! i) as [e |] eqn:E; [| discriminate].
  all: destruct (_ && _); [| discriminate].
  all: injection Hi as <-.
  all: apply siblingLoop_returns; [| discriminate].
  all: apply Forall_map.
  all: rewrite Forall_forall in Hk.
  all: destruct (Hk e) as [_ Hg]; [eapply list_elem_of_lookup_2; eassumption |].
  all: eapply Forall_impl; [exact Hg |].
  all: intros ge Hge c z; apply Hge.
Qed.

Lemma groupBlock_returns node kids parentFrame parentGroup
    outputFormat indent baseIndent positionContainer flattenedZIndex :
  Forall EntryReturns kids →
  Returns (groupBlock node kids parentFrame parentGroup
             outputFormat indent baseIndent positionContainer flattenedZIndex).
Proof.
  intros Hk. unfold groupBlock.
  returns_auto.
  all: apply siblingLoop_returns; [| discriminate].
  all: apply Forall_map, Forall_forall; intros e He c z.
  all: rewrite Forall_forall in Hk; apply (Hk e He).
Qed.

Lemma rectangleBlock_returns node parentLayoutMode parentFrame parentGroup
    outputFormat indent baseIndent positionContainer flattenedZIndex :
  Returns (rectangleBlock node parentLayoutMode parentFrame parentGroup
             outputFormat indent baseIndent positionContainer flattenedZIndex).
Proof. unfold rectangleBlock, blurredShapeBlock. returns_auto. Qed.

Lemma ellipseBlurBlock_returns node parentFrame parentGroup
    outputFormat indent baseIndent positionContainer flattenedZIndex fill blur :
  Returns (ellipseBlurBlock node parentFrame parentGroup
             outputFormat indent baseIndent positionContainer flattenedZIndex
             fill blur).
Proof. unfold ellipseBlurBlock, blurredShapeBlock. returns_auto. Qed.

(** Whatever the export of the vector does, its conversion returns. *)
Lemma vectorBlock_returns node parentLayoutMode parentFrame parentGroup
    outputFormat indent baseIndent positionContainer flattenedZIndex :
  Returns (vectorBlock node parentLayoutMode parentFrame parentGroup
             outputFormat indent baseIndent positionContainer flattenedZIndex).
Proof.
  unfold vectorBlock. returns_auto.
  apply Returns_tryCatch. intros e. apply Returns_ret.
Qed.

Lemma textFill_returns node paints :
  fills (props node) = Some (Val paints) → Returns (textFill node).
Proof. intros E. unfold textFill. rewrite E. returns_auto. Qed.

Lemma textBlock_returns node parentLayoutMode parentFrame parentGroup
    outputFormat indent baseIndent positionContainer flattenedZIndex :
  type (props node) = "TEXT" → textReadable node = true →
  Returns (textBlock node parentLayoutMode parentFrame parentGroup
             outputFormat indent baseIndent positionContainer flattenedZIndex).
Proof.
  intros Ht Hr. unfold textReadable in Hr. rewrite Ht in Hr. simpl in Hr.
  unfold textBlock, addTextUtility.
  destruct (fills (props node)) as [[| paints] |] eqn:E; [| | discriminate].
  - destruct (getStyledTextSegments node) as [segments | e] eqn:S; [| discriminate].
    returns_auto.
    all: apply Returns_tryCatch_body; returns_auto; apply Returns_await.
  - returns_auto.
    all: eapply textFill_returns; eassumption.
Qed.


Lemma nodeBody_returns node kids :
  textReadable node = true → Forall EntryReturns kids →
  EmitterReturns (nodeBody node kids).
Proof.
  intros Hr Hk parentLayoutMode parentFrame parentGroup outputFormat indent
    baseIndent positionContainer flattenedZIndex.
  unfold nodeBody.
  destruct (negb (visible (props node))); [apply Returns_ret |].
  destruct (isFrameLike _); [apply frameBlock_returns, Hk |].
  destruct (isGroupLike _); [apply groupBlock_returns, Hk |].
  destruct (String.eqb (type (props node)) "TEXT") eqn:Ht.
  { apply textBlock_returns; [apply String.eqb_eq, Ht | exact Hr]. }
  destruct (String.eqb (type (props node)) "RECTANGLE");
    [apply rectangleBlock_returns |].
  cbv zeta.
  destruct (_ && _); [apply ellipseBlurBlock_returns |].
  destruct (isVectorNode node); [apply vectorBlock_returns | apply Returns_ret].
Qed.

(** Induction on a tree of nodes. *)
Lemma SceneNode_tree_ind (P : SceneNode → Prop) :
  (∀ p cs, Forall P cs → P (Node p cs)) → ∀ node, P node.
Proof.
  intros H. fix IH 1. intros [p cs]. apply H.
  induction cs as [| c cs IHcs]; constructor; [apply IH | exact IHcs].
Qed.

Lemma everyNode_children P node :
  everyNode P node = true →
  P node = true ∧ Forall (fun c => everyNode P c = true) (children node).
Proof.
  destruct node as [p cs]. simpl. intros H.
  apply andb_prop in H as [H1 H2]. split; [exact H1 |].
  rewrite forallb_forall in H2. apply Forall_forall. intros c Hc.
  apply H2, list_elem_of_In, Hc.
Qed.

(** The walker returns on a tree whose text nodes can be read, whatever the
    exports of its vectors do. *)
Lemma nodeToHtmlCss_returns node :
  everyNode textReadable node = true → EmitterReturns (nodeToHtmlCss node).
Proof.
  intros Hsafe.
  enough (G : EmitterReturns (nodeToHtmlCss node)
              ∧ Forall (fun c => EmitterReturns (nodeToHtmlCss c)) (children node))
    by apply G.
  revert Hsafe. induction node as [p cs IH] using SceneNode_tree_ind.
  intros Hsafe. apply everyNode_children in Hsafe as [Hp Hcs]. simpl in Hcs.
  assert (Hall : Forall (fun c => EmitterReturns (nodeToHtmlCss c)
                   ∧ Forall (fun g => EmitterReturns (nodeToHtmlCss g)) (children c)) cs).
  { rewrite Forall_forall in IH, Hcs. apply Forall_forall. intros c Hc.
    apply (IH c Hc), (Hcs c Hc). }
  split.
  - cbn [nodeToHtmlCss]. apply nodeBody_returns; [exact Hp |].
    apply Forall_map. eapply Forall_impl; [exact Hall |].
    intros c [Hc Hg]. split; [exact Hc |]. simpl.
    apply Forall_map. exact Hg.
  - simpl. eapply Forall_impl; [exact Hall |]. intros c [Hc _]. exact Hc.
Qed.

(** ** Failures during an export *)

Lemma vectorBlock_export_failed node parentLayoutMode parentFrame parentGroup
    outputFormat indent baseIndent positionContainer flattenedZIndex context e :
  hasInvisibleStrokesOnly (props node) = false →
  exportAsync node = Threw e →
  vectorBlock node parentLayoutMode parentFrame parentGroup outputFormat
    indent baseIndent positionContainer flattenedZIndex context
  = (Returned
       (placeholderBox node parentFrame parentGroup outputFormat indent
          baseIndent positionContainer flattenedZIndex
          (fst (registerSizingUtilities (props node) parentLayoutMode context))),
     snd (registerSizingUtilities (props node) parentLayoutMode context)).
Proof.
  intros Hs He. unfold vectorBlock, mbind, conv_bind, bind, liftState.
  destruct (registerSizingUtilities _ _ context) as [sizing context1].
  cbv zeta. rewrite Hs. unfold tryCatch, exportedVector, mbind, conv_bind, bind.
  rewrite He. reflexivity.
Qed.

Lemma exportSelection_walker loaded root rest format :
  type (props root) ∈ allowedTypes →
  loaded = Returned tt →
  (∀ e context1,
     nodeToHtmlCss root None None None format 0
       (if isReactFormat format then 0 else 2) None 0 newContext
     = (Threw e, context1) →
     exportSelection loaded (root :: rest) format = Threw e)
  ∧ (∀ bodyContent context1,
       nodeToHtmlCss root None None None format 0
         (if isReactFormat format then 0 else 2) None 0 newContext
       = (Returned bodyContent, context1) →
       ∃ result, exportSelection loaded (root :: rest) format = Returned result).
Proof.
  intros Hallowed ->. unfold exportSelection.
  rewrite (bool_decide_eq_true_2 _ Hallowed).
  split; intros ? ? E; cbv zeta; rewrite E; [reflexivity |].
  destruct (isReactFormat format); eexists; reflexivity.
Qed.


(** ** Mask runs *)

Lemma indexFrom_length {A} (l : list A) i : length (indexFrom i l) = length l.
Proof.
  revert i. induction l as [| a l IH]; intros i; simpl; [| rewrite IH]; reflexivity.
Qed.

Lemma maskRuns_cons {A} (isMask : A → bool) (c : A) (rest : list A) :
  maskRuns isMask (c :: rest)
  = if isMask c
    then ([], (c, fst (maskRuns isMask rest)) :: snd (maskRuns isMask rest))
    else (c :: fst (maskRuns isMask rest), snd (maskRuns isMask rest)).
Proof. simpl. destruct (maskRuns isMask rest). reflexivity. Qed.

(** The split of a list at its masks starts with the siblings that the
    scan for the next mask goes over. *)
Lemma maskRuns_scan (l : list (SceneNode * Run)) (s : nat) :
  let k := scanToMask (map fst l) s in
  (s ≤ k ≤ s + length l)%nat
  ∧ fst (maskRuns isMaskSibling (indexFrom s l))
    = indexFrom s (take (k - s) l)
  ∧ fst (maskRuns isMaskSibling (indexFrom k (drop (k - s) l))) = []
  ∧ snd (maskRuns isMaskSibling (indexFrom s l))
    = snd (maskRuns isMaskSibling (indexFrom k (drop (k - s) l))).
Proof.
  revert s. induction l as [| [c run] l IH]; intros s.
  - simpl. rewrite Nat.sub_diag. simpl. repeat split; lia.
  - cbn [map fst scanToMask indexFrom length].
    destruct (isMaskNode c) eqn:M.
    + rewrite Nat.sub_diag. cbn [take drop indexFrom].
      rewrite maskRuns_cons. change (isMaskSibling (s, (c, run))) with (isMaskNode c).
      rewrite M. cbn [fst snd]. repeat split; first [lia | reflexivity].
    + destruct (IH (S s)) as (Hk & Hfst & Hnil & Hsnd).
      set (k := scanToMask (map fst l) (S s)) in *.
      replace (k - s)%nat with (S (k - S s)) by lia.
      cbn [take drop indexFrom].
      rewrite !maskRuns_cons. change (isMaskSibling (s, (c, run))) with (isMaskNode c).
      rewrite M. cbn [fst snd]. rewrite Hfst.
      repeat split; try lia; assumption.
Qed.

(** Laws of the conversion monad, at a context. *)
Lemma bind_cong {A B} (m : Conv A) (k1 k2 : A → Conv B) context :
  (∀ a context1, k1 a context1 = k2 a context1) →
  (m ≫= k1) context = (m ≫= k2) context.
Proof.
  intros H. unfold mbind, conv_bind, bind.
  destruct (m context) as [[a | e] context1]; [apply H | reflexivity].
Qed.

Lemma bind_assoc {A B C} (m : Conv A) (f : A → Conv B) (g : B → Conv C) context :
  ((m ≫= f) ≫= g) context = (m ≫= fun a => f a ≫= g) context.
Proof.
  unfold mbind, conv_bind, bind.
  destruct (m context) as [[a | e] context1]; reflexivity.
Qed.

Lemma bind_cong_l {A B} (m1 m2 : Conv A) (k : A → Conv B) context :
  m1 context = m2 context → (m1 ≫= k) context = (m2 ≫= k) context.
Proof. intros H. unfold mbind, conv_bind, bind. rewrite H. reflexivity. Qed.

Lemma ret_bind {A B} (a : A) (k : A → Conv B) context :
  (mret a ≫= k) context = k a context.
Proof. reflexivity. Qed.

Lemma bind_ret {A} (m : Conv A) context : (m ≫= mret) context = m context.
Proof.
  unfold mbind, conv_bind, bind.
  destruct (m context) as [[a | e] context1]; reflexivity.
Qed.

(** The loop over the siblings of a run visits the members of the run. *)
Lemma maskedSiblings_members (nodes : list (SceneNode * Run)) (i : nat)
    (mask : SceneNode * Run) (n s : nat) html context :
  (s + n ≤ length nodes)%nat →
  forEach
    (fun m html =>
       match nodes !! m with
       | Some (_, run) =>
           h ← run (Some (fst mask)) (Z.of_nat m - Z.of_nat i - 1);
           mret (html +:+ h)
       | None => mret html
       end)
    (seq s n) html context
  = forEach (emitMasked (i, mask)) (indexFrom s (take n (drop s nodes)))
      html context.
Proof.
  revert s html context. induction n as [| n IH]; intros s html context Hlen.
  - reflexivity.
  - cbn [seq forEach].
    destruct (nodes !! s) as [[c run] |] eqn:E.
    2:{ apply lookup_ge_None_1 in E. lia. }
    rewrite (drop_S _ _ _ E). cbn [take indexFrom forEach].
    change (emitMasked (i, mask) (s, (c, run)) html)
      with (run (Some (fst mask)) (Z.of_nat s - Z.of_nat i - 1)
              ≫= fun h => mret (html +:+ h)).
    apply bind_cong. intros html1 context1. apply IH. lia.
Qed.

Lemma emitMaskRun_eq plainArgs wrapperOpen wrapperClose (mask : Sibling)
    (members : list Sibling) html :
  emitMaskRun plainArgs wrapperOpen wrapperClose (mask, members) html
  = (snd (snd mask) (fst (plainArgs (fst mask))) (snd (plainArgs (fst mask)))
     ≫= fun h =>
          match members with
          | [] => mret (html +:+ h)
          | _ =>
              forEach (emitMasked mask) members
                ((html +:+ h) +:+ wrapperOpen (fst mask) (fst (snd mask)))
              ≫= fun html => mret (html +:+ wrapperClose)
          end).
Proof. destruct members; reflexivity. Qed.

Lemma emitAlone_eq flatten plainArgs (s : Sibling) html :
  emitAlone flatten plainArgs s html
  = (match flatten (fst s) with
     | Some inner => inner
     | None => snd (snd s) (fst (plainArgs (fst s))) (snd (plainArgs (fst s)))
     end ≫= fun h => mret (html +:+ h)).
Proof. reflexivity. Qed.

Lemma siblingLoop_split (nodes : list (SceneNode * Run)) flatten plainArgs
    wrapperOpen wrapperClose :
  (∀ i child run, nodes !! i = Some (child, run) →
     isMaskNode child = true → flatten i = None) →
  ∀ gas i html context,
    (length nodes - i ≤ gas)%nat →
    (∀ mask members,
       (mask, members)
         ∈ snd (maskRuns isMaskSibling (indexFrom i (drop i nodes))) →
       members ≠ [] →
       truthy (getClipPathFromMaskNode (fst (snd mask))) = true) →
    siblingLoop nodes flatten plainArgs wrapperOpen wrapperClose gas i html
      context
    = emitSplit flatten plainArgs wrapperOpen wrapperClose
        (maskRuns isMaskSibling (indexFrom i (drop i nodes))) html context.
Proof.
  intros Hflat. induction gas as [| gas IH]; intros i html context Hgas Hclip.
  - rewrite drop_ge by lia. reflexivity.
  - cbn [siblingLoop].
    destruct (nodes !! i) as [[child run] |] eqn:E.
    2:{ rewrite drop_ge; [reflexivity |]. apply lookup_ge_None_1, E. }
    assert (Hi : (i < length nodes)%nat) by (eapply lookup_lt_Some; eassumption).
    rewrite (drop_S _ _ _ E) in Hclip |- *.
    cbn [indexFrom] in Hclip |- *. rewrite maskRuns_cons in Hclip |- *.
    change (isMaskSibling (i, (child, run))) with (isMaskNode child) in Hclip |- *.
    replace (i + 1)%nat with (S i) by lia.
    destruct (isMaskNode child) eqn:M.
    + rewrite (Hflat _ _ _ E M).
      destruct (maskRuns_scan (drop (S i) nodes) (S i))
        as (Hk & Hfst & Hnil & Hsnd).
      rewrite length_drop in Hk. rewrite drop_drop in Hnil, Hsnd.
      rewrite <- skipn_map in Hk, Hfst, Hnil, Hsnd.
      set (k := scanToMask (drop (S i) (map fst nodes)) (S i)) in *.
      replace (S i + (k - S i))%nat with k in Hnil, Hsnd by lia.
      unfold emitSplit. cbn [fst snd forEach]. rewrite ret_bind.
      rewrite emitMaskRun_eq. cbn [fst snd].
      rewrite bind_assoc. apply bind_cong. intros h context1.
      rewrite Hfst.
      destruct (decide (k - S i = 0)%nat) as [Z0 | NZ].
      * rewrite Z0. cbn [take indexFrom].
        replace (k - i - 1)%nat with 0%nat by lia.
        rewrite andb_false_r. rewrite !ret_bind.
        rewrite IH; [| lia |].
        -- unfold emitSplit. rewrite Hnil, <- Hsnd. reflexivity.
        -- intros mask members Hin. apply Hclip. right. rewrite Hsnd. exact Hin.
      * assert (Hlen : length (take (k - S i) (drop (S i) nodes)) = (k - S i)%nat).
        { rewrite length_take, length_drop. lia. }
        assert (Hmembers :
                  indexFrom (S i) (take (k - S i) (drop (S i) nodes)) ≠ []).
        { intros Hnilm. apply (f_equal length) in Hnilm.
          rewrite indexFrom_length, Hlen in Hnilm. simpl in Hnilm. lia. }
        assert (Hclip1 : truthy (getClipPathFromMaskNode child) = true).
        { cbn [snd] in Hclip. eapply (Hclip (i, (child, run))); [left |].
          rewrite Hfst. exact Hmembers. }
        rewrite Hclip1. rewrite bool_decide_eq_true_2 by lia. cbn [andb].
        unfold maskedSiblings.
        replace (i + 1)%nat with (S i) by lia.
        replace (k - i - 1)%nat with (k - S i)%nat by lia.
        destruct (indexFrom (S i) (take (k - S i) (drop (S i) nodes)))
          as [| member members] eqn:Em; [congruence |].
        rewrite <- Em. rewrite !bind_assoc.
        etransitivity.
        { apply bind_cong_l.
          apply (maskedSiblings_members nodes i (child, run)). lia. }
        apply bind_cong. intros html1 context2. rewrite !ret_bind.
        rewrite IH; [| lia |].
        -- unfold emitSplit. rewrite Hnil, <- Hsnd. reflexivity.
        -- intros mask members0 Hin. apply Hclip. right. rewrite Hsnd. exact Hin.
    + unfold emitSplit. cbn [fst snd forEach].
      rewrite emitAlone_eq. cbn [fst snd]. rewrite !bind_assoc.
      assert (Hnext : ∀ h context1,
                siblingLoop nodes flatten plainArgs wrapperOpen wrapperClose
                  gas (S i) (html +:+ h) context1
                = (mret (html +:+ h)
                   ≫= (fun html0 =>
                         forEach (emitAlone flatten plainArgs)
                           (fst (maskRuns isMaskSibling
                                   (indexFrom (S i) (drop (S i) nodes)))) html0
                         ≫= fun html1 =>
                              forEach
                                (emitMaskRun plainArgs wrapperOpen wrapperClose)
                                (snd (maskRuns isMaskSibling
                                        (indexFrom (S i) (drop (S i) nodes))))
                                html1)) context1).
      { intros h context1. rewrite ret_bind. apply IH; [lia | exact Hclip]. }
      destruct (flatten i) as [inner |]; apply bind_cong; intros h context1;
        rewrite Hnext; reflexivity.
Qed.


Lemma getClipPathFromMaskNode_shapes (mask : SceneNode) :
  truthy (getClipPathFromMaskNode mask)
  = bool_decide (type (props mask) ∈ clipShapes).
Proof.
  unfold getClipPathFromMaskNode, clipShapes. cbv zeta.
  generalize (type (props mask)) as t. intros t.
  destruct (String.eqb_spec t "RECTANGLE") as [-> | N1].
  { repeat match goal with
           | |- context [match ?x with _ => _ end] => destruct x
           end; reflexivity. }
  destruct (String.eqb_spec t "ELLIPSE") as [-> | N2]; [reflexivity |].
  destruct (String.eqb_spec t "FRAME") as [-> | N3].
  { destruct (cornerRadius _) as [[| r] |]; try reflexivity.
    destruct (Qltb 0 r); reflexivity. }
  destruct (String.eqb_spec t "GROUP") as [-> | N4].
  { destruct (cornerRadius _) as [[| r] |]; try reflexivity.
    destruct (Qltb 0 r); reflexivity. }
  destruct (String.eqb_spec t "COMPONENT") as [-> | N5].
  { destruct (cornerRadius _) as [[| r] |]; try reflexivity.
    destruct (Qltb 0 r); reflexivity. }
  destruct (String.eqb_spec t "INSTANCE") as [-> | N6].
  { destruct (cornerRadius _) as [[| r] |]; try reflexivity.
    destruct (Qltb 0 r); reflexivity. }
  symmetry. apply bool_decide_eq_false_2.
  rewrite !elem_of_cons, elem_of_nil. tauto.
Qed.


(** * Further properties of the code *)

(** ** Classes without duplicates *)

Lemma dedupe_elem (seen l : list string) (c : string) :
  c ∈ dedupe seen l ↔ c ∈ l ∧ c ∉ seen.
Proof.
  revert seen. induction l as [| d l IH]; intros seen; simpl.
  - rewrite elem_of_nil. tauto.
  - case_bool_decide as Hd.
    + rewrite IH, elem_of_cons. split; [tauto |].
      intros [[-> | Hc] Hs]; [contradiction | tauto].
    + rewrite !elem_of_cons, IH, elem_of_cons.
      destruct (decide (c = d)) as [-> | Hne]; tauto.
Qed.

Lemma dedupe_NoDup (seen l : list string) : NoDup (dedupe seen l).
Proof.
  revert seen. induction l as [| d l IH]; intros seen; simpl.
  - constructor.
  - case_bool_decide as Hd; [apply IH |].
    constructor; [| apply IH].
    rewrite dedupe_elem, elem_of_cons. tauto.
Qed.

Lemma dedupe_sublist (seen l : list string) : dedupe seen l `sublist_of` l.
Proof.
  revert seen. induction l as [| d l IH]; intros seen; simpl.
  - constructor.
  - case_bool_decide; [apply sublist_cons, IH | apply sublist_skip, IH].
Qed.

Lemma dedupe_NoDup_id (seen l : list string) :
  NoDup l → (∀ c, c ∈ l → c ∉ seen) → dedupe seen l = l.
Proof.
  revert seen. induction l as [| d l IH]; intros seen Hl Hs; simpl; [reflexivity |].
  apply NoDup_cons in Hl as [Hd Hl].
  rewrite bool_decide_eq_false_2 by (apply Hs; left).
  f_equal. apply IH; [exact Hl |].
  intros c Hc. rewrite elem_of_cons. intros [-> | Hin]; [contradiction |].
  apply (Hs c); [right; exact Hc | exact Hin].
Qed.

Lemma dedupe_snoc (seen l : list string) (c : string) :
  dedupe seen (l ++ [c])
  = dedupe seen l ++ (if bool_decide (c ∈ seen ∨ c ∈ l) then [] else [c]).
Proof.
  revert seen. induction l as [| d l IH]; intros seen; simpl.
  - repeat case_bool_decide; try reflexivity;
      rewrite elem_of_nil in *; tauto.
  - case_bool_decide as Hd.
    + rewrite IH. f_equal.
      repeat case_bool_decide; try reflexivity; exfalso;
        rewrite ?elem_of_cons in *; intuition congruence.
    + simpl. rewrite IH. f_equal. f_equal.
      repeat case_bool_decide; try reflexivity; exfalso;
        rewrite ?elem_of_cons in *; intuition congruence.
Qed.

(** X1.  The class list of an element, after the filter with the [seen]
    set: no class occurs twice, the classes are those collected, in the
    order of their first occurrences, and a list without duplicates is left
    as it is. *)
Theorem classes_deduplicated (classes : list string) :
  NoDup (dedupe [] classes)
  ∧ (∀ c, c ∈ dedupe [] classes ↔ c ∈ classes)
  ∧ dedupe [] classes `sublist_of` classes
  ∧ (∀ l c, dedupe [] (l ++ [c])
            = dedupe [] l ++ (if bool_decide (c ∈ l) then [] else [c]))
  ∧ (NoDup classes → dedupe [] classes = classes).
Proof.
  split; [apply dedupe_NoDup |].
  split; [| split; [apply dedupe_sublist | split]].
  - intros c. rewrite dedupe_elem, elem_of_nil. tauto.
  - intros l c. rewrite dedupe_snoc. f_equal.
    repeat case_bool_decide; try reflexivity; exfalso;
      rewrite ?elem_of_nil in *; tauto.
  - intros Hl. apply dedupe_NoDup_id; [exact Hl |].
    intros c _. apply not_elem_of_nil.
Qed.

(** ** The escapers lose nothing *)

(** The entity or character written for [c] tells [c], and what follows. *)
Ltac entity_cases c :=
  destruct (Ascii.eqb_spec c "&") as [-> | ?];
  [| destruct (Ascii.eqb_spec c "<") as [-> | ?];
     [| destruct (Ascii.eqb_spec c ">") as [-> | ?];
        [| destruct (Ascii.eqb_spec c DQUOTE) as [-> | ?];
           [| destruct (Ascii.eqb_spec c "'") as [-> | ?]]]]].

Lemma escapeHtmlChar_inj (c d : ascii) (a b : string) :
  escapeHtmlChar c +:+ a = escapeHtmlChar d +:+ b → c = d ∧ a = b.
Proof.
  unfold escapeHtmlChar. entity_cases c; entity_cases d;
    rewrite ?string_app_cons; cbn [String.append]; intros E;
    try discriminate E;
    try (injection E as E; first [congruence | now subst]).
Qed.

Ltac jsx_cases c :=
  destruct (Ascii.eqb_spec c "&") as [-> | ?];
  [| destruct (Ascii.eqb_spec c "<") as [-> | ?];
     [| destruct (Ascii.eqb_spec c ">") as [-> | ?];
        [| destruct (Ascii.eqb_spec c "{") as [-> | ?];
           [| destruct (Ascii.eqb_spec c "}") as [-> | ?]]]]].

Lemma escapeJsxChar_inj (c d : ascii) (a b : string) :
  escapeJsxChar c +:+ a = escapeJsxChar d +:+ b → c = d ∧ a = b.
Proof.
  unfold escapeJsxChar. jsx_cases c; jsx_cases d;
    rewrite ?string_app_cons; cbn [String.append]; intros E;
    try discriminate E;
    try (injection E as E; first [congruence | now subst]).
Qed.

Lemma escapeHtmlChar_app_nonempty (c : ascii) (a : string) :
  escapeHtmlChar c +:+ a ≠ "".
Proof. unfold escapeHtmlChar. repeat case_match; discriminate. Qed.

Lemma escapeJsxChar_app_nonempty (c : ascii) (a : string) :
  escapeJsxChar c +:+ a ≠ "".
Proof. unfold escapeJsxChar. repeat case_match; discriminate. Qed.

(** X2.  Escaping loses nothing: two texts with the same escaped form are
    the same text, in either dialect; in particular only the empty text
    escapes to the empty string. *)
Theorem escapers_injective :
  (∀ s t, escapeHtml s = escapeHtml t → s = t)
  ∧ (∀ s t, escapeJsxText s = escapeJsxText t → s = t).
Proof.
  split.
  - induction s as [| c s IH]; intros [| d t] E; simpl in E.
    + reflexivity.
    + symmetry in E. now apply escapeHtmlChar_app_nonempty in E.
    + now apply escapeHtmlChar_app_nonempty in E.
    + apply escapeHtmlChar_inj in E as [-> E]. f_equal. apply IH, E.
  - induction s as [| c s IH]; intros [| d t] E; simpl in E.
    + reflexivity.
    + symmetry in E. now apply escapeJsxChar_app_nonempty in E.
    + now apply escapeJsxChar_app_nonempty in E.
    + apply escapeJsxChar_inj in E as [-> E]. f_equal. apply IH, E.
Qed.

(** ** The layer attribute *)

(** With a pattern of one character, every occurrence of the character is
    rewritten and the other characters are kept. *)
Lemma replaceAll_char (c : ascii) (rep s : string) :
  replaceAll (String c "") rep s
  = match s with
    | "" => ""
    | String d rest =>
        (if Ascii.eqb c d then rep else String d "")
          +:+ replaceAll (String c "") rep rest
    end.
Proof.
  unfold replaceAll. destruct s as [| d rest]; [reflexivity |].
  cbn [replaceAllFrom String.prefix String.length].
  destruct (Ascii.eqb_spec c d) as [-> | Hne].
  - destruct (ascii_dec d d) as [_ | N]; [| contradiction].
    destruct rest; reflexivity.
  - destruct (ascii_dec c d) as [E | _]; [contradiction | reflexivity].
Qed.

Lemma replaceAll_quote_free (name : string) :
  DQUOTE ∉ chars (replaceAll DQ "&quot;" name).
Proof.
  induction name as [| d rest IH]; unfold DQ in *; rewrite replaceAll_char.
  - apply not_elem_of_nil.
  - rewrite chars_app, elem_of_app. intros [H | H]; [| exact (IH H)].
    destruct (Ascii.eqb_spec DQUOTE d) as [<- | Hne].
    + vm_compute in H.
      repeat (apply elem_of_cons in H as [H | H]; [discriminate H |]).
      now apply elem_of_nil in H.
    + simpl in H. apply elem_of_cons in H as [H | H]; [congruence |].
      now apply elem_of_nil in H.
Qed.

Lemma replaceAll_no_quote (name : string) :
  DQUOTE ∉ chars name → replaceAll DQ "&quot;" name = name.
Proof.
  induction name as [| d rest IH]; unfold DQ in *; rewrite replaceAll_char;
    [reflexivity |].
  intros Hq. simpl in Hq. rewrite not_elem_of_cons in Hq. destruct Hq as [Hd Hr].
  destruct (Ascii.eqb_spec DQUOTE d) as [E | _]; [contradiction |].
  rewrite (IH Hr). reflexivity.
Qed.

(** X3.  The layer attribute is the name between two double quotes, with
    every double quote of the name rewritten to its entity: the value holds
    no double quote, so a layer name cannot end the attribute; a name
    without double quotes is written as it is; and the attribute is the
    same in both output formats. *)
Theorem layer_attribute_quoted (name : string) (format : OutputFormat) :
  getDataLayerAttr name format
  = "data-layer=" +:+ DQ +:+ replaceAll DQ "&quot;" name +:+ DQ +:+ " "
  ∧ (DQUOTE ∉ chars (replaceAll DQ "&quot;" name))
  ∧ length (filter (fun c => c = DQUOTE)
                    (chars (getDataLayerAttr name format))) = 2%nat
  ∧ (DQUOTE ∉ chars name → replaceAll DQ "&quot;" name = name)
  ∧ getDataLayerAttr name html = getDataLayerAttr name react.
Proof.
  split; [reflexivity |]. split; [apply replaceAll_quote_free |].
  split; [| split; [apply replaceAll_no_quote | reflexivity]].
  unfold getDataLayerAttr. cbv zeta.
  rewrite !chars_app, !filter_app, !length_app.
  assert (H : filter (fun c => c = DQUOTE) (chars (replaceAll DQ "&quot;" name)) = []).
  { pose proof (replaceAll_quote_free name) as Hq.
    induction (chars (replaceAll DQ "&quot;" name)) as [| d l IH];
      [reflexivity |].
    rewrite not_elem_of_cons in Hq. destruct Hq as [Hd Hl].
    rewrite filter_cons_False by congruence. apply IH, Hl. }
  rewrite H. reflexivity.
Qed.

(** ** Pascal-case names *)

Lemma asciiUpperChar_alnum (c : ascii) :
  isAlnum c = true → isAlnum (asciiUpperChar c) = true.
Proof.
  destruct c as [[] [] [] [] [] [] [] []]; vm_compute; congruence.
Qed.

Lemma asciiLowerChar_alnum (c : ascii) :
  isAlnum c = true → isAlnum (asciiLowerChar c) = true.
Proof.
  destruct c as [[] [] [] [] [] [] [] []]; vm_compute; congruence.
Qed.

(** The runs are not empty and hold letters and digits only; there is none
    exactly when the text has no letter or digit. *)
Lemma alnumRuns_spec (cur l : list ascii) :
  forallb isAlnum cur = true →
  Forall (fun p => p ≠ [] ∧ forallb isAlnum p = true) (alnumRuns cur l)
  ∧ (alnumRuns cur l = [] ↔ cur = [] ∧ forallb (fun c => negb (isAlnum c)) l = true).
Proof.
  revert cur. induction l as [| c l IH]; intros cur Hcur; simpl.
  - destruct cur as [| d cur]; [split; [constructor | tauto] |].
    split.
    + constructor; [| constructor]. split.
      * intros E. apply (f_equal (@length _)) in E.
        rewrite length_rev in E. discriminate E.
      * rewrite forallb_rev. exact Hcur.
    + split; [discriminate | intros [E _]; discriminate E].
  - destruct (isAlnum c) eqn:Hc; simpl.
    + destruct (IH (c :: cur)) as [H1 H2]; [simpl; now rewrite Hc |].
      split; [exact H1 |]. rewrite H2. split; [intros [E _]; discriminate E |].
      intros [_ E]. discriminate E.
    + destruct (IH []) as [H1 H2]; [reflexivity |].
      destruct cur as [| d cur].
      * split; [exact H1 |]. rewrite H2. tauto.
      * split.
        -- constructor; [| exact H1]. split.
           ++ intros E. apply (f_equal (@length _)) in E.
              rewrite length_rev in E. discriminate E.
           ++ rewrite forallb_rev. exact Hcur.
        -- split; [discriminate | intros [E _]; discriminate E].
Qed.

Lemma asciiUpperChar_not_lower (c : ascii) : isLower (asciiUpperChar c) = false.
Proof. destruct c as [[] [] [] [] [] [] [] []]; vm_compute; reflexivity. Qed.

(** X4.  The Pascal-case name of a layer holds ASCII letters and digits
    only, does not start with a lower-case letter, and is empty exactly
    when the layer name has no ASCII letter or digit (the walker then falls
    back on the sanitized name). *)
Theorem toPascalCase_alnum (name : string) :
  forallb isAlnum (chars (toPascalCase name)) = true
  ∧ (∀ c rest, toPascalCase name = String c rest → isLower c = false)
  ∧ (toPascalCase name = ""
     ↔ forallb (fun c => negb (isAlnum c)) (chars name) = true).
Proof.
  unfold toPascalCase. cbv zeta.
  destruct (alnumRuns_spec [] (chars name) eq_refl) as [Hparts Hnone].
  set (cap := fun p : list ascii =>
                match p with
                | [] => []
                | c :: rest => asciiUpperChar c :: map asciiLowerChar rest
                end).
  assert (Hcap : ∀ p, forallb isAlnum p = true → forallb isAlnum (cap p) = true).
  { intros [| c rest]; simpl; [reflexivity |].
    intros H. apply andb_prop in H as [Hc Hr].
    rewrite (asciiUpperChar_alnum c Hc). simpl.
    induction rest as [| d rest IH]; simpl in *; [reflexivity |].
    apply andb_prop in Hr as [Hd Hr].
    now rewrite (asciiLowerChar_alnum d Hd), (IH Hr). }
  split; [| split].
  - rewrite chars_unchars. clear Hnone.
    induction Hparts as [| p ps [_ Hp] _ IH]; simpl; [reflexivity |].
    rewrite forallb_app, (Hcap p Hp), IH. reflexivity.
  - intros c rest E. apply (f_equal chars) in E. rewrite chars_unchars in E.
    destruct Hparts as [| p ps [Hne _] _]; [discriminate E |].
    destruct p as [| d p]; [contradiction |].
    simpl in E. injection E as <- _. apply asciiUpperChar_not_lower.
  - split.
    + intros E. apply Hnone.
      apply (f_equal chars) in E. rewrite chars_unchars in E.
      destruct Hparts as [| p ps [Hne _] _]; [reflexivity |].
      destruct p as [| d p]; [contradiction | discriminate E].
    + intros H. destruct Hnone as [_ Hnone].
      rewrite Hnone by (split; [reflexivity | exact H]). reflexivity.
Qed.

(** ** Reading a suffix back *)

Lemma digitValue_pretty_N_char (m : N) :
  (m < 10)%N → digitValue (pretty_N_char m) = Z.of_N m.
Proof.
  intros Hm.
  assert (H : (m = 0 ∨ m = 1 ∨ m = 2 ∨ m = 3 ∨ m = 4 ∨ m = 5 ∨ m = 6
               ∨ m = 7 ∨ m = 8 ∨ m = 9)%N) by lia.
  repeat (destruct H as [-> | H]; [reflexivity |]).
  subst m. reflexivity.
Qed.

Lemma digits_pretty_N_go (x : N) (s : string) :
  fold_left (fun acc c => 10 * acc + digitValue c) (chars (pretty_N_go x s)) 0
  = fold_left (fun acc c => 10 * acc + digitValue c) (chars s) (Z.of_N x).
Proof.
  revert s. induction (N.lt_wf_0 x) as [x _ IH]; intros s.
  assert (x = 0 ∨ 0 < x)%N as [-> | Hx] by lia.
  - now rewrite pretty_N_go_0.
  - rewrite pretty_N_go_step by done.
    rewrite IH by (now apply N.div_lt). simpl.
    rewrite digitValue_pretty_N_char by (apply N.mod_lt; lia).
    f_equal. rewrite (N.div_mod x 10) at 3 by lia. lia.
Qed.

(** Decimal printing, read back as a number. *)
Lemma digitsToNumber_pretty (n : Z) :
  0 ≤ n → digitsToNumber (chars (pretty n)) = n.
Proof.
  intros Hn. unfold digitsToNumber.
  destruct n as [| p | p]; [reflexivity | | lia].
  unfold pretty, pretty_Z, pretty, pretty_positive, pretty, pretty_N.
  destruct (decide (N.pos p = 0%N)); [discriminate |].
  rewrite digits_pretty_N_go. reflexivity.
Qed.

Lemma spanWhile_all {A} (p : A → bool) (l : list A) :
  forallb p l = true → spanWhile p l = (l, []).
Proof.
  induction l as [| x l IH]; simpl; [reflexivity |].
  intros H. apply andb_prop in H as [Hx Hl]. now rewrite Hx, (IH Hl).
Qed.

Lemma spanWhile_stop {A} (p : A → bool) (x : A) (l : list A) :
  p x = false → spanWhile p (x :: l) = ([], x :: l).
Proof. intros H. simpl. now rewrite H. Qed.


(** ** Font weights *)

Lemma prefix_includes (pat s : string) :
  String.prefix pat s = true → includes pat s = true.
Proof. intros H. destruct s; cbn [includes]; rewrite H; reflexivity. Qed.

Lemma includes_cons (pat : string) (c : ascii) (s : string) :
  includes pat s = true → includes pat (String c s) = true.
Proof. intros H. cbn [includes]. rewrite H. apply orb_true_r. Qed.

Lemma prefix_app_includes (a b s : string) :
  String.prefix (a +:+ b) s = true → includes b s = true.
Proof.
  revert s. induction a as [| c a IH]; intros s H.
  - apply prefix_includes, H.
  - destruct s as [| d s]; [discriminate H |].
    change (String c a +:+ b) with (String c (a +:+ b)) in H. simpl in H.
    destruct (ascii_dec c d); [| discriminate H].
    apply includes_cons, IH, H.
Qed.

(** A text that includes a phrase includes the end of the phrase. *)
Lemma includes_app_r (a b s : string) :
  includes (a +:+ b) s = true → includes b s = true.
Proof.
  induction s as [| d s IH]; intros H; cbn [includes] in H.
  - apply orb_prop in H as [H | H]; [| discriminate H].
    apply (prefix_app_includes a b "" H).
  - apply orb_prop in H as [H | H].
    + apply (prefix_app_includes a b (String d s) H).
    + apply (includes_cons b d s), IH, H.
Qed.

(** X6.  The weight read from a font style is one of 100, 200, 300, 400,
    500, 600, 700 and 900, never 800: a style that includes [extra bold] or
    [ultra bold] includes [bold], and [bold] is looked for first. *)
Theorem fontWeight_never_800 (fontName : Mixed FontName) (weight : Z) :
  getFontWeightFromStyle fontName = Some weight →
  weight ∈ [100; 200; 300; 400; 500; 600; 700; 900].
Proof.
  unfold getFontWeightFromStyle.
  destruct fontName as [| f]; [discriminate |]. cbv zeta.
  repeat (match goal with
          | |- context [if ?b then _ else _] =>
              let E := fresh "E" in
              destruct b eqn:E;
              [first
                 [ intros [= <-]; set_solver
                 | exfalso; apply orb_prop in E as [E | E];
                   [apply (includes_app_r "extra " "bold") in E
                   | apply (includes_app_r "ultra " "bold") in E];
                   congruence ]
              |]
          end).
  discriminate.
Qed.

(** ** The registry only grows *)

Ltac grows_split :=
  unfold Grows; cbn;
  split; [| split; [| split; [| split; [| split; [| split]]]]].

Lemma Grows_refl (c : ExportContext) : Grows c c.
Proof. grows_split; reflexivity. Qed.

Lemma Grows_trans (c1 c2 c3 : ExportContext) :
  Grows c1 c2 → Grows c2 c3 → Grows c1 c3.
Proof.
  intros (A1 & A2 & A3 & A4 & A5 & A6 & A7) (B1 & B2 & B3 & B4 & B5 & B6 & B7).
  grows_split; try (etransitivity; eassumption).
  intros b. specialize (A7 b). specialize (B7 b). lia.
Qed.

Lemma Extends_refl (c : ExportContext) : Extends c c.
Proof. split; [apply Grows_refl | tauto]. Qed.

Lemma Extends_trans (c1 c2 c3 : ExportContext) :
  Extends c1 c2 → Extends c2 c3 → Extends c1 c3.
Proof.
  intros [G1 R1] [G2 R2]. split; [eapply Grows_trans; eassumption | tauto].
Qed.

Lemma RegistryOk_new : RegistryOk newContext.
Proof.
  split.
  - intros k Hk. exfalso. revert Hk. apply not_elem_of_empty.
  - intros sig cls H. cbn in H. rewrite lookup_empty in H. discriminate H.
Qed.

Lemma getUniqueClassName_extends (base : string) (c : ExportContext) :
  Extends c (snd (getUniqueClassName base c)).
Proof.
  unfold getUniqueClassName. cbv zeta. cbn [snd]. split.
  - grows_split; try reflexivity.
    intros b. destruct (decide (b = base)) as [-> | Hne].
    + rewrite lookup_insert_eq. simpl. lia.
    + rewrite lookup_insert_ne by congruence. lia.
  - intros [H1 H2]. split; [exact H1 | exact H2].
Qed.

Lemma registerUtilityClass_extends (cls : string) (lines : list string)
    (c : ExportContext) :
  Extends c (registerUtilityClass cls lines c).
Proof.
  unfold registerUtilityClass. case_decide as Hin; [apply Extends_refl |].
  destruct (getBaseNameAndSuffix cls) as [base suf]. cbv zeta. split.
  - grows_split; try reflexivity.
    + apply prefix_app_r. reflexivity.
    + apply union_subseteq_r.
  - intros [H1 H2]. split; cbn.
    + intros k Hk. apply elem_of_union in Hk as [Hk | Hk].
      * apply elem_of_singleton in Hk as ->.
        eexists _, lines.
        split; [apply elem_of_app; right; apply list_elem_of_singleton; reflexivity |].
        split; reflexivity.
      * destruct (H1 k Hk) as (e & ls & He & Hc).
        exists e, ls. split; [apply elem_of_app; left; exact He | exact Hc].
    + intros sig k Hs. destruct (H2 sig k Hs) as (e & He & Hc).
      exists e. split; [apply elem_of_app; left; exact He | exact Hc].
Qed.

Lemma getClassForStyle_extends (base : string) (lines : list string)
    (c : ExportContext) :
  Extends c (snd (getClassForStyle base lines c)).
Proof.
  unfold getClassForStyle. cbv zeta.
  destruct (truthy (styleMap c !! join LF lines)); [apply Extends_refl |].
  unfold getUniqueClassName. cbv zeta. cbn [snd]. split.
  - grows_split; try reflexivity.
    + apply prefix_app_r. reflexivity.
    + rewrite dom_insert. apply union_subseteq_r.
    + intros b. destruct (decide (b = base)) as [-> | Hne].
      * rewrite lookup_insert_eq. simpl. lia.
      * rewrite lookup_insert_ne by congruence. lia.
  - intros [H1 H2]. split; cbn.
    + intros k Hk. destruct (H1 k Hk) as (e & ls & He & Hc).
      exists e, ls. split; [apply elem_of_app; left; exact He | exact Hc].
    + intros sig k Hs.
      destruct (decide (sig = join LF lines)) as [-> | Hne].
      * rewrite lookup_insert_eq in Hs. injection Hs as <-.
        eexists. split; [apply elem_of_app; right; apply list_elem_of_singleton; reflexivity |].
        split; reflexivity.
      * rewrite lookup_insert_ne in Hs by congruence.
        destruct (H2 sig k Hs) as (e & He & Hc).
        exists e. split; [apply elem_of_app; left; exact He | exact Hc].
Qed.

Lemma registerUtilityClass_registers (cls : string) (lines : list string)
    (c : ExportContext) :
  cls ∈ utilityClasses (registerUtilityClass cls lines c).
Proof.
  unfold registerUtilityClass. case_decide as Hin; [exact Hin |].
  destruct (getBaseNameAndSuffix cls) as [base suf]. cbn.
  apply elem_of_union_l, elem_of_singleton. reflexivity.
Qed.

Lemma Extends_utilityClasses (c c' : ExportContext) (k : string) :
  Extends c c' → k ∈ utilityClasses c → k ∈ utilityClasses c'.
Proof. intros [(_ & H & _) _] Hk. apply H, Hk. Qed.

Lemma Collected_start (c : ExportContext) : Collected c ([], c).
Proof.
  split; [apply Extends_refl |]. intros k Hk. now apply elem_of_nil in Hk.
Qed.

Lemma Collected_addUtility c0 (cls : string) (lines : list string) st :
  Collected c0 st → Collected c0 (addUtility cls lines st).
Proof.
  intros [He Hk]. unfold addUtility. split; cbn [fst snd].
  - eapply Extends_trans; [exact He | apply registerUtilityClass_extends].
  - intros k Hin. apply elem_of_app in Hin as [Hin | Hin].
    + eapply Extends_utilityClasses;
        [apply registerUtilityClass_extends | apply Hk, Hin].
    + apply list_elem_of_singleton in Hin as ->.
      apply registerUtilityClass_registers.
Qed.

Lemma Collected_addClassUtility c0 (cls : string) (lines : list string) st :
  Collected c0 st → Collected c0 (addClassUtility cls lines st).
Proof.
  intros [He Hk]. unfold addClassUtility. split; cbn [fst snd].
  - eapply Extends_trans; [exact He | apply registerUtilityClass_extends].
  - intros k Hin.
    assert (Hin' : k ∈ fst st ∨ k = cls).
    { case_bool_decide; [left; exact Hin |].
      apply elem_of_app in Hin as [Hin | Hin]; [left; exact Hin |].
      right. now apply list_elem_of_singleton in Hin. }
    destruct Hin' as [Hin' | ->].
    + eapply Extends_utilityClasses;
        [apply registerUtilityClass_extends | apply Hk, Hin'].
    + apply registerUtilityClass_registers.
Qed.

(** Follow the construction of the collected classes. *)
Ltac collected :=
  lazymatch goal with
  | |- Collected _ (addUtility _ _ _) => apply Collected_addUtility; collected
  | |- Collected _ (addClassUtility _ _ _) =>
      apply Collected_addClassUtility; collected
  | |- Collected _ (if ?b then _ else _) => destruct b; collected
  | |- Collected ?c ([], ?c) => apply Collected_start
  | |- _ => assumption
  end.

Lemma registerFlexUtilities_collected (frame : NodeProps) (c : ExportContext) :
  Collected c (registerFlexUtilities frame c).
Proof. unfold registerFlexUtilities. collected. Qed.

Lemma registerGridUtilities_collected (frame : NodeProps) (c : ExportContext) :
  Collected c (registerGridUtilities frame c).
Proof.
  unfold registerGridUtilities.
  destruct (negb _); [apply Collected_start |].
  apply Collected_addUtility.
  assert (H : Collected c (addUtility "grid" ["  display: grid;"] ([], c)))
    by collected.
  destruct H as [He Hk]. split; cbn [fst snd] in *.
  - eapply Extends_trans; [exact He |].
    eapply Extends_trans; apply registerUtilityClass_extends.
  - intros k Hin. apply elem_of_app in Hin as [Hin | Hin].
    + eapply Extends_utilityClasses; [apply registerUtilityClass_extends |].
      eapply Extends_utilityClasses; [apply registerUtilityClass_extends |].
      apply Hk, Hin.
    + apply elem_of_cons in Hin as [-> | Hin].
      * eapply Extends_utilityClasses; [apply registerUtilityClass_extends |].
        apply registerUtilityClass_registers.
      * apply list_elem_of_singleton in Hin as ->.
        apply registerUtilityClass_registers.
Qed.

Lemma registerSizingUtilities_collected (node : NodeProps)
    (parentLayoutMode : option string) (c : ExportContext) :
  Collected c (fst (fst (registerSizingUtilities node parentLayoutMode c)),
               snd (registerSizingUtilities node parentLayoutMode c)).
Proof.
  unfold registerSizingUtilities. cbn [fst snd].
  match goal with
  | |- Collected _ (fst ?st, snd ?st) =>
      enough (Collected c st) as [He Hk] by (split; assumption)
  end.
  collected.
Qed.

(** X7.  The classes that the layout utilities return for an element are
    registered: each of them is in the set of utility classes of the
    context after the call and, when the registry was in order before, has
    its rule among the style entries after it.  This holds for the flex
    classes and the grid classes of a frame and for the sizing classes of
    any node. *)
Theorem layout_classes_registered (node : NodeProps)
    (parentLayoutMode : option string) (context : ExportContext) :
  RegistryOk context →
  (∀ k, k ∈ fst (registerFlexUtilities node context) →
     k ∈ utilityClasses (snd (registerFlexUtilities node context))
     ∧ ∃ e lines, e ∈ styleEntries (snd (registerFlexUtilities node context))
                  ∧ className e = k ∧ cssText e = cssBlock k lines)
  ∧ (∀ k, k ∈ fst (registerGridUtilities node context) →
       k ∈ utilityClasses (snd (registerGridUtilities node context))
       ∧ ∃ e lines, e ∈ styleEntries (snd (registerGridUtilities node context))
                    ∧ className e = k ∧ cssText e = cssBlock k lines)
  ∧ (∀ k, k ∈ fst (fst (registerSizingUtilities node parentLayoutMode context)) →
       k ∈ utilityClasses
             (snd (registerSizingUtilities node parentLayoutMode context))
       ∧ ∃ e lines,
           e ∈ styleEntries
                 (snd (registerSizingUtilities node parentLayoutMode context))
           ∧ className e = k ∧ cssText e = cssBlock k lines).
Proof.
  intros Hok.
  assert (G : ∀ st, Collected context st →
              ∀ k, k ∈ fst st →
                k ∈ utilityClasses (snd st)
                ∧ ∃ e lines, e ∈ styleEntries (snd st) ∧ className e = k
                             ∧ cssText e = cssBlock k lines).
  { intros st [[_ Hreg] Hk] k Hin. split; [apply Hk, Hin |].
    destruct (Hreg Hok) as [Hrules _]. apply Hrules, Hk, Hin. }
  split; [| split].
  - apply G, registerFlexUtilities_collected.
  - apply G, registerGridUtilities_collected.
  - apply (G _ (registerSizingUtilities_collected node parentLayoutMode context)).
Qed.

(** X8.  The sizing classes of a node are [flex-1] and [self-stretch], each
    at most once; a node without a layout parent, and a node that is
    absolutely positioned, gets none and leaves the context as it is. *)
Theorem sizing_classes (node : NodeProps) (parentLayoutMode : option string)
    (context : ExportContext) :
  NoDup (fst (fst (registerSizingUtilities node parentLayoutMode context)))
  ∧ (∀ k, k ∈ fst (fst (registerSizingUtilities node parentLayoutMode context)) →
       k = "flex-1" ∨ k = "self-stretch")
  ∧ (truthy parentLayoutMode = false
     ∨ layoutPositioning node = Some "ABSOLUTE" →
     fst (fst (registerSizingUtilities node parentLayoutMode context)) = []
     ∧ snd (registerSizingUtilities node parentLayoutMode context) = context).
Proof.
  set (P := fun st : list string * ExportContext =>
              NoDup (fst st)
              ∧ ∀ k, k ∈ fst st → k = "flex-1" ∨ k = "self-stretch").
  assert (Hstart : P ([], context)).
  { split; [constructor |]. intros k Hk. now apply elem_of_nil in Hk. }
  assert (Hadd : ∀ cls lines st, cls = "flex-1" ∨ cls = "self-stretch" →
                 P st → P (addClassUtility cls lines st)).
  { intros cls lines st Hcls [Hnd Hk]. unfold addClassUtility, P. cbn [fst].
    case_bool_decide as Hin; [split; assumption |]. split.
    - apply NoDup_app. split; [exact Hnd |]. split; [| apply NoDup_singleton].
      intros k Hk1 Hk2. apply list_elem_of_singleton in Hk2 as ->. contradiction.
    - intros k Hk'. apply elem_of_app in Hk' as [Hk' | Hk']; [apply Hk, Hk' |].
      apply list_elem_of_singleton in Hk' as ->. exact Hcls. }
  assert (HP : P (fst (fst (registerSizingUtilities node parentLayoutMode context)),
                  snd (registerSizingUtilities node parentLayoutMode context))).
  { unfold registerSizingUtilities. cbn [fst snd].
    match goal with
    | |- P (fst ?st, snd ?st) =>
        enough (P st) as [? ?] by (split; assumption)
    end.
    repeat lazymatch goal with
           | |- P (addClassUtility _ _ _) =>
               apply Hadd; [(left; reflexivity) || (right; reflexivity) |]
           | |- P (if ?b then _ else _) => destruct b
           end;
      exact Hstart. }
  destruct HP as [Hnd Hk]. split; [exact Hnd |]. split; [exact Hk |].
  intros Hnone. unfold registerSizingUtilities. cbn [fst snd].
  assert (Hguard : truthy parentLayoutMode
                   && negb (bool_decide (parentLayoutMode ≠ None)
                            && bool_decide (layoutPositioning node = Some "ABSOLUTE"))
                   = false).
  { destruct Hnone as [Hp | Ha]; [now rewrite Hp |].
    rewrite (bool_decide_eq_true_2 _ Ha).
    destruct parentLayoutMode as [m |]; [| reflexivity].
    rewrite bool_decide_eq_true_2 by discriminate. apply andb_false_r. }
  assert (H1 : ∀ b, truthy parentLayoutMode && b
                    && negb (bool_decide (parentLayoutMode ≠ None)
                             && bool_decide (layoutPositioning node = Some "ABSOLUTE"))
                    = false).
  { intros b. rewrite <- andb_assoc, (andb_comm b), andb_assoc, Hguard.
    reflexivity. }
  assert (H2 : ∀ b, b && truthy parentLayoutMode
                    && negb (bool_decide (parentLayoutMode ≠ None)
                             && bool_decide (layoutPositioning node = Some "ABSOLUTE"))
                    = false).
  { intros b. rewrite <- andb_assoc, Hguard. apply andb_false_r. }
  rewrite !H1, H2. split; reflexivity.
Qed.

(** ** Conversions only extend the context *)

Lemma Within_ret {A} (a : A) : Within (mret a).
Proof. intros c. apply Extends_refl. Qed.

Lemma Within_bind {A B} (m : Conv A) (k : A → Conv B) :
  Within m → (∀ a, Within (k a)) → Within (m ≫= k).
Proof.
  intros Hm Hk c. specialize (Hm c). unfold mbind, conv_bind, bind.
  destruct (m c) as [[a | e] c1]; [| exact Hm].
  eapply Extends_trans; [exact Hm | apply Hk].
Qed.

Lemma Within_liftState {A} (f : ExportContext → A * ExportContext) :
  (∀ c, Extends c (snd (f c))) → Within (liftState f).
Proof.
  intros Hf c. specialize (Hf c). unfold liftState.
  destruct (f c) as [a c1]. exact Hf.
Qed.

Lemma Within_modify (f : ExportContext → ExportContext) :
  (∀ c, Extends c (f c)) → Within (modify f).
Proof. intros Hf c. apply Hf. Qed.

Lemma Within_await {A} (r : Outcome A) : Within (await r).
Proof. intros c. apply Extends_refl. Qed.

Lemma Within_throw {A} (e : Thrown) : Within (@throw A e).
Proof. intros c. apply Extends_refl. Qed.

Lemma Within_tryCatch {A} (body : Conv A) (handler : Thrown → Conv A) :
  Within body → (∀ e, Within (handler e)) → Within (tryCatch body handler).
Proof.
  intros Hb Hh c. specialize (Hb c). unfold tryCatch.
  destruct (body c) as [[a | e] c1]; [exact Hb |].
  eapply Extends_trans; [exact Hb | apply Hh].
Qed.

Lemma Within_forEach {A} (body : A → string → Conv string) (l : list A) :
  (∀ a html, Within (body a html)) → ∀ html, Within (forEach body l html).
Proof.
  intros Hb. induction l as [| a l IH]; intros html; simpl.
  - apply Within_ret.
  - apply Within_bind; [apply Hb | exact IH].
Qed.

(** The updates of the context that the walker makes itself. *)
Lemma usedBaseClasses_extends (base : string) (c : ExportContext) :
  Extends c (setUsedBaseClasses ({[base]} ∪ usedBaseClasses c) c).
Proof.
  split; [| intros H; exact H].
  grows_split; try reflexivity. apply union_subseteq_r.
Qed.

Lemma fontFamiliesUsed_extends (family : string) (c : ExportContext) :
  Extends c (setFontFamiliesUsed (setAdd family (fontFamiliesUsed c)) c).
Proof.
  split; [| intros H; exact H].
  grows_split; try reflexivity.
  unfold setAdd. case_bool_decide; [reflexivity |].
  apply prefix_app_r. reflexivity.
Qed.

Lemma svgIdCounter_extends (c : ExportContext) :
  Extends c (setSvgIdCounter (svgIdCounter c + 1) c).
Proof.
  split; [| intros H; exact H].
  grows_split; try reflexivity. lia.
Qed.

Lemma Collected_extends c st : Collected c st → Extends c (snd st).
Proof. intros [H _]. exact H. Qed.

(** An update of the context that is one of the above. *)
Ltac extends_atom :=
  repeat match goal with
         | |- Extends _ (snd ((if ?b then _ else _) _)) => destruct b
         end;
  cbn beta; cbn [snd];
  first
    [ apply Extends_refl
    | apply registerUtilityClass_extends
    | apply getUniqueClassName_extends
    | apply getClassForStyle_extends
    | apply usedBaseClasses_extends
    | apply fontFamiliesUsed_extends
    | apply svgIdCounter_extends
    | apply (Collected_extends _ _ (registerFlexUtilities_collected _ _))
    | apply (Collected_extends _ _ (registerGridUtilities_collected _ _))
    | apply (Collected_extends _ _ (registerSizingUtilities_collected _ _ _)) ].

Ltac within_step :=
  lazymatch goal with
  | |- Within (mret _) => apply Within_ret
  | |- Within (_ ≫= _) => apply Within_bind; [| intros ?]
  | |- Within (liftState _) => apply Within_liftState; intros ?
  | |- Within (modify _) => apply Within_modify; intros ?
  | |- Within (await _) => apply Within_await
  | |- Within (throw _) => apply Within_throw
  | |- Within (tryCatch _ _) => apply Within_tryCatch; [| intros ?]
  | |- Within (let x := ?A in @?K x) =>
      change (let x := A in Within (K x)); let y := fresh x in
      intros y; clearbody y; cbv beta
  | |- Within (if ?b then _ else _) => destruct b
  | |- Within (match ?x with _ => _ end) => destruct x
  | |- Extends _ _ => extends_atom
  end.
Ltac within_auto := repeat within_step.

Lemma maskedSiblings_within (nodes : list (SceneNode * Run)) i k mask html :
  Forall (fun nr => ∀ c z, Within (snd nr c z)) nodes →
  Within (maskedSiblings nodes i k mask html).
Proof.
  intros Hn. unfold maskedSiblings. apply Within_forEach.
  intros m html1.
  destruct (nodes !! m) as [[c run] |] eqn:E; [| apply Within_ret].
  apply Within_bind; [| intros; apply Within_ret].
  rewrite Forall_forall in Hn. apply (Hn (c, run)).
  eapply list_elem_of_lookup_2; eassumption.
Qed.

Lemma siblingLoop_within (nodes : list (SceneNode * Run)) flatten plainArgs
    wrapperOpen wrapperClose :
  Forall (fun nr => ∀ c z, Within (snd nr c z)) nodes →
  (∀ i inner, flatten i = Some inner → Within inner) →
  ∀ gas i html,
    Within (siblingLoop nodes flatten plainArgs wrapperOpen wrapperClose gas i html).
Proof.
  intros Hn Hf. induction gas as [| gas IH]; intros i html; simpl.
  - apply Within_ret.
  - destruct (nodes !! i) as [[child run] |] eqn:E; [| apply Within_ret].
    assert (Hrun : ∀ c z, Within (run c z)).
    { rewrite Forall_forall in Hn. apply (Hn (child, run)).
      eapply list_elem_of_lookup_2; eassumption. }
    destruct (flatten i) as [inner |] eqn:F.
    + apply Within_bind; [eapply Hf; eassumption | intros; apply IH].
    + destruct (isMaskNode child).
      * apply Within_bind; [apply Hrun | intros h].
        apply Within_bind; [| intros; apply IH].
        destruct (truthy _ && _); [| apply Within_ret].
        apply Within_bind; [| intros; apply Within_ret].
        apply maskedSiblings_within, Hn.
      * apply Within_bind; [apply Hrun | intros; apply IH].
Qed.

Lemma frameBlock_within node kids parentLayoutMode parentFrame parentGroup
    outputFormat indent baseIndent positionContainer flattenedZIndex :
  Forall EntryWithin kids →
  Within (frameBlock node kids parentLayoutMode parentFrame parentGroup
            outputFormat indent baseIndent positionContainer flattenedZIndex).
Proof.
  intros Hk. unfold frameBlock.
  within_auto.
  all: apply siblingLoop_within.
  all: try (apply Forall_map, Forall_forall; intros e He c z;
            rewrite Forall_forall in Hk; apply (Hk e He)).
  all: intros i inner Hi.
  all: destruct (kids !! i) as [e |] eqn:E; [| discriminate].
  all: destruct (_ && _); [| discriminate].
  all: injection Hi as <-.
  all: apply siblingLoop_within; [| discriminate].
  all: apply Forall_map.
  all: rewrite Forall_forall in Hk.
  all: destruct (Hk e) as [_ Hg]; [eapply list_elem_of_lookup_2; eassumption |].
  all: eapply Forall_impl; [exact Hg |].
  all: intros ge Hge c z; apply Hge.
Qed.

Lemma groupBlock_within node kids parentFrame parentGroup
    outputFormat indent baseIndent positionContainer flattenedZIndex :
  Forall EntryWithin kids →
  Within (groupBlock node kids parentFrame parentGroup
            outputFormat indent baseIndent positionContainer flattenedZIndex).
Proof.
  intros Hk. unfold groupBlock.
  within_auto.
  all: apply siblingLoop_within; [| discriminate].
  all: apply Forall_map, Forall_forall; intros e He c z.
  all: rewrite Forall_forall in Hk; apply (Hk e He).
Qed.

Lemma rectangleBlock_within node parentLayoutMode parentFrame parentGroup
    outputFormat indent baseIndent positionContainer flattenedZIndex :
  Within (rectangleBlock node parentLayoutMode parentFrame parentGroup
            outputFormat indent baseIndent positionContainer flattenedZIndex).
Proof. unfold rectangleBlock, blurredShapeBlock. within_auto. Qed.

Lemma ellipseBlurBlock_within node parentFrame parentGroup
    outputFormat indent baseIndent positionContainer flattenedZIndex fill blur :
  Within (ellipseBlurBlock node parentFrame parentGroup
            outputFormat indent baseIndent positionContainer flattenedZIndex
            fill blur).
Proof. unfold ellipseBlurBlock, blurredShapeBlock. within_auto. Qed.

Lemma vectorBlock_within node parentLayoutMode parentFrame parentGroup
    outputFormat indent baseIndent positionContainer flattenedZIndex :
  Within (vectorBlock node parentLayoutMode parentFrame parentGroup
            outputFormat indent baseIndent positionContainer flattenedZIndex).
Proof. unfold vectorBlock, exportedVector. within_auto. Qed.

Lemma textBlock_within node parentLayoutMode parentFrame parentGroup
    outputFormat indent baseIndent positionContainer flattenedZIndex :
  Within (textBlock node parentLayoutMode parentFrame parentGroup
            outputFormat indent baseIndent positionContainer flattenedZIndex).
Proof. unfold textBlock, addTextUtility, textFill. within_auto. Qed.

Lemma nodeBody_within node kids :
  Forall EntryWithin kids → EmitterWithin (nodeBody node kids).
Proof.
  intros Hk parentLayoutMode parentFrame parentGroup outputFormat indent
    baseIndent positionContainer flattenedZIndex.
  unfold nodeBody.
  destruct (negb (visible (props node))); [apply Within_ret |].
  destruct (isFrameLike _); [apply frameBlock_within, Hk |].
  destruct (isGroupLike _); [apply groupBlock_within, Hk |].
  destruct (String.eqb (type (props node)) "TEXT"); [apply textBlock_within |].
  destruct (String.eqb (type (props node)) "RECTANGLE");
    [apply rectangleBlock_within |].
  cbv zeta.
  destruct (_ && _); [apply ellipseBlurBlock_within |].
  destruct (isVectorNode node); [apply vectorBlock_within | apply Within_ret].
Qed.

Lemma nodeToHtmlCss_within node : EmitterWithin (nodeToHtmlCss node).
Proof.
  enough (G : EmitterWithin (nodeToHtmlCss node)
              ∧ Forall (fun c => EmitterWithin (nodeToHtmlCss c)) (children node))
    by apply G.
  induction node as [p cs IH] using SceneNode_tree_ind.
  split.
  - cbn [nodeToHtmlCss]. apply nodeBody_within.
    apply Forall_map. eapply Forall_impl; [exact IH |].
    intros c [Hc Hg]. split; [exact Hc |]. simpl.
    apply Forall_map. exact Hg.
  - simpl. eapply Forall_impl; [exact IH |]. intros c [Hc _]. exact Hc.
Qed.

(** X9.  The conversion of a node only adds to the export context, whether
    it returns or throws, for every tree and whatever the host calls do:
    the style entries and the font families it found come first, in their
    order, in those it leaves; no utility class, base class or key of the
    style map is removed; the SVG id counter and the count of every base
    name do not decrease.  And when every registered utility class and the
    class of every interned signature had its rule among the entries
    before, the same holds after. *)
Theorem walker_extends_context (node : SceneNode)
    (parentLayoutMode : option string)
    (parentFrame parentGroup : option SceneNode) (outputFormat : OutputFormat)
    (indent baseIndent : Z) (positionContainer : option SceneNode)
    (flattenedZIndex : Z) (context : ExportContext) :
  Grows context
    (snd (nodeToHtmlCss node parentLayoutMode parentFrame parentGroup
            outputFormat indent baseIndent positionContainer flattenedZIndex
            context))
  ∧ (RegistryOk context →
     RegistryOk
       (snd (nodeToHtmlCss node parentLayoutMode parentFrame parentGroup
               outputFormat indent baseIndent positionContainer
               flattenedZIndex context))).
Proof. apply nodeToHtmlCss_within. Qed.

(** ** Runs of registry requests keep their rules *)

Lemma runCall_extends (call : RegistryCall) (c : ExportContext) :
  Extends c (snd (runCall call c)).
Proof.
  destruct call as [base lines | base | cls lines]; cbn [runCall].
  - pose proof (getClassForStyle_extends base lines c) as H.
    destruct (getClassForStyle base lines c). exact H.
  - pose proof (getUniqueClassName_extends base c) as H.
    destruct (getUniqueClassName base c). exact H.
  - apply registerUtilityClass_extends.
Qed.

Lemma runCalls_extends (cs : list RegistryCall) (c : ExportContext) :
  Extends c (snd (runCalls cs c)).
Proof.
  revert c. induction cs as [| call cs IH]; intros c; simpl.
  - apply Extends_refl.
  - pose proof (runCall_extends call c) as H1.
    destruct (runCall call c) as [r c1].
    pose proof (IH c1) as H2.
    destruct (runCalls cs c1) as [rs c2].
    eapply Extends_trans; eassumption.
Qed.

Lemma Extends_entry (c c' : ExportContext) (e : StyleEntry) :
  Extends c c' → e ∈ styleEntries c → e ∈ styleEntries c'.
Proof.
  intros [([k Hk] & _) _] He. rewrite Hk. apply elem_of_app. left. exact He.
Qed.

(** The class a style request returns has its rule, with the declarations
    requested, in the context after the request. *)
Lemma getClassForStyle_rule (base : string) (lines : list string)
    (c : ExportContext) :
  RegistryOk c →
  ∃ e, e ∈ styleEntries (snd (getClassForStyle base lines c))
       ∧ className e = fst (getClassForStyle base lines c)
       ∧ cssText e = cssBlock (fst (getClassForStyle base lines c)) lines.
Proof.
  intros [_ Hsig]. unfold getClassForStyle. cbv zeta.
  destruct (styleMap c !! join LF lines) as [cls |] eqn:E; cbn [truthy].
  - destruct (negb (String.eqb cls "")) eqn:T.
    + cbn [fst snd default]. destruct (Hsig _ _ E) as (e & He & Hn & Ht).
      exists e. split; [exact He |]. split; [exact Hn | exact Ht].
    + destruct (getUniqueClassName base c) as [k c1]. cbn [fst snd].
      eexists. split; [apply elem_of_app; right; apply list_elem_of_singleton;
                       reflexivity |].
      split; reflexivity.
  - destruct (getUniqueClassName base c) as [k c1]. cbn [fst snd].
    eexists. split; [apply elem_of_app; right; apply list_elem_of_singleton;
                     reflexivity |].
    split; reflexivity.
Qed.

(** X10.  In a run of registry requests from a fresh context, the class name
    that a style request returns has, in the final style list, an entry
    with its rule: the class name and the declaration lines of the request
    (whether the request minted the name or found it interned); and every
    utility class requested has an entry in the final style list, with the
    rule of the class for the lines of some request. *)
Theorem registry_rules_kept (cs : list RegistryCall) :
  (∀ (i : nat) base lines cls,
     cs !! i = Some (CallStyle base lines) →
     fst (runCalls cs newContext) !! i = Some (Some cls) →
     ∃ e, e ∈ styleEntries (snd (runCalls cs newContext))
          ∧ className e = cls ∧ cssText e = cssBlock cls lines)
  ∧ (∀ (i : nat) cls lines,
       cs !! i = Some (CallUtility cls lines) →
       ∃ e first, e ∈ styleEntries (snd (runCalls cs newContext))
                  ∧ className e = cls ∧ cssText e = cssBlock cls first).
Proof.
  assert (G : ∀ cs c, RegistryOk c →
            (∀ (i : nat) base lines cls,
               cs !! i = Some (CallStyle base lines) →
               fst (runCalls cs c) !! i = Some (Some cls) →
               ∃ e, e ∈ styleEntries (snd (runCalls cs c))
                    ∧ className e = cls ∧ cssText e = cssBlock cls lines)
            ∧ (∀ (i : nat) cls lines,
                 cs !! i = Some (CallUtility cls lines) →
                 ∃ e first, e ∈ styleEntries (snd (runCalls cs c))
                            ∧ className e = cls ∧ cssText e = cssBlock cls first)).
  { clear cs. induction cs as [| call cs IH]; intros c Hok.
    - split.
      + intros i ? ? ? Hi. rewrite lookup_nil in Hi. discriminate Hi.
      + intros i ? ? Hi. rewrite lookup_nil in Hi. discriminate Hi.
    - pose proof (runCall_extends call c) as Hext1.
      pose proof (runCalls_cons call cs c) as Hcons.
      destruct (runCall call c) as [r c1] eqn:Ecall.
      pose proof (runCalls_extends cs c1) as Hext2.
      destruct (IH c1 (proj2 Hext1 Hok)) as [IHs IHu].
      rewrite Hcons. cbn [fst snd] in *.
      split.
      + intros [| i] base lines cls Hi Hr; cbn in Hi, Hr.
        * injection Hi as ->. injection Hr as ->.
          pose proof (getClassForStyle_rule base lines c Hok) as (e & He & Hn & Ht).
          simpl in Ecall. destruct (getClassForStyle base lines c) as [k c1'].
          injection Ecall as <- <-. cbn [fst snd] in *.
          exists e. split; [eapply Extends_entry; eassumption |].
          split; [exact Hn | exact Ht].
        * apply (IHs i base lines cls Hi Hr).
      + intros [| i] cls lines Hi; cbn in Hi.
        * injection Hi as ->. simpl in Ecall. injection Ecall as _ <-.
          destruct (proj2 (registerUtilityClass_extends cls lines c) Hok)
            as [Hrules _].
          destruct (Hrules cls (registerUtilityClass_registers cls lines c))
            as (e & first & He & Hn).
          exists e, first. split; [eapply Extends_entry; eassumption | exact Hn].
        * apply (IHu i cls lines Hi). }
  apply G, RegistryOk_new.
Qed.

(** ** Base names and utility classes *)

(** X11.  The base class name of a node is never empty: it is the
    Pascal-case name, or else the sanitized name, or else [node-] with the
    id; so is every class name minted from it. *)
Theorem baseName_nonempty (node : SceneNode) (context : ExportContext) :
  pascalName node ≠ ""
  ∧ fst (getUniqueClassName (pascalName node) context) ≠ ""
  ∧ (toPascalCase (name (props node)) ≠ "" →
     pascalName node = toPascalCase (name (props node))).
Proof.
  assert (Hne : pascalName node ≠ "").
  { unfold pascalName. cbv zeta.
    destruct (String.eqb_spec (toPascalCase (name (props node))) "") as [E | N];
      cbn [negb]; [| exact N].
    destruct (String.eqb_spec (sanitizeName (name (props node))) "") as [E' | N'];
      cbn [negb]; [| exact N'].
    discriminate. }
  split; [exact Hne |]. split.
  - unfold getUniqueClassName. cbv zeta. cbn [fst].
    case_decide; [exact Hne |].
    destruct (pascalName node) as [| c s]; [contradiction | discriminate].
  - intros N. unfold pascalName. cbv zeta.
    destruct (String.eqb_spec (toPascalCase (name (props node))) "") as [E | _];
      [contradiction | reflexivity].
Qed.

(** X12.  A utility class is registered once: after a registration the class
    is in the set of utility classes, a second registration of the same
    class changes nothing, whatever its lines, and the registration of a
    class that was registered adds no entry. *)
Theorem registerUtilityClass_once (cls : string) (lines lines' : list string)
    (context : ExportContext) :
  cls ∈ utilityClasses (registerUtilityClass cls lines context)
  ∧ registerUtilityClass cls lines' (registerUtilityClass cls lines context)
    = registerUtilityClass cls lines context
  ∧ (cls ∈ utilityClasses context →
     registerUtilityClass cls lines context = context)
  ∧ (cls ∉ utilityClasses context →
     styleEntries (registerUtilityClass cls lines context)
     = styleEntries context
         ++ [{| className := cls;
                baseName := fst (getBaseNameAndSuffix cls);
                suffix := snd (getBaseNameAndSuffix cls);
                cssText := cssBlock cls lines |}]).
Proof.
  pose proof (registerUtilityClass_registers cls lines context) as Hreg.
  split; [exact Hreg |]. split; [| split].
  - unfold registerUtilityClass at 1. rewrite decide_True by exact Hreg.
    reflexivity.
  - intros Hin. unfold registerUtilityClass. rewrite decide_True by exact Hin.
    reflexivity.
  - intros Hout. unfold registerUtilityClass. rewrite decide_False by exact Hout.
    destruct (getBaseNameAndSuffix cls) as [base suf]. reflexivity.
Qed.

(** ** The entry points *)

(** X13.  The export refuses what it cannot convert, and the handler reports
    it: when the page cannot be loaded the error of the load is posted and
    the selection is not looked at; with no selected node, or a first
    selected node that is not a frame, group, transform group, component or
    instance, the message [Select a frame, component, instance, or group.]
    is posted; only the first selected node is exported; and the cancel
    message closes the plugin without exporting. *)
Theorem export_guards (loaded : Outcome Datatypes.unit)
    (selection : list SceneNode) (format : option OutputFormat) :
  (∀ e, loaded = Threw e →
     onmessage loaded selection (MsgExport format) = [PostError (errorMessage e)])
  ∧ (loaded = Returned tt →
     selection = []
     ∨ (∃ first rest, selection = first :: rest
                      ∧ type (props first) ∉ allowedTypes) →
     onmessage loaded selection (MsgExport format)
     = [PostError "Select a frame, component, instance, or group."])
  ∧ (∀ first rest,
       selection = first :: rest →
       onmessage loaded selection (MsgExport format)
       = onmessage loaded [first] (MsgExport format))
  ∧ onmessage loaded selection MsgCancel = [ClosePlugin].
Proof.
  split; [| split; [| split; [| reflexivity]]].
  - intros e ->. unfold onmessage, exportSelection. destruct e; reflexivity.
  - intros -> Hsel. unfold onmessage, exportSelection.
    destruct Hsel as [-> | (first & rest & -> & Htype)]; [reflexivity |].
    rewrite bool_decide_eq_false_2 by exact Htype. reflexivity.
  - intros first rest ->. reflexivity.
Qed.

(** ** Style attributes *)

Lemma mapSet_fst (k v : string) (m : list (string * string)) :
  map fst (mapSet k v m)
  = if bool_decide (k ∈ map fst m) then map fst m else map fst m ++ [k].
Proof.
  induction m as [| [k' v'] m IH]; cbn [mapSet map fst].
  - rewrite bool_decide_eq_false_2 by apply not_elem_of_nil. reflexivity.
  - destruct (String.eqb_spec k' k) as [-> | N]; simpl.
    + rewrite bool_decide_eq_true_2 by left. reflexivity.
    + rewrite IH. repeat case_bool_decide; try reflexivity; exfalso;
        rewrite ?elem_of_cons in *; intuition congruence.
Qed.

Lemma mapSet_elem (k v : string) (m : list (string * string)) (p w : string) :
  NoDup (map fst m) →
  (p, w) ∈ mapSet k v m ↔ (p = k ∧ w = v) ∨ (p ≠ k ∧ (p, w) ∈ m).
Proof.
  induction m as [| [k' v'] m IH]; simpl; intros Hm.
  - rewrite list_elem_of_singleton, elem_of_nil.
    split; [intros [= -> ->]; left; split; reflexivity |].
    intros [[-> ->] | [_ []]]. reflexivity.
  - apply NoDup_cons in Hm as [Hk' Hm].
    destruct (String.eqb_spec k' k) as [-> | N].
    + rewrite !elem_of_cons. split.
      * intros [[= -> ->] | Hin]; [left; split; reflexivity |].
        right. split; [| right; exact Hin].
        intros ->. apply Hk'. apply (list_elem_of_fmap_2 fst) in Hin. exact Hin.
      * intros [[-> ->] | [Hne [[= E _] | Hin]]];
          [left; reflexivity | contradiction | right; exact Hin].
    + rewrite !elem_of_cons, (IH Hm). split.
      * intros [[= -> ->] | [[-> ->] | [Hne Hin]]].
        -- right. split; [exact N | left; reflexivity].
        -- left. split; reflexivity.
        -- right. split; [exact Hne | right; exact Hin].
      * intros [[-> ->] | [Hne [[= -> ->] | Hin]]].
        -- right. left. split; reflexivity.
        -- left. reflexivity.
        -- right. right. split; assumption.
Qed.

Lemma fold_left_pointwise {A B} (f g : A → B → A) (xs : list B) (a : A) :
  (∀ seen x, f seen x = g seen x) → fold_left f xs a = fold_left g xs a.
Proof.
  revert a. induction xs as [| x xs IH]; intros a H; simpl;
    [reflexivity | rewrite H; apply IH, H].
Qed.

Lemma collectDeclarations_snoc (value : string → string) (l : list string)
    (s : string) :
  collectDeclarations value (l ++ [s])
  = match styleProperty s with
    | Some prop => mapSet prop (value s) (collectDeclarations value l)
    | None => collectDeclarations value l
    end.
Proof. unfold collectDeclarations. rewrite fold_left_app. reflexivity. Qed.

(** The properties of the collected declarations are those declared, each
    once, in the order of their first declarations. *)
Lemma collectDeclarations_keys (value : string → string) (styles : list string) :
  map fst (collectDeclarations value styles) = dedupe [] (omap styleProperty styles).
Proof.
  induction styles as [| s l IH] using rev_ind; [reflexivity |].
  rewrite collectDeclarations_snoc, omap_app. cbn [omap list_omap].
  destruct (styleProperty s) as [p |]; [| rewrite app_nil_r; exact IH].
  rewrite mapSet_fst, dedupe_snoc, IH.
  repeat case_bool_decide; try (now rewrite ?app_nil_r); exfalso;
    rewrite dedupe_elem, ?elem_of_nil in *; tauto.
Qed.

(** The value kept for a property is the value of its last declaration. *)
Lemma collectDeclarations_last (value : string → string) (styles : list string)
    (p v : string) :
  (p, v) ∈ collectDeclarations value styles
  ↔ last (valuesOf value p styles) = Some v.
Proof.
  induction styles as [| s l IH] using rev_ind.
  - cbn. rewrite elem_of_nil. split; [tauto | discriminate].
  - unfold valuesOf in *. rewrite collectDeclarations_snoc, omap_app.
    cbn [omap list_omap].
    destruct (styleProperty s) as [q |] eqn:E.
    + rewrite mapSet_elem
        by (rewrite collectDeclarations_keys; apply dedupe_NoDup).
      case_bool_decide as Hq.
      * injection Hq as ->. rewrite last_snoc. split.
        -- intros [[_ ->] | [N _]]; [reflexivity | contradiction].
        -- intros [= <-]. left. split; reflexivity.
      * rewrite app_nil_r, <- IH. split.
        -- intros [[-> _] | [_ Hin]]; [contradiction | exact Hin].
        -- intros Hin. right. split; [congruence | exact Hin].
    + rewrite bool_decide_eq_false_2 by discriminate.
      rewrite app_nil_r. exact IH.
Qed.

(** X14.  The style attribute of an element holds one declaration for each
    property.  Both builders collect the styles that have a colon after
    their first character: the properties come in the order of their first
    declarations, each once, and the value kept for a property is that of
    its last declaration.  When no style has such a colon the HTML
    attribute is [style] with an empty value and the React attribute is
    left out. *)
Theorem style_attribute_declarations (styles : list string) :
  styles ≠ [] →
  buildInlineStyle styles
  = "style=" +:+ DQ
      +:+ join "; " (map snd (collectDeclarations inlineValue styles)) +:+ DQ
  ∧ buildReactStyleAttr styles
    = (let entries :=
         join ", "
           (map (fun '(k, v) =>
                   cssPropToCamel k +:+ ": '"
                     +:+ replaceAll "'" (BACKSLASH +:+ "'") v +:+ "'")
                (collectDeclarations reactValue styles)) in
       if String.eqb entries "" then "" else " style={{ " +:+ entries +:+ " }}")
  ∧ (∀ value,
       map fst (collectDeclarations value styles)
       = dedupe [] (omap styleProperty styles)
       ∧ NoDup (map fst (collectDeclarations value styles))
       ∧ ∀ p v, (p, v) ∈ collectDeclarations value styles
                ↔ last (valuesOf value p styles) = Some v)
  ∧ ((∀ s, s ∈ styles → styleProperty s = None) →
     buildInlineStyle styles = "style=" +:+ DQ +:+ DQ
     ∧ buildReactStyleAttr styles = "").
Proof.
  intros Hne.
  assert (Hinline : buildInlineStyle styles
                    = "style=" +:+ DQ
                        +:+ join "; " (map snd (collectDeclarations inlineValue styles))
                        +:+ DQ).
  { destruct styles as [| s l]; [contradiction |].
    unfold buildInlineStyle, collectDeclarations, styleProperty, inlineValue.
    cbv zeta. do 3 f_equal. f_equal. f_equal.
    apply fold_left_pointwise. intros seen x. case_decide; reflexivity. }
  assert (Hreact : buildReactStyleAttr styles
    = (let entries :=
         join ", "
           (map (fun '(k, v) =>
                   cssPropToCamel k +:+ ": '"
                     +:+ replaceAll "'" (BACKSLASH +:+ "'") v +:+ "'")
                (collectDeclarations reactValue styles)) in
       if String.eqb entries "" then "" else " style={{ " +:+ entries +:+ " }}")).
  { destruct styles as [| s l]; [contradiction |].
    unfold buildReactStyleAttr, collectDeclarations, styleProperty, reactValue.
    cbv zeta.
    erewrite fold_left_pointwise; [reflexivity |].
    intros seen x. cbv beta. case_decide; reflexivity. }
  split; [exact Hinline |]. split; [exact Hreact |]. split.
  - intros value. split; [apply collectDeclarations_keys |]. split.
    + rewrite collectDeclarations_keys. apply dedupe_NoDup.
    + intros p v. apply collectDeclarations_last.
  - intros Hnone.
    assert (Hk : ∀ value, collectDeclarations value styles = []).
    { intros value. apply (fmap_nil_inv fst).
      rewrite collectDeclarations_keys.
      replace (omap styleProperty styles) with (@nil string); [reflexivity |].
      clear -Hnone. induction styles as [| s l IH]; [reflexivity |].
      cbn [omap list_omap]. rewrite (Hnone s) by left.
      apply IH. intros x Hx. apply Hnone. right. exact Hx. }
    rewrite Hinline, Hreact, !Hk. split; reflexivity.
Qed.


(** ** Text nodes whose fills cannot be read *)

Lemma ThrowsError_bind {A B} (m : Conv A) (k : A → Conv B) :
  ThrowsError m → ThrowsError (m ≫= k).
Proof.
  intros Hm context. destruct (Hm context) as (msg & context1 & E).
  exists msg, context1. apply bind_threw, E.
Qed.

Lemma ThrowsError_after {A B} (m : Conv A) (k : A → Conv B) :
  Returns m → (∀ a, ThrowsError (k a)) → ThrowsError (m ≫= k).
Proof.
  intros Hm Hk context. destruct (Hm context) as (a & context1 & E).
  destruct (Hk a context1) as (msg & context2 & E2).
  exists msg, context2. rewrite (bind_returned _ _ _ _ _ E). exact E2.
Qed.

Lemma textFill_throws node :
  (∀ paints, fills (props node) ≠ Some (Val paints)) → ThrowsError (textFill node).
Proof.
  intros H context. unfold textFill.
  destruct (fills (props node)) as [[| paints] |];
    [| exfalso; eapply H; reflexivity |]; eexists _, _; reflexivity.
Qed.

Lemma textBlock_throws node parentLayoutMode parentFrame parentGroup
    outputFormat indent baseIndent positionContainer flattenedZIndex :
  textReadable node = false →
  ThrowsError (textBlock node parentLayoutMode parentFrame parentGroup
                 outputFormat indent baseIndent positionContainer flattenedZIndex).
Proof.
  intros Hr. unfold textReadable in Hr.
  apply orb_false_iff in Hr as [_ Hr].
  unfold textBlock, addTextUtility.
  do 9 (apply ThrowsError_after; [returns_auto | intros ?]).
  cbv zeta. apply ThrowsError_bind.
  destruct (fills (props node)) as [[| paints] |] eqn:E; [| discriminate |].
  - destruct (getStyledTextSegments node) as [segments | e] eqn:S; [discriminate |].
    intros context. unfold tryCatch.
    rewrite (bind_threw _ _ context e context) by reflexivity.
    apply ThrowsError_bind, textFill_throws. intros paints. rewrite E. discriminate.
  - apply ThrowsError_bind, textFill_throws. intros paints. rewrite E. discriminate.
Qed.

(** X15.  A visible text node is converted exactly when its fills can be
    read.  When the fills are an array, or they are mixed and the host
    returns the styled segments, the walker returns the paragraph; when the
    fills are mixed and the call for the segments fails, the [catch] clause
    reads the fills as an array and throws in its turn, so the walker throws
    an error object, as it does for a text node without fills. *)
Theorem text_converted_iff_readable (node : SceneNode)
    (parentLayoutMode : option string) (parentFrame parentGroup : option SceneNode)
    (outputFormat : OutputFormat) (indent baseIndent : Z)
    (positionContainer : option SceneNode) (flattenedZIndex : Z)
    (context : ExportContext) :
  visible (props node) = true →
  type (props node) = "TEXT" →
  (textReadable node = true →
   ∃ paragraph context',
     nodeToHtmlCss node parentLayoutMode parentFrame parentGroup outputFormat
       indent baseIndent positionContainer flattenedZIndex context
     = (Returned paragraph, context'))
  ∧ (textReadable node = false →
     ∃ message context',
       nodeToHtmlCss node parentLayoutMode parentFrame parentGroup outputFormat
         indent baseIndent positionContainer flattenedZIndex context
       = (Threw (ThrownError message), context')).
Proof.
  intros Hv Ht.
  assert (E : nodeToHtmlCss node parentLayoutMode parentFrame parentGroup
                outputFormat indent baseIndent positionContainer flattenedZIndex
              = textBlock node parentLayoutMode parentFrame parentGroup
                  outputFormat indent baseIndent positionContainer flattenedZIndex).
  { destruct node as [p cs]. cbn [nodeToHtmlCss]. unfold nodeBody.
    cbn [props] in *. rewrite Hv, Ht. reflexivity. }
  rewrite E. split; intros Hr.
  - apply textBlock_returns; assumption.
  - apply textBlock_throws; assumption.
Qed.

(** ** Hidden paints and effects *)

Lemma find_filter {A} (f g : A → bool) (l : list A) :
  (∀ x, f x = true → g x = true) →
  List.find f (List.filter g l) = List.find f l.
Proof.
  intros H. induction l as [| x l IH]; [reflexivity |]. cbn [List.filter List.find].
  destruct (g x) eqn:G; cbn [List.find].
  - destruct (f x); [reflexivity | exact IH].
  - destruct (f x) eqn:F; [| exact IH]. rewrite (H x F) in G. discriminate.
Qed.

Lemma existsb_filter {A} (f g : A → bool) (l : list A) :
  (∀ x, f x = true → g x = true) →
  existsb f (List.filter g l) = existsb f l.
Proof.
  intros H. induction l as [| x l IH]; [reflexivity |]. cbn [List.filter existsb].
  destruct (g x) eqn:G; cbn [existsb]; rewrite IH; [reflexivity |].
  destruct (f x) eqn:F; [| reflexivity]. rewrite (H x F) in G. discriminate.
Qed.

Lemma fold_left_filter {A B} (step : A → B → A) (g : B → bool) (l : list B) :
  (∀ acc x, g x = false → step acc x = acc) →
  ∀ a, fold_left step (List.filter g l) a = fold_left step l a.
Proof.
  intros H. induction l as [| x l IH]; intros a; [reflexivity |].
  cbn [List.filter fold_left]. destruct (g x) eqn:G; cbn [fold_left].
  - apply IH.
  - rewrite (H a x G). apply IH.
Qed.

Lemma find_nil_filter {A} (f g : A → bool) (l : list A) :
  (∀ x, f x = true → g x = true) → List.filter g l = [] → List.find f l = None.
Proof. intros H E. rewrite <- (find_filter f g l H), E. reflexivity. Qed.

(** X16.  Hidden paints and effects never show in the output.  The fill of a
    node, its solid fill, its image test, its stroke declarations, its
    effect declarations and the radius of its layer blur are those of the
    node with the hidden fills, strokes and effects taken away.  The test
    for invisible strokes is the one that looks at them: a node whose
    strokes are all hidden has invisible strokes only, and no stroke
    declaration. *)
Theorem hidden_paints_ignored (node : NodeProps) :
  getFillStyle (withoutHidden node) = getFillStyle node
  ∧ getSolidFill (withoutHidden node) = getSolidFill node
  ∧ hasImageFill (withoutHidden node) = hasImageFill node
  ∧ getStrokeStyles (withoutHidden node) = getStrokeStyles node
  ∧ getEffectsStyles (withoutHidden node) = getEffectsStyles node
  ∧ getLayerBlurRadius (withoutHidden node) = getLayerBlurRadius node
  ∧ (∀ paints, strokes node = Some paints → paints ≠ [] →
       visiblePaints paints = [] →
       hasInvisibleStrokesOnly node = true ∧ getStrokeStyles node = []).
Proof.
  assert (Hand : ∀ a b : bool, a && b = true → b = true)
    by (intros a b H; apply andb_prop in H as [_ H]; exact H).
  split; [| split; [| split; [| split; [| split; [| split]]]]].
  - unfold getFillStyle, withoutHidden. cbn [fills withEffects withStrokes withFills].
    destruct (fills node) as [[| paints] |]; try reflexivity.
    unfold getFillStyleFromPaints, visiblePaints.
    rewrite find_filter by (intros x H; exact H). reflexivity.
  - unfold getSolidFill, withoutHidden. cbn [fills withEffects withStrokes withFills].
    destruct (fills node) as [[| paints] |]; try reflexivity.
    unfold getSolidFillFromPaints, visiblePaints.
    rewrite find_filter by (intros x H; exact (Hand _ _ H)). reflexivity.
  - unfold hasImageFill, withoutHidden. cbn [fills withEffects withStrokes withFills].
    destruct (fills node) as [[| paints] |]; try reflexivity.
    unfold visiblePaints.
    rewrite existsb_filter by (intros x H; exact (Hand _ _ H)). reflexivity.
  - unfold getStrokeStyles, withoutHidden.
    cbn [strokes strokeWeight strokeAlign withEffects withStrokes withFills].
    destruct (strokes node) as [paints |]; [| reflexivity]. cbn [fmap option_fmap option_map].
    pose proof (find_filter
                  (fun p => String.eqb (paintType p) "SOLID" && notHidden (paintVisible p))
                  (fun p => notHidden (paintVisible p)) paints
                  (fun x H => Hand _ _ H)) as E.
    fold (visiblePaints paints) in E.
    destruct paints as [| p0 paints0] eqn:P; [reflexivity |]. rewrite <- P in *.
    destruct (visiblePaints paints) as [| q0 rest] eqn:V.
    + rewrite <- E. subst paints. reflexivity.
    + rewrite E. subst paints. reflexivity.
  - unfold getEffectsStyles, withoutHidden.
    cbn [effects withEffects withStrokes withFills].
    destruct (effects node) as [es |]; [| reflexivity]. cbn [fmap option_fmap option_map].
    match goal with
    | |- context [fold_left ?step es ?a] =>
        pose proof (fold_left_filter step (fun e => notHidden (effectVisible e)) es) as E
    end.
    fold (visibleEffects es) in E.
    specialize (E ltac:(intros [shadows blur] x G; cbv beta iota; rewrite G; reflexivity)).
    destruct es as [| e0 es0] eqn:P; [reflexivity |]. rewrite <- P in *.
    destruct (visibleEffects es) as [| q0 rest] eqn:V.
    + rewrite <- E. subst es. reflexivity.
    + rewrite E. subst es. reflexivity.
  - unfold getLayerBlurRadius, withoutHidden.
    cbn [effects withEffects withStrokes withFills].
    destruct (effects node) as [es |]; [| reflexivity]. cbn [fmap option_fmap option_map].
    pose proof (find_filter
                  (fun e => String.eqb (effectType e) "LAYER_BLUR"
                            && notHidden (effectVisible e))
                  (fun e => notHidden (effectVisible e)) es
                  (fun x H => Hand _ _ H)) as E.
    fold (visibleEffects es) in E.
    destruct es as [| e0 es0] eqn:P; [reflexivity |]. rewrite <- P in *.
    destruct (visibleEffects es) as [| q0 rest] eqn:V.
    + rewrite <- E. subst es. reflexivity.
    + rewrite E. subst es. reflexivity.
  - intros paints Hs Hne Hv. unfold hasInvisibleStrokesOnly, getStrokeStyles.
    rewrite Hs. destruct paints as [| p0 paints0] eqn:P; [contradiction |].
    rewrite <- P in *. split.
    + cbv zeta.
      rewrite <- (existsb_filter _ (fun p => notHidden (paintVisible p)) paints)
        by (intros x H; apply andb_prop in H as [H _]; exact H).
      fold (visiblePaints paints). rewrite Hv. subst paints. reflexivity.
    + rewrite (find_nil_filter _ (fun p => notHidden (paintVisible p)) paints
                 (fun x H => Hand _ _ H) Hv).
      subst paints. reflexivity.
Qed.

(** ** Colours *)

Local Open Scope Q_scope.

Ltac q_arith :=
  unfold Qle, Qlt, Qplus, Qminus, Qopp, Qmult, Qdiv, Qinv, inject_Z in *;
  simpl in *; rewrite ?Pos.mul_1_r, ?Pos2Z.inj_mul in *; lia.

Lemma channel_range (r : Q) :
  0 <= r → r <= 1 →
  ∃ R : Z, (0 ≤ R ≤ 255)%Z ∧ Math_round (r * 255) = inject_Z R.
Proof.
  intros H0 H1. exists (Qfloor (r * 255 + (1 # 2))). split; [| reflexivity].
  split.
  - change 0%Z with (Qfloor 0). apply Qfloor_resp_le.
    clear -H0. destruct r as [n d]. q_arith.
  - apply (Z.le_trans _ (Qfloor (255 + (1 # 2)))); [| vm_compute; discriminate].
    apply Qfloor_resp_le.
    clear -H1. destruct r as [n d]. q_arith.
Qed.

Lemma hexByte_digits (z : Z) :
  (0 ≤ z ≤ 255)%Z →
  ∃ d1 d2, hexByte z = String d1 (String d2 "")
           ∧ isUpperHexDigit d1 = true ∧ isUpperHexDigit d2 = true.
Proof.
  intros Hz.
  assert (Hall : forallb (fun n =>
                   match hexByte (Z.of_nat n) with
                   | String d1 (String d2 EmptyString) =>
                       isUpperHexDigit d1 && isUpperHexDigit d2
                   | _ => false
                   end) (seq 0 256) = true) by (vm_compute; reflexivity).
  rewrite forallb_forall in Hall.
  specialize (Hall (Z.to_nat z)).
  rewrite Z2Nat.id in Hall by lia.
  assert (Hin : In (Z.to_nat z) (seq 0 256)) by (apply in_seq; lia).
  specialize (Hall Hin).
  destruct (hexByte z) as [| d1 [| d2 [| ? ?]]]; try discriminate.
  apply andb_prop in Hall as [H1 H2]. exists d1, d2. auto.
Qed.

Lemma asciiToUpperCase_app (a b : string) :
  asciiToUpperCase (a +:+ b) = asciiToUpperCase a +:+ asciiToUpperCase b.
Proof.
  unfold asciiToUpperCase. apply chars_inj.
  rewrite chars_unchars, !chars_app, !chars_unchars, map_app. reflexivity.
Qed.

Lemma hundredth_ge_1 (k : Z) : 1 <= inject_Z k / 100 ↔ (100 ≤ k)%Z.
Proof. split; intros H; q_arith. Qed.

Lemma hundredth_far (k : Z) :
  (k < 100)%Z → (5 # 1000) <= Qabs (inject_Z k / 100 - 1).
Proof. intros H. unfold Qabs. q_arith. Qed.

Lemma roundAlpha_hundredth (a : Q) :
  roundAlpha a = inject_Z (Qfloor (a * 100 + (1 # 2))) / 100.
Proof. reflexivity. Qed.


Local Close Scope Q_scope.

(** ** The stylesheet of an export *)

Lemma prefix_app_self (pat post : string) : String.prefix pat (pat +:+ post) = true.
Proof.
  induction pat as [| c pat IH]; [destruct post; reflexivity |].
  simpl. destruct (ascii_dec c c); [exact IH | contradiction].
Qed.

Lemma append_empty_r (a : string) : a +:+ "" = a.
Proof.
  induction a as [| d a IH]; [reflexivity |].
  change (String d a +:+ "") with (String d (a +:+ "")). rewrite IH. reflexivity.
Qed.

Lemma join_empty_cons (s : string) (l : list string) :
  join "" (s :: l) = s +:+ join "" l.
Proof. destruct l; [symmetry; apply append_empty_r | reflexivity]. Qed.

Lemma includes_app_l (pat a b : string) :
  includes pat b = true → includes pat (a +:+ b) = true.
Proof.
  intros H. induction a as [| c a IH]; [exact H | apply (includes_cons pat c), IH].
Qed.

(** A text of the list is part of the concatenation. *)
Lemma join_includes (pat : string) (l : list string) :
  pat ∈ l → includes pat (join "" l) = true.
Proof.
  induction l as [| s l IH]; intros Hin; [now apply elem_of_nil in Hin |].
  rewrite join_empty_cons. apply elem_of_cons in Hin as [-> | Hin].
  - apply prefix_includes, prefix_app_self.
  - apply includes_app_l, IH, Hin.
Qed.

Lemma styleRules_includes (e : StyleEntry) (entries : list StyleEntry) :
  e ∈ entries → includes (cssText e) (styleRules entries) = true.
Proof.
  intros Hin. unfold styleRules. apply join_includes.
  apply list_elem_of_fmap_2. unfold sortEntries.
  rewrite sortBy_Permutation. exact Hin.
Qed.

(** X18.  The stylesheet of an export holds the rule of every class the
    walker registered.  When [exportSelection] returns, the walker has
    returned on the first selected node from a fresh context, and for every
    utility class of the final context, and for every interned list of
    declarations, the stylesheet of the result contains the rule of the
    class: the class name and the declaration lines between braces. *)
Theorem exported_stylesheet_complete (loaded : Outcome Datatypes.unit)
    (selection : list SceneNode) (format : OutputFormat) (result : ExportResult) :
  exportSelection loaded selection format = Returned result →
  ∃ root rest bodyContent context,
    selection = root :: rest
    ∧ type (props root) ∈ allowedTypes
    ∧ nodeToHtmlCss root None None None format 0
        (if isReactFormat format then 0 else 2) None 0 newContext
      = (Returned bodyContent, context)
    ∧ (∀ cls, cls ∈ utilityClasses context →
         ∃ lines, includes (cssBlock cls lines) (resultCss result) = true)
    ∧ (∀ lines cls, styleMap context !! join LF lines = Some cls →
         includes (cssBlock cls lines) (resultCss result) = true).
Proof.
  intros H. unfold exportSelection in H.
  destruct loaded as [[] | e]; [| discriminate H].
  destruct selection as [| root rest]; [discriminate H |].
  case_bool_decide as Hallowed; [| discriminate H].
  pose proof (nodeToHtmlCss_within root None None None format 0
                (if isReactFormat format then 0 else 2) None 0 newContext)
    as [_ Hok].
  specialize (Hok RegistryOk_new). cbv zeta in H.
  destruct (nodeToHtmlCss root None None None format 0
              (if isReactFormat format then 0 else 2) None 0 newContext)
    as [[bodyContent | e] context] eqn:W; [| discriminate H].
  cbn [snd] in Hok. destruct Hok as [Hutil Hstyle].
  exists root, rest, bodyContent, context.
  split; [reflexivity |]. split; [exact Hallowed |]. split; [exact W |].
  assert (Hcss : ∀ e, e ∈ styleEntries context →
                   includes (cssText e) (resultCss result) = true).
  { intros e He. apply styleRules_includes in He.
    destruct (isReactFormat format); injection H as <-; cbn [resultCss];
      rewrite ?string_app_assoc; repeat apply includes_app_l; exact He. }
  split.
  - intros cls Hcls. destruct (Hutil cls Hcls) as (e & lines & He & _ & Ht).
    exists lines. rewrite <- Ht. apply Hcss, He.
  - intros lines cls Hs. destruct (Hstyle _ cls Hs) as (e & He & _ & Ht).
    change (ruleText cls (join LF lines)) with (cssBlock cls lines) in Ht.
    rewrite <- Ht. apply Hcss, He.
Qed.

(** ** Position styles *)

Ltac split_ifs :=
  repeat match goal with
         | |- context [if ?b then _ else _] =>
             lazymatch b with
             | context [if _ then _ else _] => fail
             | context [match _ with _ => _ end] => fail
             | _ => destruct b
             end
         | |- context [match ?o with Some _ => _ | None => _ end] =>
             lazymatch o with
             | context [if _ then _ else _] => fail
             | context [match _ with _ => _ end] => fail
             | _ => destruct o
             end
         end.

Ltac declared_once :=
  cbv zeta; split_ifs; cbv beta iota;
  (split; [apply (bool_decide_unpack _) |]; vm_compute; reflexivity).

Lemma getGroupChildPositionStyles_once (node parentGroup : SceneNode) :
  DeclaredOnce (getGroupChildPositionStyles node parentGroup).
Proof. unfold getGroupChildPositionStyles. declared_once. Qed.

Lemma getPositionStylesRelativeToContainer_once (node container : SceneNode) (z k : Z) :
  DeclaredOnce (getPositionStylesRelativeToContainer node container z k).
Proof. unfold getPositionStylesRelativeToContainer. declared_once. Qed.

Lemma getAbsolutePositionStyles_once (node : SceneNode) parentFrame :
  DeclaredOnce (getAbsolutePositionStyles node parentFrame).
Proof. unfold getAbsolutePositionStyles. declared_once. Qed.

Lemma flowPositionStyles_once node parentFrame parentGroup
    positionContainer z :
  DeclaredOnce (fst (flowPositionStyles node parentFrame parentGroup
                       positionContainer z)).
Proof.
  unfold flowPositionStyles.
  destruct positionContainer as [container |];
    [apply getPositionStylesRelativeToContainer_once |].
  destruct parentGroup as [group |]; [apply getGroupChildPositionStyles_once |].
  cbn [fst]. cbv zeta.
  destruct parentFrame as [frame |];
    [| rewrite app_nil_r; apply getAbsolutePositionStyles_once].
  destruct (isAbsoluteChild node (Some frame)) eqn:A; cbn [negb].
  - rewrite app_nil_r. apply getAbsolutePositionStyles_once.
  - unfold isAbsoluteChild in A. unfold getAbsolutePositionStyles. cbv zeta.
    rewrite A. cbn [negb app].
    split; [apply (bool_decide_unpack _) |]; vm_compute; reflexivity.
Qed.

Lemma mapSet_fresh (k v : string) (m : list (string * string)) :
  k ∉ map fst m → mapSet k v m = m ++ [(k, v)].
Proof.
  induction m as [| [k' v'] m IH]; intros H; [reflexivity |].
  cbn [mapSet]. destruct (String.eqb_spec k' k) as [-> | N].
  - exfalso. apply H. left.
  - simpl. rewrite IH; [reflexivity |]. intros Hin. apply H. right. exact Hin.
Qed.

Lemma collectDeclarations_once (value : string → string) (styles : list string) :
  DeclaredOnce styles →
  map snd (collectDeclarations value styles) = map value styles.
Proof.
  intros [Hnd Hall].
  induction styles as [| s l IH] using rev_ind; [reflexivity |].
  rewrite forallb_app in Hall. apply andb_prop in Hall as [Hl Hs].
  cbn [forallb] in Hs. apply andb_prop in Hs as [Hs _].
  apply bool_decide_eq_true in Hs. destruct Hs as [p Hp].
  rewrite omap_app in Hnd. cbn [omap list_omap] in Hnd. rewrite Hp in Hnd.
  apply NoDup_app in Hnd as (Hnd & Hfresh & _).
  rewrite collectDeclarations_snoc, Hp, mapSet_fresh.
  - rewrite !map_app, (IH Hnd Hl). reflexivity.
  - rewrite collectDeclarations_keys, dedupe_elem. intros Hin.
    apply (Hfresh p); [tauto | left].
Qed.

Lemma buildInlineStyle_collect (styles : list string) :
  styles ≠ [] →
  buildInlineStyle styles
  = "style=" +:+ DQ
      +:+ join "; " (map snd (collectDeclarations inlineValue styles)) +:+ DQ.
Proof.
  intros Hne. destruct styles as [| s l]; [contradiction |].
  unfold buildInlineStyle, collectDeclarations, styleProperty, inlineValue.
  cbv zeta. do 3 f_equal. f_equal. f_equal.
  apply fold_left_pointwise. intros seen x. case_decide; reflexivity.
Qed.

(** X19.  The position styles of a node declare each CSS property once.
    Whether the node is placed in a position container, in a group or in a
    layout frame, every style of the list declares a property and no
    property is declared twice; so the style attribute built from the list
    keeps every declaration, in order. *)
Theorem position_styles_declared_once (node : SceneNode)
    (parentFrame parentGroup positionContainer : option SceneNode)
    (flattenedZIndex : Z) :
  let styles :=
    fst (flowPositionStyles node parentFrame parentGroup positionContainer
           flattenedZIndex) in
  NoDup (omap styleProperty styles)
  ∧ (∀ s, s ∈ styles → is_Some (styleProperty s))
  ∧ (styles ≠ [] →
     buildInlineStyle styles
     = "style=" +:+ DQ +:+ join "; " (map trim styles) +:+ DQ).
Proof.
  intros styles.
  pose proof (flowPositionStyles_once node parentFrame parentGroup
                positionContainer flattenedZIndex) as Honce.
  fold styles in Honce. split; [apply Honce |]. split.
  - intros s Hs. destruct Honce as [_ Hall]. rewrite forallb_forall in Hall.
    apply (bool_decide_eq_true_1 (is_Some (styleProperty s))).
    apply Hall, list_elem_of_In, Hs.
  - intros Hne. rewrite (buildInlineStyle_collect styles Hne).
    rewrite (collectDeclarations_once inlineValue styles Honce). reflexivity.
Qed.

(** ** Sanitized names *)

Lemma dropWhile_length {A} (p : A → bool) (l : list A) :
  (length (dropWhile p l) ≤ length l)%nat.
Proof.
  induction l as [| c l IH]; [reflexivity |]. cbn [dropWhile].
  destruct (p c); cbn [length]; lia.
Qed.

Lemma dropWhile_fixed_head {A} (p : A → bool) (l : list A) (c : A) :
  dropWhile p l = l → head l = Some c → p c = false.
Proof.
  destruct l as [| d l]; [discriminate |]. cbn [dropWhile head].
  intros H [= ->]. destruct (p c) eqn:E; [| reflexivity].
  pose proof (dropWhile_length p l) as Hlen. rewrite H in Hlen.
  cbn [length] in Hlen. lia.
Qed.

(** X20.  A sanitized name is a class token, whatever the host's lower
    casing does: it holds lower-case ASCII letters, digits, hyphens and
    underscores only (no space), and neither starts nor ends with a
    hyphen. *)
Theorem sanitizeName_class_token (name : string) :
  forallb (fun c => isLower c || isDigit c || Ascii.eqb c "-" || Ascii.eqb c "_")
          (chars (sanitizeName name)) = true
  ∧ head (chars (sanitizeName name)) ≠ Some "-"%char
  ∧ last (chars (sanitizeName name)) ≠ Some "-"%char.
Proof.
  destruct (sanitizeName_shape name) as (Hclean & Hfront & Hback).
  split; [| split].
  - eapply forallb_weaken; [| exact Hclean].
    intros c H. apply andb_prop in H as [Hn Hs]. unfold isNameChar in Hn.
    destruct (Ascii.eqb c " ") eqn:E.
    + apply Ascii.eqb_eq in E. subst c. discriminate Hs.
    + rewrite orb_false_r in Hn. exact Hn.
  - intros H. pose proof (dropWhile_fixed_head _ _ _ Hfront H) as E.
    discriminate E.
  - intros H. unfold dropWhileEnd in Hback.
    apply (f_equal (@rev _)) in Hback. rewrite rev_involutive in Hback.
    assert (Hh : head (rev (chars (sanitizeName name))) = Some "-"%char).
    { rewrite rev_alt. exact (eq_trans (head_reverse _) H). }
    pose proof (dropWhile_fixed_head _ _ _ Hback Hh) as E. discriminate E.
Qed.

End Exporter.

(** * Instances on the concrete host *)

Lemma codeUnitCompare_antisym (a b : string) :
  Z.sgn (codeUnitCompare b a) = - Z.sgn (codeUnitCompare a b).
Proof.
  unfold codeUnitCompare. rewrite (String.compare_antisym a b).
  destruct (String.compare b a); reflexivity.
Qed.

Lemma codeUnitCompare_le (a b : string) :
  codeUnitCompare a b ≤ 0 ↔ String.le a b.
Proof.
  unfold codeUnitCompare, String.le, String.leb.
  destruct (String.compare a b); simpl; split; intros H; try done; lia.
Qed.

Lemma codeUnitCompare_trans (a b c : string) :
  codeUnitCompare a b ≤ 0 → codeUnitCompare b c ≤ 0 →
  codeUnitCompare a c ≤ 0.
Proof.
  rewrite !codeUnitCompare_le. intros H1 H2. now transitivity b.
Qed.

(** C3 on three entries registered in two orders. *)
Lemma stylesheet_sorted_witness :
  Sorted (fun a b => compareEntries codeUnitCompare a b ≤ 0)
         (sortEntries codeUnitCompare [gapEntry; secondCardEntry; cardEntry])
  ∧ sortEntries codeUnitCompare [gapEntry; secondCardEntry; cardEntry]
    ≡ₚ [gapEntry; secondCardEntry; cardEntry]
  ∧ sortEntries codeUnitCompare [secondCardEntry; cardEntry]
    = [cardEntry; secondCardEntry]
  ∧ styleRules codeUnitCompare [gapEntry; secondCardEntry; cardEntry]
    = styleRules codeUnitCompare [cardEntry; gapEntry; secondCardEntry].
Proof.
  destruct (stylesheet_sorted codeUnitCompare
              codeUnitCompare_antisym codeUnitCompare_trans
              [gapEntry; secondCardEntry; cardEntry])
    as (Hsorted & Hperm & Hpair & Hrules).
  split; [exact Hsorted |]. split; [exact Hperm |].
  split; [apply Hpair; reflexivity |].
  apply Hrules.
  - intros a b Ha Hb Hc.
    repeat (apply elem_of_cons in Ha as [-> | Ha]);
      try (apply elem_of_nil in Ha; contradiction);
      repeat (apply elem_of_cons in Hb as [-> | Hb]);
      try (apply elem_of_nil in Hb; contradiction);
      first [reflexivity | vm_compute in Hc; discriminate Hc].
  - symmetry. apply (Permutation_cons_append [gapEntry; secondCardEntry] cardEntry).
Defined.

(** C3 (as stated) fails: two rectangles named alike with different radii
    get the names [Card] and [Card-2] in visit order, so visiting them in
    the other order exchanges the two rule bodies. *)
Lemma stylesheet_visit_order_counterexample :
  ¬ RulesIndependentOfVisitOrder codeUnitCompare.
Proof.
  intros H.
  specialize (H [CallStyle "Card" ["  border-radius: 4px;"];
                 CallStyle "Card" ["  border-radius: 8px;"]]
                [CallStyle "Card" ["  border-radius: 8px;"];
                 CallStyle "Card" ["  border-radius: 4px;"]]
                (Permutation_swap _ _ _)).
  vm_compute in H. discriminate H.
Qed.

(** C2 on three requests for the base [Card]. *)
Lemma uniqueName_sequence_witness :
  uniqueNames 3 "Card" newContext
  = "Card" :: map (fun k : Z => "Card" +:+ "-" +:+ pretty k)
                  (seqZ 2 (Z.of_nat 3 - 1))
  ∧ NoDup (uniqueNames 3 "Card" newContext).
Proof. apply (uniqueName_sequence "Card" 3). lia. Defined.



Lemma asciiToLowerCase_fixes_names (s : string) :
  forallb isNameChar (chars s) = true → asciiToLowerCase s = s.
Proof.
  intros H. unfold asciiToLowerCase.
  rewrite <- (unchars_chars s) at 2. f_equal.
  induction (chars s) as [|c l IH]; simpl in *; [done |].
  apply andb_prop in H as [Hc Hl]. rewrite (IH Hl). f_equal.
  unfold asciiLowerChar.
  assert (Hup : isUpper c = false); [| now rewrite Hup].
  revert Hc. destruct c as [[] [] [] [] [] [] [] []]; vm_compute; congruence.
Qed.

(** C9 on a layer name with spaces, capitals and brackets. *)
Lemma sanitizeName_idempotent_witness :
  sanitizeName asciiToLowerCase
    (sanitizeName asciiToLowerCase "  Primary Button (hover) - 2 ")
  = sanitizeName asciiToLowerCase "  Primary Button (hover) - 2 ".
Proof.
  apply (sanitizeName_idempotent asciiToLowerCase asciiToLowerCase_fixes_names).
Defined.

(** C8 (as stated) fails: the React dialect does not rewrite the double
    quote (nor the apostrophe). *)
Lemma escape_dialects_counterexample : ¬ EscapersAsStated.
Proof.
  intros [_ H]. apply (H DQUOTE); [set_solver | reflexivity].
Qed.

Example showNumber_examples :
  map showNumber [0; -75; 12.5; -0.25; 16; 100 # 8]%Q
  = ["0"; "-75"; "12.5"; "-0.25"; "16"; "12.5"].
Proof. vm_compute. reflexivity. Qed.

(** C5 on the example of the specification: the centre of the child is at
    (25, 10) and that of the container at (100, 50), so both axes carry a
    residual translate. *)
Lemma center_constraint_styles_witness :
  getAbsolutePositionStyles showNumber centeredChild (Some centeringContainer)
  = ["position: absolute"; "z-index: 0"; "left: 50%"; "top: 50%";
     "transform: translateX(-50%) translateX(-75px) translateY(-50%) translateY(-40px)"]
  ∧ "left: 50%"
      ∈ getAbsolutePositionStyles showNumber centeredChild (Some centeringContainer)
  ∧ "top: 50%"
      ∈ getAbsolutePositionStyles showNumber centeredChild (Some centeringContainer)
  ∧ "transform: translateX(-50%) translateX(-75px) translateY(-50%) translateY(-40px)"
      ∈ getAbsolutePositionStyles showNumber centeredChild (Some centeringContainer).
Proof.
  pose proof (center_constraint_styles showNumber centeredChild
                centeringContainer eq_refl) as (Hl & Ht & Hp & _).
  split; [vm_compute; reflexivity |].
  split; [exact (Hl eq_refl) |].
  split; [exact (Ht eq_refl) |].
  apply Hp. vm_compute. discriminate.
Defined.

(** C5 (as stated) fails on its example: the transform is not the pair of
    [-50%] translates alone. *)
Lemma center_constraint_counterexample :
  ¬ ("transform: translateX(-50%) translateY(-50%)"
       ∈ getAbsolutePositionStyles showNumber centeredChild
           (Some centeringContainer)).
Proof.
  intros H. vm_compute in H.
  repeat (apply elem_of_cons in H as [H|H]; [discriminate H |]).
  now apply elem_of_nil in H.
Qed.

(** ** The walker on the example host *)

Notation hostWalker :=
  (nodeToHtmlCss asciiToLowerCase showNumber noGradient noGradient noGradient
     failingExport failingSegments sameSvg sameSize).
Notation hostExport :=
  (exportSelection codeUnitCompare asciiToLowerCase showNumber noGradient
     noGradient noGradient failingExport failingSegments sameSvg sameSize
     (fun s => s)).
Notation hostMessage :=
  (onmessage codeUnitCompare asciiToLowerCase showNumber noGradient
     noGradient noGradient failingExport failingSegments sameSvg sameSize
     (fun s => s)).

(** C10 on a hidden frame with a child. *)
Lemma invisible_node_skipped_witness :
  visible (props hiddenFrame) = false
  ∧ hostWalker hiddenFrame None None None html 0 2 None 0 newContext
    = (Returned "", newContext).
Proof.
  split; [reflexivity |].
  apply invisible_node_skipped. reflexivity.
Defined.




(** C7 on the frame of the end-to-end example. *)
Lemma flex_gap_class_witness :
  filter (fun c => String.prefix "gap-" c = true)
    (fst (registerFlexUtilities showNumber spacedRow newContext))
  = ["gap-8"]
  ∧ "gap-8" ∈ utilityClasses (snd (registerFlexUtilities showNumber spacedRow
                                     newContext)).
Proof.
  destruct (flex_gap_class showNumber spacedRow newContext) as [Hgap Hclass].
  split; [exact Hgap | apply Hclass; reflexivity].
Defined.

(** C8 on a letter and on the double quote in the React dialect. *)
Lemma escape_dialects_witness :
  escapeHtmlChar "a" = "a" ∧ escapeJsxChar DQUOTE = String DQUOTE "".
Proof.
  destruct escape_dialects as (_ & _ & _ & Hhtml & _ & _ & _ & Hjsx).
  split; [apply Hhtml | apply Hjsx]; intros Hin;
    repeat (apply elem_of_cons in Hin as [Hin | Hin]; [discriminate Hin |]);
    apply elem_of_nil in Hin; exact Hin.
Defined.

(** The same through the walker: of the group [Avatar], whose children are
    the vector mask [Shape] and [Photo], only the mask is emitted; in the
    group [Masked] of the five siblings both wrappers are. *)
Example photo_dropped :
  ∃ markup context,
    hostWalker photoGroup None None None html 0 2 None 0 newContext
    = (Returned markup, context)
    ∧ includes "Shape" markup = true
    ∧ includes "Photo" markup = false.
Proof.
  eexists _, _. split; [vm_compute; reflexivity |].
  split; vm_compute; reflexivity.
Qed.

Example masked_group_wrapped :
  ∃ markup context,
    hostWalker maskedGroup None None None html 0 2 None 0 newContext
    = (Returned markup, context)
    ∧ includes "overflow: hidden; clip-path: inset(0);" markup = true
    ∧ includes "overflow: hidden; clip-path: ellipse(50% 50% at 50% 50%);" markup
      = true.
Proof.
  eexists _, _. split; [vm_compute; reflexivity |].
  split; vm_compute; reflexivity.
Qed.

(** X1 on a class list without duplicates. *)
Lemma classes_deduplicated_witness :
  NoDup ["flex"; "gap-8"] ∧ dedupe [] ["flex"; "gap-8"] = ["flex"; "gap-8"].
Proof.
  assert (H : NoDup ["flex"; "gap-8"]) by (apply (bool_decide_unpack _); reflexivity).
  split; [exact H |].
  destruct (classes_deduplicated ["flex"; "gap-8"]) as (_ & _ & _ & _ & Hid).
  exact (Hid H).
Defined.

(** X2 on an angle bracket and its entity. *)
Lemma escapers_injective_witness :
  (escapeHtml "<" ≠ escapeHtml "&lt;")
  ∧ (escapeJsxText "{" ≠ escapeJsxText "&#123;").
Proof.
  destruct escapers_injective as [Hh Hj]. split; intros E.
  - apply Hh in E. discriminate E.
  - apply Hj in E. discriminate E.
Defined.

(** X3 on a layer name without double quotes. *)
Lemma layer_attribute_quoted_witness :
  (DQUOTE ∉ chars "Card") ∧ replaceAll DQ "&quot;" "Card" = "Card".
Proof.
  assert (H : DQUOTE ∉ chars "Card") by (apply (bool_decide_unpack _); reflexivity).
  split; [exact H |].
  destruct (layer_attribute_quoted "Card" html) as (_ & _ & _ & Hid & _).
  exact (Hid H).
Defined.


(** X6 on the style [Extra Bold]: the weight is 700. *)
Lemma fontWeight_never_800_witness :
  getFontWeightFromStyle asciiToLowerCase extraBold = Some 700
  ∧ 700 ∈ [100; 200; 300; 400; 500; 600; 700; 900].
Proof.
  split; [reflexivity |].
  apply (fontWeight_never_800 asciiToLowerCase extraBold 700). reflexivity.
Defined.

(** X7 on the frame with item spacing 8 and padding 16, from a fresh
    context. *)
Lemma layout_classes_registered_witness :
  "gap-8" ∈ fst (registerFlexUtilities showNumber spacedRow newContext)
  ∧ "gap-8" ∈ utilityClasses
                 (snd (registerFlexUtilities showNumber spacedRow newContext))
  ∧ ∃ e lines,
      e ∈ styleEntries (snd (registerFlexUtilities showNumber spacedRow newContext))
      ∧ className e = "gap-8" ∧ cssText e = cssBlock "gap-8" lines.
Proof.
  assert (H : "gap-8" ∈ fst (registerFlexUtilities showNumber spacedRow newContext))
    by (apply (bool_decide_unpack _); vm_compute; reflexivity).
  split; [exact H |].
  exact (proj1 (layout_classes_registered showNumber spacedRow None newContext
                  RegistryOk_new) "gap-8" H).
Defined.

(** X8 on a node without a layout parent. *)
Lemma sizing_classes_witness :
  fst (fst (registerSizingUtilities showNumber spacedRow None newContext)) = []
  ∧ snd (registerSizingUtilities showNumber spacedRow None newContext) = newContext.
Proof.
  destruct (sizing_classes showNumber spacedRow None newContext) as (_ & _ & H).
  apply H. left. reflexivity.
Defined.

(** X9 on the toolbar, from a fresh context. *)
Lemma walker_extends_context_witness :
  RegistryOk (snd (hostWalker toolbar None None None html 0 2 None 0 newContext)).
Proof.
  apply (walker_extends_context asciiToLowerCase showNumber noGradient noGradient
           noGradient failingExport failingSegments sameSvg sameSize
           toolbar None None None html 0 2 None 0 newContext).
  exact RegistryOk_new.
Defined.

(** X10 on a run with an interned style and a utility class requested
    twice. *)
Lemma registry_rules_kept_witness :
  (∃ e, e ∈ styleEntries (snd (runCalls cardRun newContext))
        ∧ className e = "Card"
        ∧ cssText e = cssBlock "Card" ["  border-radius: 4px;"])
  ∧ (∃ e first, e ∈ styleEntries (snd (runCalls cardRun newContext))
                ∧ className e = "flex" ∧ cssText e = cssBlock "flex" first).
Proof.
  destruct (registry_rules_kept cardRun) as [Hstyle Hutil]. split.
  - apply (Hstyle 3%nat "Badge" ["  border-radius: 4px;"] "Card"); reflexivity.
  - apply (Hutil 2%nat "flex" ["  display: inline-flex;"]). reflexivity.
Defined.

(** X11 on the toolbar. *)
Lemma baseName_nonempty_witness :
  pascalName asciiToLowerCase toolbar = "Toolbar".
Proof.
  destruct (baseName_nonempty asciiToLowerCase toolbar newContext) as (_ & _ & H).
  rewrite H; [reflexivity | discriminate].
Defined.

(** X12 on a class that is registered. *)
Lemma registerUtilityClass_once_witness :
  registerUtilityClass "flex" ["  display: inline-flex;"]
    (registerUtilityClass "flex" ["  display: flex;"] newContext)
  = registerUtilityClass "flex" ["  display: flex;"] newContext.
Proof.
  destruct (registerUtilityClass_once "flex" ["  display: inline-flex;"] []
              (registerUtilityClass "flex" ["  display: flex;"] newContext))
    as (_ & _ & H & _).
  apply H.
  apply (registerUtilityClass_once "flex" ["  display: flex;"] [] newContext).
Defined.

(** X13 on an empty selection and on a selected text node. *)
Lemma export_guards_witness :
  hostMessage (Returned tt) [] (MsgExport None)
  = [PostError "Select a frame, component, instance, or group."]
  ∧ hostMessage (Returned tt) [title] (MsgExport (Some react))
    = [PostError "Select a frame, component, instance, or group."]
  ∧ hostMessage (Threw (ThrownError "page unavailable")) [toolbar] (MsgExport None)
    = [PostError "page unavailable"].
Proof.
  split; [| split].
  - apply (export_guards codeUnitCompare asciiToLowerCase showNumber noGradient
             noGradient noGradient failingExport failingSegments sameSvg sameSize
             (fun s => s) (Returned tt) [] None); [reflexivity |].
    left. reflexivity.
  - apply (export_guards codeUnitCompare asciiToLowerCase showNumber noGradient
             noGradient noGradient failingExport failingSegments sameSvg sameSize
             (fun s => s) (Returned tt) [title] (Some react)); [reflexivity |].
    right. exists title, []. split; [reflexivity |].
    apply (bool_decide_unpack _). reflexivity.
  - apply (proj1 (export_guards codeUnitCompare asciiToLowerCase showNumber
                    noGradient noGradient noGradient failingExport
                    failingSegments sameSvg sameSize (fun s => s)
                    (Threw (ThrownError "page unavailable")) [toolbar] None)
             (ThrownError "page unavailable")).
    reflexivity.
Defined.

(** X14 on three styles, two of them for one property, and on a style
    without a colon. *)
Lemma style_attribute_declarations_witness :
  buildInlineStyle ["left: 0px"; "top: 4px"; "left: 8px"]
  = "style=" +:+ DQ +:+ "left: 8px; top: 4px" +:+ DQ
  ∧ buildInlineStyle ["hidden"] = "style=" +:+ DQ +:+ DQ
  ∧ buildReactStyleAttr ["hidden"] = "".
Proof.
  split.
  - destruct (style_attribute_declarations ["left: 0px"; "top: 4px"; "left: 8px"])
      as (H & _); [discriminate |].
    rewrite H. reflexivity.
  - destruct (style_attribute_declarations ["hidden"]) as (_ & _ & _ & H);
      [discriminate |].
    apply H. intros s Hs. apply list_elem_of_singleton in Hs as ->. reflexivity.
Defined.

(** X15 on a title with mixed fills whose segments the host does not
    return. *)
Lemma text_converted_iff_readable_witness :
  textReadable failingSegments title = false
  ∧ ∃ message context',
      hostWalker title None None None html 0 2 None 0 newContext
      = (Threw (ThrownError message), context').
Proof.
  split; [reflexivity |].
  apply (text_converted_iff_readable asciiToLowerCase showNumber noGradient
           noGradient noGradient failingExport failingSegments sameSvg sameSize
           title None None None html 0 2 None 0 newContext);
    reflexivity.
Defined.

(** X16 on a rectangle whose only stroke is hidden. *)
Lemma hidden_paints_ignored_witness :
  hasInvisibleStrokesOnly ghost = true ∧ getStrokeStyles showNumber ghost = [].
Proof.
  destruct (hidden_paints_ignored showNumber noGradient noGradient noGradient ghost)
    as (_ & _ & _ & _ & _ & _ & H).
  apply (H [hiddenStroke]); [reflexivity | discriminate | reflexivity].
Defined.


(** X18 on the export of the toolbar. *)
Lemma exported_stylesheet_complete_witness :
  ∃ result,
    hostExport (Returned tt) [toolbar] html = Returned result
    ∧ ∃ root rest bodyContent context,
        [toolbar] = root :: rest
        ∧ type (props root) ∈ allowedTypes
        ∧ hostWalker root None None None html 0 2 None 0 newContext
          = (Returned bodyContent, context)
        ∧ (∀ cls, cls ∈ utilityClasses context →
             ∃ lines, includes (cssBlock cls lines) (resultCss result) = true)
        ∧ (∀ lines cls, styleMap context !! join LF lines = Some cls →
             includes (cssBlock cls lines) (resultCss result) = true).
Proof.
  destruct (hostExport (Returned tt) [toolbar] html) as [result | e] eqn:E;
    [| vm_compute in E; discriminate E].
  exists result. split; [reflexivity |].
  exact (exported_stylesheet_complete codeUnitCompare asciiToLowerCase showNumber
           noGradient noGradient noGradient failingExport failingSegments sameSvg
           sameSize (fun s => s) (Returned tt) [toolbar] html result E).
Defined.

(** X19 on the centred badge of the card. *)
Lemma position_styles_declared_once_witness :
  fst (flowPositionStyles showNumber centeredChild (Some centeringContainer)
         None None 0) ≠ []
  ∧ buildInlineStyle
      (fst (flowPositionStyles showNumber centeredChild (Some centeringContainer)
              None None 0))
    = "style=" +:+ DQ
        +:+ join "; "
              (map trim
                 (fst (flowPositionStyles showNumber centeredChild
                         (Some centeringContainer) None None 0)))
        +:+ DQ.
Proof.
  assert (H : fst (flowPositionStyles showNumber centeredChild
                     (Some centeringContainer) None None 0) ≠ [])
    by (vm_compute; discriminate).
  split; [exact H |].
  apply (position_styles_declared_once showNumber centeredChild
           (Some centeringContainer) None None 0).
  exact H.
Defined.
